(** * Gridded forecasts: a shallow embedding of
      [gewittergefahr/gg_utils/gridded_forecasts.py]

    The development follows the Python module function by function.
    Numbers are modelled as the code uses them:
    - grid indices, counts and lead times are Python/numpy integers: [Z];
    - planar coordinates and buffer distances are only compared, subtracted,
      divided by a spacing and rounded: they are rationals ([Q], every finite
      binary64 value is one), with an explicit NaN where the code relies on it;
    - the accumulated probabilities are binary64 values: Rocq's primitive
      [float], so that sums, quotients and NaN are the machine's;
    - the area normalisation uses [numpy.power], for which there is no
      binary64 model here: it is stated over the reals. *)

From Stdlib Require Import ZArith QArith Qround Lia List Bool Sorted.
From Stdlib Require Import Floats Uint63.
From Stdlib Require Import Reals Lra.
From Stdlib Require Lqa.
From stdpp Require Import base tactics option list.

Set Default Proof Using "Type".

(** ** Python exceptions and fallible computations *)

Inductive exn : Set :=
| IndexError
| ValueError
| TypeError
| KeyError
| OverflowError.

Inductive result (A : Type) : Type :=
| Ok (a : A)
| Raise (e : exn).
Arguments Ok {A} a.
Arguments Raise {A} e.

Definition rbind {A B} (x : result A) (k : A -> result B) : result B :=
  match x with
  | Ok a => k a
  | Raise e => Raise e
  end.

Notation "'let*' x ':=' c 'in' k" := (rbind c (fun x => k))
  (at level 10, x pattern, c at level 100, k at level 200, only parsing).

Definition returns {A} (x : result A) : Prop := exists a, x = Ok a.
Definition raises {A} (x : result A) : Prop := exists e, x = Raise e.

Fixpoint mapM {A B} (f : A -> result B) (l : list A) : result (list B) :=
  match l with
  | [] => Ok []
  | a :: l' =>
      let* b := f a in
      let* bs := mapM f l' in
      Ok (b :: bs)
  end.

Fixpoint foldM {A S} (f : S -> A -> result S) (l : list A) (s : S)
  : result S :=
  match l with
  | [] => Ok s
  | a :: l' => let* s' := f s a in foldM f l' s'
  end.

(** ** numpy arrays *)

Module Numpy.

(** An index into an axis of length [n]: [-n <= i < n], negative indices
    counting from the end; anything else raises [IndexError]. *)
Definition norm_index (n : nat) (i : Z) : result nat :=
  if ((0 <=? i) && (i <? Z.of_nat n))%Z then Ok (Z.to_nat i)
  else if ((- Z.of_nat n <=? i) && (i <? 0))%Z
       then Ok (Z.to_nat (i + Z.of_nat n))
       else Raise IndexError.

(** Broadcasting of two 1-D integer index arrays against each other. *)
Definition broadcast (rows cols : list Z) : result (list (Z * Z)) :=
  if decide (length rows = length cols) then Ok (zip rows cols)
  else match rows, cols with
       | [r], _ => Ok (map (fun c => (r, c)) cols)
       | _, [c] => Ok (map (fun r => (r, c)) rows)
       | _, _ => Raise IndexError
       end.

(** [a[rows, cols]] as a list of cells of an M-by-N array. *)
Definition fancy_index (M N : nat) (rows cols : list Z)
  : result (list (nat * nat)) :=
  let* pairs := broadcast rows cols in
  mapM (fun '(r, c) =>
          let* i := norm_index M r in
          let* j := norm_index N c in
          Ok (i, j)) pairs.

Definition in_range (M N : nat) (rc : nat * nat) : Prop :=
  rc.1 < M /\ rc.2 < N.

(** A 2-D array is a list of rows. *)
Abbreviation matrix T := (list (list T)).

Section Matrix.
Context {T : Type}.
Abbreviation matrix := (matrix T).

(** [numpy.full((M, N), v)] *)
Definition full (M N : nat) (v : T) : matrix :=
  replicate M (replicate N v).

Definition cell (m : matrix) (r c : nat) : option T :=
  m !! r ≫= (fun row => row !! c).

Definition set_cell (m : matrix) (r c : nat) (v : T) : matrix :=
  alter (fun row => <[c := v]> row) r m.

Definition wf (M N : nat) (m : matrix) : Prop :=
  length m = M /\ Forall (fun row => length row = N) m.

(** the read [a[idx]]: a fresh array of the selected values *)
Definition gather (m : matrix) (idx : list (nat * nat))
  : result (list T) :=
  mapM (fun '(r, c) =>
          match cell m r c with
          | Some v => Ok v
          | None => Raise IndexError
          end) idx.

(** the write [a[idx] = vals]: in order, so the last write to a repeated
    cell wins *)
Definition scatter (m : matrix) (idx : list (nat * nat)) (vals : list T)
  : matrix :=
  fold_left (fun acc '((r, c), v) => set_cell acc r c v)
            (zip idx vals) m.

(** [a[rows, cols] = f(a[rows, cols])], which is how numpy runs both
    [a[rows, cols] += 1] and [a[rows, cols] = a[rows, cols] + p]. *)
Definition update_at (f : T -> T) (M N : nat) (m : matrix)
           (rows cols : list Z) : result matrix :=
  let* idx := fancy_index M N rows cols in
  let* vals := gather m idx in
  Ok (scatter m idx (map f vals)).

End Matrix.

(** elementwise [a / b] of a float array by an integer array *)
Definition Z_to_float (z : Z) : float :=
  if (z <? 0)%Z then PrimFloat.opp (PrimFloat.of_uint63 (Uint63.of_Z (- z)))
  else PrimFloat.of_uint63 (Uint63.of_Z z).

Definition divide (a : matrix float) (b : matrix Z) : matrix float :=
  zip_with (zip_with (fun x n => PrimFloat.div x (Z_to_float n))) a b.

End Numpy.

(** ** Rounding

    [numpy.round] rounds to the nearest integer, halves to the even one;
    [int(...)] and [astype(int)] truncate towards zero. *)

Module Rounding.

Definition round_half_even (q : Q) : Z :=
  let f := Qfloor q in
  match (q - inject_Z f ?= 1 # 2)%Q with
  | Lt => f
  | Gt => (f + 1)%Z
  | Eq => if Z.even f then f else (f + 1)%Z
  end.

Definition truncate (q : Q) : Z :=
  if Qle_bool 0 q then Qfloor q else Qceiling q.

End Rounding.

(** ** Distance buffers: [_check_distance_buffers]

    A distance is a binary64 value that may be NaN: [None] is NaN, [Some q]
    a finite value.  Rounded distances are integral: [option Z]. *)

Module Buffers.
Import Rounding.

Section ErrorChecking.
Context {A : Type} (leb ltb : A -> A -> bool).

(** Modelled from the spec: [error_checking.assert_is_geq], whose source
    file is not available.  It raises [ValueError] unless [x >= base]; with
    [allow_nan] a NaN passes (spec, data model: distances are "both >= 0
    metres", the minimum "may be undefined/NaN"). *)
Definition assert_is_geq (x : option A) (base : A) (allow_nan : bool)
  : result unit :=
  match x with
  | None => if allow_nan then Ok tt else Raise ValueError
  | Some v => if leb base v then Ok tt else Raise ValueError
  end.

(** Modelled from the spec: [error_checking.assert_is_greater], whose source
    file is not available.  It raises [ValueError] unless [x > base] (spec,
    data model: "max_distance > min_distance"); a comparison with NaN is
    false. *)
Definition assert_is_greater (x base : option A) : result unit :=
  match x, base with
  | Some v, Some b => if ltb b v then Ok tt else Raise ValueError
  | _, _ => Raise ValueError
  end.

(** Modelled from the spec: [error_checking.assert_is_geq_numpy_array], whose
    source file is not available; the elementwise version of
    [assert_is_geq]. *)
Definition assert_is_geq_numpy_array (xs : list (option A)) (base : A)
           (allow_nan : bool) : result unit :=
  let* _ := mapM (fun x => assert_is_geq x base allow_nan) xs in Ok tt.

End ErrorChecking.

(** Modelled from the spec: [error_checking.assert_is_numpy_array] with
    [exact_dimensions], whose source file is not available; it rejects an
    array whose length is not the expected one. *)
Definition assert_is_numpy_array {A} (xs : list A) (exact_length : nat)
  : result unit :=
  if decide (length xs = exact_length) then Ok tt else Raise TypeError.

(** The order [numpy.argsort] sorts by: ascending, NaN last. *)
Definition sorts_before (a b : option Q) : bool :=
  match a, b with
  | Some x, Some y => Qle_bool x y
  | Some _, None => true
  | None, Some _ => false
  | None, None => true
  end.

Fixpoint insert_sorted (key : nat -> option Q) (i : nat) (l : list nat)
  : list nat :=
  match l with
  | [] => [i]
  | j :: l' =>
      if sorts_before (key j) (key i) then j :: insert_sorted key i l'
      else i :: j :: l'
  end.

(** [numpy.argsort(xs)]: the indices of [xs] in ascending order of value.
    Equal values keep their order (numpy sorts short arrays by insertion). *)
Definition argsort (xs : list (option Q)) : list nat :=
  fold_left (fun acc i => insert_sorted (fun k => default None (xs !! k)) i acc)
            (seq 0 (length xs)) [].

(** [xs[indices]] for indices produced by [argsort] on an array of the same
    length (they are all in range). *)
Definition take_indices (xs : list (option Q)) (indices : list nat)
  : list (option Q) :=
  map (fun k => default None (xs !! k)) indices.

(** [numpy.round] of a distance *)
Definition np_round (x : option Q) : option Z := round_half_even <$> x.

(** Python's [!=] on floats: NaN differs from everything. *)
Definition not_equal (a b : option Z) : bool :=
  match a, b with
  | Some x, Some y => negb (x =? y)%Z
  | _, _ => true
  end.

(** The loop over [j], carrying [sorted_max_distances_metres[j - 1]]
    ([None] at [j = 0]). *)
Fixpoint check_sorted (previous_max : option (option Z))
         (sorted : list (option Z * option Z)) : result unit :=
  match sorted with
  | [] => Ok tt
  | (this_min, this_max) :: rest =>
      let* _ :=
        match this_min with
        | None => assert_is_geq Z.leb this_max 0%Z false
        | Some _ => assert_is_greater Z.ltb this_max this_min
        end in
      let* _ :=
        match previous_max with
        | Some prev =>
            if not_equal this_min prev then Raise ValueError else Ok tt
        | None => Ok tt
        end in
      check_sorted (Some this_max) rest
  end.

Definition sorted_rounded (min_distances_metres max_distances_metres
                             : list (option Q))
  : list (option Z * option Z) :=
  let sort_indices := argsort max_distances_metres in
  zip (np_round <$> take_indices min_distances_metres sort_indices)
      (np_round <$> take_indices max_distances_metres sort_indices).

Definition _check_distance_buffers
           (min_distances_metres max_distances_metres : list (option Q))
  : result unit :=
  let* _ := assert_is_geq_numpy_array Qle_bool min_distances_metres 0%Q true in
  let num_buffers := length min_distances_metres in
  let* _ := assert_is_numpy_array max_distances_metres num_buffers in
  check_sorted None
    (sorted_rounded min_distances_metres max_distances_metres).

(** What the loop demands of one rounded buffer: a maximum that is a number,
    above the minimum, or not negative when the minimum is NaN. *)
Definition valid_buffer (b : option Z * option Z) : Prop :=
  match b with
  | (None, Some mx) => (0 <= mx)%Z
  | (Some mn, Some mx) => (mn < mx)%Z
  | (_, None) => False
  end.

(** A chain of buffers in which each minimum is the maximum before it. *)
Inductive abutting : list (option Z * option Z) -> Prop :=
| abutting_nil : abutting []
| abutting_one b : abutting [b]
| abutting_cons b b' l :
    fst b' = snd b -> abutting (b' :: l) -> abutting (b :: b' :: l).

(** The same distance, whatever the fraction that denotes it. *)
Definition same_distance (a b : option Q) : Prop :=
  match a, b with
  | Some x, Some y => (x == y)%Q
  | None, None => True
  | _, _ => False
  end.

Definition non_negative_or_nan (x : option Q) : Prop :=
  match x with
  | Some q => (0 <= q)%Q
  | None => True
  end.

End Buffers.

(** ** Lead times: the head of [create_forecast_grids] *)

Module LeadTimes.
Import Rounding.

(** [numpy.linspace(start, stop, num=num, dtype=int)] for integer end points:
    [num] evenly spaced samples, the last one [stop] itself, truncated to
    integers. *)
Definition linspace (start stop num : Z) : result (list Z) :=
  if (num <? 0)%Z then Raise ValueError
  else if (num =? 1)%Z then Ok [start]
  else
    let step := (inject_Z (stop - start) / inject_Z (num - 1))%Q in
    Ok (map (fun k : nat =>
               if (Z.of_nat k =? num - 1)%Z then stop
               else truncate (inject_Z start + inject_Z (Z.of_nat k) * step)%Q)
            (seq 0 (Z.to_nat num))).

Definition assert_is_geq (x base : Z) : result unit :=
  if (base <=? x)%Z then Ok tt else Raise ValueError.

Definition assert_is_greater (x base : Z) : result unit :=
  if (base <? x)%Z then Ok tt else Raise ValueError.

(** Lines 1208-1226: the checks on the lead-time arguments, then
    [num_lead_times] and [lead_times_seconds]. *)
Definition lead_times_seconds
           (min_lead_time_sec max_lead_time_sec lead_time_resolution_sec : Z)
  : result (list Z) :=
  let* _ := assert_is_geq min_lead_time_sec 0 in
  let* _ := assert_is_greater max_lead_time_sec min_lead_time_sec in
  let* _ := assert_is_greater lead_time_resolution_sec 0 in
  let num_lead_times :=
    (1 + round_half_even
           (inject_Z (max_lead_time_sec - min_lead_time_sec) /
            inject_Z lead_time_resolution_sec)%Q)%Z in
  linspace min_lead_time_sec max_lead_time_sec num_lead_times.

End LeadTimes.

(** ** Polygons and the rasterizer: [_find_grid_points_in_polygon] *)

Module Rasterizer.

(** The exterior ring of a [shapely] polygon: it has a first vertex. *)
Record polygon : Type := {
  first_vertex : Q * Q;
  other_vertices : list (Q * Q)
}.

Definition Qmin_list (x : Q) (xs : list Q) : Q :=
  fold_left (fun a b => if Qle_bool a b then a else b) xs x.
Definition Qmax_list (x : Q) (xs : list Q) : Q :=
  fold_left (fun a b => if Qle_bool a b then b else a) xs x.

(** [numpy.min] and [numpy.max] of the coordinates of the exterior *)
Definition min_x (p : polygon) : Q :=
  Qmin_list (fst (first_vertex p)) (fst <$> other_vertices p).
Definition max_x (p : polygon) : Q :=
  Qmax_list (fst (first_vertex p)) (fst <$> other_vertices p).
Definition min_y (p : polygon) : Q :=
  Qmin_list (snd (first_vertex p)) (snd <$> other_vertices p).
Definition max_y (p : polygon) : Q :=
  Qmax_list (snd (first_vertex p)) (snd <$> other_vertices p).

(** [numpy.searchsorted(a, v, side='left')] on an ascending array: the first
    index whose element is [>= v], the length when there is none. *)
Fixpoint searchsorted_left (a : list Q) (v : Q) : nat :=
  match a with
  | [] => 0
  | x :: a' => if Qle_bool v x then 0 else S (searchsorted_left a' v)
  end.

(** [side='right']: the first index whose element is [> v]. *)
Fixpoint searchsorted_right (a : list Q) (v : Q) : nat :=
  match a with
  | [] => 0
  | x :: a' =>
      if Qle_bool x v then S (searchsorted_right a' v) else 0
  end.

(** [a[i]] for an integer [i]: negative indices count from the end. *)
Definition getitem {A} (a : list A) (i : Z) : result A :=
  let* k := Numpy.norm_index (length a) i in
  match a !! k with
  | Some x => Ok x
  | None => Raise IndexError
  end.

Definition _find_min_value_greater_or_equal (sorted_input_array : list Q)
           (test_value : Q) : result (Q * Z) :=
  let min_index_geq_test :=
    Z.of_nat (searchsorted_left sorted_input_array test_value) in
  let* v := getitem sorted_input_array min_index_geq_test in
  Ok (v, min_index_geq_test).

Definition _find_max_value_less_than_or_equal (sorted_input_array : list Q)
           (test_value : Q) : result (Q * Z) :=
  let max_index_leq_test :=
    (-1 + Z.of_nat (searchsorted_right sorted_input_array test_value))%Z in
  let* v := getitem sorted_input_array max_index_leq_test in
  Ok (v, max_index_leq_test).

(** Python's [range(lo, hi)] *)
Definition range (lo hi : Z) : list Z :=
  map (fun k : nat => (lo + Z.of_nat k)%Z) (seq 0 (Z.to_nat (hi - lo))).

Section FindGridPoints.

(** The source of [polygons.point_in_or_on_polygon] is not available: the
    geometric test is a parameter. *)
Variable point_in_or_on_polygon : polygon -> Q -> Q -> bool.

(** The two nested loops: the cells of the bounding box that pass the test,
    row by row. *)
Definition test_candidates (polygon_object_xy : polygon)
           (grid_points_x_metres grid_points_y_metres : list Q)
           (rows_to_test columns_to_test : list Z)
  : result (list (Z * Z)) :=
  let* found :=
    mapM (fun this_row =>
      mapM (fun this_column =>
        let* x := getitem grid_points_x_metres this_column in
        let* y := getitem grid_points_y_metres this_row in
        Ok (point_in_or_on_polygon polygon_object_xy x y,
            (this_row, this_column)))
        columns_to_test)
      rows_to_test in
  Ok (snd <$> filter (fun t => fst t = true) (concat found)).

Definition _find_grid_points_in_polygon (polygon_object_xy : polygon)
           (grid_points_x_metres grid_points_y_metres : list Q)
  : result (list Z * list Z) :=
  let* (_, min_row_to_test) :=
    _find_min_value_greater_or_equal grid_points_y_metres
      (min_y polygon_object_xy) in
  let* (_, max_row_to_test) :=
    _find_max_value_less_than_or_equal grid_points_y_metres
      (max_y polygon_object_xy) in
  let* (_, min_column_to_test) :=
    _find_min_value_greater_or_equal grid_points_x_metres
      (min_x polygon_object_xy) in
  let* (_, max_column_to_test) :=
    _find_max_value_less_than_or_equal grid_points_x_metres
      (max_x polygon_object_xy) in
  let* cells :=
    test_candidates polygon_object_xy grid_points_x_metres
      grid_points_y_metres
      (range min_row_to_test (max_row_to_test + 1))
      (range min_column_to_test (max_column_to_test + 1)) in
  Ok (fst <$> cells, snd <$> cells).

End FindGridPoints.

End Rasterizer.

(** ** The storm-object table and the forecast grid *)

Module Forecast.
Import Numpy Rounding Rasterizer.

(** The columns of one distance buffer in one row of the table. *)
Record buffer : Type := {
  polygon_object_xy : polygon;
  forecast_probability : float;
  grid_rows_in_buffer : list Z;
  grid_columns_in_buffer : list Z
}.

(** The table: one row per storm object, one [buffer] per distance buffer. *)
Abbreviation storm_object_table := (list (list buffer)).

Definition num_storm_objects {A} (table : list (list A)) : nat :=
  length table.

(** the number of distance-buffer columns of the table *)
Definition num_buffers {A} (table : list (list A)) : nat :=
  match table with
  | [] => 0
  | row :: _ => length row
  end.

(** [table[column_j].values[i]] *)
Definition values {A} (table : list (list A)) (i j : nat) : result A :=
  match cell table i j with
  | Some a => Ok a
  | None => Raise KeyError
  end.

(** [int(numpy.round(diff / spacing))]: the quotient by a zero spacing is an
    infinity or a NaN, which [int] refuses. *)
Definition int_round_quotient (diff spacing : Q) : result Z :=
  if Qeq_bool spacing 0 then
    if Qeq_bool diff 0 then Raise ValueError else Raise OverflowError
  else Ok (round_half_even (diff / spacing)).

(** Lines 1080-1117: grid membership of each extrapolated polygon, from the
    membership of the original one. *)
Definition _extrap_polygons_to_grid_points
           (orig_storm_object_table : storm_object_table)
           (extrap_storm_object_table : list (list polygon))
           (grid_spacing_x_metres grid_spacing_y_metres : Q)
  : result (list (list (list Z * list Z))) :=
  mapM (fun i =>
    mapM (fun j =>
      let* orig := values orig_storm_object_table i j in
      let this_orig_polygon_object := polygon_object_xy orig in
      let* this_extrap_polygon_object :=
        values extrap_storm_object_table i j in
      let this_x_diff_metres :=
        (fst (first_vertex this_extrap_polygon_object) -
         fst (first_vertex this_orig_polygon_object))%Q in
      let this_y_diff_metres :=
        (snd (first_vertex this_extrap_polygon_object) -
         snd (first_vertex this_orig_polygon_object))%Q in
      let* this_row_diff :=
        int_round_quotient this_y_diff_metres grid_spacing_y_metres in
      let* this_column_diff :=
        int_round_quotient this_x_diff_metres grid_spacing_x_metres in
      Ok (map (fun r => (r + this_row_diff)%Z) (grid_rows_in_buffer orig),
          map (fun c => (c + this_column_diff)%Z)
              (grid_columns_in_buffer orig)))
      (seq 0 (num_buffers orig_storm_object_table)))
    (seq 0 (num_storm_objects orig_storm_object_table)).

(** The two running matrices of one initial time. *)
Record accumulator : Type := {
  this_num_forecast_matrix : matrix Z;
  this_probability_matrix_xy : matrix float
}.

(** Lines 1351-1369: the body of the loop over buffers and storm objects. *)
Definition add_contribution (M N : nat) (acc : accumulator)
           (these_rows these_columns : list Z) (probability : float)
  : result accumulator :=
  if decide (length these_rows = 0) then Ok acc
  else
    let* counts :=
      update_at (fun n => (n + 1)%Z) M N (this_num_forecast_matrix acc)
                these_rows these_columns in
    let* sums :=
      update_at (fun x => PrimFloat.add x probability) M N
                (this_probability_matrix_xy acc) these_rows these_columns in
    Ok {| this_num_forecast_matrix := counts;
          this_probability_matrix_xy := sums |}.

(** Whether a membership pair touches cell [(r, c)] of an M-by-N grid. *)
Definition covers (M N : nat) (these_rows these_columns : list Z)
           (r c : nat) : bool :=
  match fancy_index M N these_rows these_columns with
  | Ok idx => bool_decide ((r, c) ∈ idx)
  | Raise _ => false
  end.

(** Both matrices have the shape of the grid. *)
Definition wf_acc (M N : nat) (a : accumulator) : Prop :=
  wf M N (this_num_forecast_matrix a) /\
  wf M N (this_probability_matrix_xy a).

(** [adds M N r c L a a']: going from [a] to [a'] added the probabilities
    [L], in that order, into cell [(r, c)], and one count for each. *)
Definition adds (M N r c : nat) (L : list float) (a a' : accumulator)
  : Prop :=
  wf_acc M N a ->
  wf_acc M N a' /\
  cell (this_num_forecast_matrix a') r c =
    (fun n => (n + Z.of_nat (length L))%Z) <$>
      cell (this_num_forecast_matrix a) r c /\
  cell (this_probability_matrix_xy a') r c =
    (fun x => fold_left PrimFloat.add L x) <$>
      cell (this_probability_matrix_xy a) r c.

(** Every row of a table has one entry per buffer column. *)
Definition rectangular {A} (table : list (list A)) : Prop :=
  Forall (fun row => length row = num_buffers table) table.

Definition same_shape {A B} (t : list (list A)) (u : list (list B)) : Prop :=
  Forall2 (fun row row' => length row = length row') t u.

(** The membership of buffer [orig], shifted as far as the first vertex of
    [extrap] has moved from the one of its own polygon, names only rows and
    columns that numpy accepts on an M-by-N grid. *)
Definition shifted_in_range (M N : nat)
           (grid_spacing_x_metres grid_spacing_y_metres : Q)
           (orig : buffer) (extrap : polygon) : Prop :=
  let this_row_diff :=
    round_half_even
      ((snd (first_vertex extrap) -
        snd (first_vertex (polygon_object_xy orig))) / grid_spacing_y_metres) in
  let this_column_diff :=
    round_half_even
      ((fst (first_vertex extrap) -
        fst (first_vertex (polygon_object_xy orig))) / grid_spacing_x_metres) in
  Forall (fun r => (- Z.of_nat M <= r + this_row_diff < Z.of_nat M)%Z)
         (grid_rows_in_buffer orig) /\
  Forall (fun c => (- Z.of_nat N <= c + this_column_diff < Z.of_nat N)%Z)
         (grid_columns_in_buffer orig).

(** Lines 1371-1373 *)
Definition finalize (acc : accumulator) : matrix float :=
  divide (this_probability_matrix_xy acc) (this_num_forecast_matrix acc).

Inductive smoothing : Set := Gaussian | Cressman.

(** The dictionary returned by [create_forecast_grids]; the two geographic
    coordinate keys and the lat-long matrices are present only on some
    paths. *)
Record gridded_forecast_dict : Type := {
  init_times_unix_sec : list Z;
  min_lead_time : Z;
  max_lead_time : Z;
  grid_x_coords_metres : list Q;
  grid_y_coords_metres : list Q;
  xy_probabilities : list (option (matrix float));
  latlng_probabilities : option (list (option (matrix float)));
  grid_latitudes_deg : option (list Q);
  grid_longitudes_deg : option (list Q)
}.

Section Pipeline.

(** What the module takes from files whose source is not available:
    - [_extrapolate_polygons]: the x-y polygons of every storm object and
      buffer at a lead time (geodesy and projection);
    - the point-in-polygon test;
    - the two smoothers;
    - [_interp_probabilities_to_latlng_grid]: the interpolation of an x-y
      field to a lat-long grid, with that grid's coordinates;
    - [storm_objects_at i]: the rows of the [i]-th initial time with their
      polygons projected and their probabilities normalised (lines
      1307-1319). *)
Variable _extrapolate_polygons : storm_object_table -> Z -> list (list polygon).
Variable point_in_or_on_polygon : polygon -> Q -> Q -> bool.
Variables apply_gaussian apply_cressman : matrix float -> matrix float.
Variable _interp_probabilities_to_latlng_grid :
  matrix float -> list Q -> list Q -> matrix float * list Q * list Q.
Variable storm_objects_at : nat -> storm_object_table.

Variables grid_point_x_coords_metres grid_point_y_coords_metres : list Q.
Variables grid_spacing_x_metres grid_spacing_y_metres : Q.

Definition num_xy_rows : nat := length grid_point_y_coords_metres.
Definition num_xy_columns : nat := length grid_point_x_coords_metres.

(** Lines 973-987 *)
Definition _polygons_to_grid_points (table : storm_object_table)
  : result storm_object_table :=
  mapM (mapM (fun b =>
    let* (these_grid_rows, these_grid_columns) :=
      _find_grid_points_in_polygon point_in_or_on_polygon
        (polygon_object_xy b)
        grid_point_x_coords_metres grid_point_y_coords_metres in
    Ok {| polygon_object_xy := polygon_object_xy b;
          forecast_probability := forecast_probability b;
          grid_rows_in_buffer := these_grid_rows;
          grid_columns_in_buffer := these_grid_columns |}))
    table.

(** Lines 1349-1369: all buffers [j], and for each all storm objects [k]. *)
Definition add_all_contributions (table : storm_object_table)
           (members : list (list (list Z * list Z))) (acc : accumulator)
  : result accumulator :=
  foldM (fun acc j =>
    foldM (fun acc k =>
      let* (these_rows, these_columns) := values members k j in
      let* b := values table k j in
      add_contribution num_xy_rows num_xy_columns acc
        these_rows these_columns (forecast_probability b))
      (seq 0 (num_storm_objects table)) acc)
    (seq 0 (num_buffers table)) acc.

(** Lines 1333-1369: one lead time. *)
Definition update_for_lead_time (table : storm_object_table)
           (acc : accumulator) (this_lead_time_sec : Z) : result accumulator :=
  let this_extrap_storm_object_table :=
    _extrapolate_polygons table this_lead_time_sec in
  let* members :=
    _extrap_polygons_to_grid_points table this_extrap_storm_object_table
      grid_spacing_x_metres grid_spacing_y_metres in
  add_all_contributions table members acc.

(** Lines 1326-1369 *)
Definition accumulate (table : storm_object_table)
           (lead_times_seconds : list Z) : result accumulator :=
  foldM (update_for_lead_time table) lead_times_seconds
    {| this_num_forecast_matrix := full num_xy_rows num_xy_columns 0%Z;
       this_probability_matrix_xy :=
         full num_xy_rows num_xy_columns 0%float |}.

(** The probabilities added into cell [(r, c)], in the order of the loops:
    for one lead time, then for all of them. *)
Definition contributions_at_lead_time (table : storm_object_table)
           (members : list (list (list Z * list Z))) (r c : nat)
  : list float :=
  flat_map (fun j =>
    flat_map (fun k =>
      match values members k j, values table k j with
      | Ok (these_rows, these_columns), Ok b =>
          if covers num_xy_rows num_xy_columns these_rows these_columns r c
          then [forecast_probability b] else []
      | _, _ => []
      end)
      (seq 0 (num_storm_objects table)))
    (seq 0 (num_buffers table)).

Definition contributions (table : storm_object_table)
           (lead_times_seconds : list Z) (r c : nat) : list float :=
  flat_map (fun t =>
    match _extrap_polygons_to_grid_points table
            (_extrapolate_polygons table t)
            grid_spacing_x_metres grid_spacing_y_metres with
    | Ok members => contributions_at_lead_time table members r c
    | Raise _ => []
    end) lead_times_seconds.

Definition smooth (smoothing_method : option smoothing) (m : matrix float)
  : matrix float :=
  match smoothing_method with
  | None => m
  | Some Gaussian => apply_gaussian m
  | Some Cressman => apply_cressman m
  end.

(** Lines 1307-1401: the x-y probability field of the [i]-th initial time. *)
Definition xy_field_for_init_time (lead_times_seconds : list Z)
           (smoothing_method : option smoothing) (i : nat)
  : result (matrix float) :=
  let* table := _polygons_to_grid_points (storm_objects_at i) in
  let* acc := accumulate table lead_times_seconds in
  Ok (smooth smoothing_method (finalize acc)).

(** Lines 1306-1441: the body of the loop over initial times. *)
Definition init_time_step (lead_times_seconds : list Z)
           (smoothing_method : option smoothing) (interp_to_latlng_grid : bool)
           (d : gridded_forecast_dict) (i : nat)
  : result gridded_forecast_dict :=
  let* this_probability_matrix_xy :=
    xy_field_for_init_time lead_times_seconds smoothing_method i in
  let d1 :=
    {| init_times_unix_sec := init_times_unix_sec d;
       min_lead_time := min_lead_time d;
       max_lead_time := max_lead_time d;
       grid_x_coords_metres := grid_x_coords_metres d;
       grid_y_coords_metres := grid_y_coords_metres d;
       xy_probabilities :=
         <[i := Some this_probability_matrix_xy]> (xy_probabilities d);
       latlng_probabilities := latlng_probabilities d;
       grid_latitudes_deg := grid_latitudes_deg d;
       grid_longitudes_deg := grid_longitudes_deg d |} in
  if negb interp_to_latlng_grid then Ok d1
  else
    let '(this_prob_matrix_latlng, these_latitudes_deg,
          these_longitudes_deg) :=
      _interp_probabilities_to_latlng_grid this_probability_matrix_xy
        grid_point_x_coords_metres grid_point_y_coords_metres in
    match latlng_probabilities d1 with
    | None => Raise KeyError
    | Some matrices =>
        let d2 :=
          {| init_times_unix_sec := init_times_unix_sec d1;
             min_lead_time := min_lead_time d1;
             max_lead_time := max_lead_time d1;
             grid_x_coords_metres := grid_x_coords_metres d1;
             grid_y_coords_metres := grid_y_coords_metres d1;
             xy_probabilities := xy_probabilities d1;
             latlng_probabilities :=
               Some (<[i := Some this_prob_matrix_latlng]> matrices);
             grid_latitudes_deg := grid_latitudes_deg d1;
             grid_longitudes_deg := grid_longitudes_deg d1 |} in
        if decide (i <> 0) then Ok d2
        else
          Ok {| init_times_unix_sec := init_times_unix_sec d2;
                min_lead_time := min_lead_time d2;
                max_lead_time := max_lead_time d2;
                grid_x_coords_metres := grid_x_coords_metres d2;
                grid_y_coords_metres := grid_y_coords_metres d2;
                xy_probabilities := xy_probabilities d2;
                latlng_probabilities := latlng_probabilities d2;
                grid_latitudes_deg := Some these_latitudes_deg;
                grid_longitudes_deg := Some these_longitudes_deg |}
    end.

(** [create_forecast_grids], from the argument checks to the returned
    dictionary.  [min_buffer_distances_metres] and
    [max_buffer_distances_metres] are the distances read off the column names
    (lines 1228-1264; with no buffer column [len(None)] is a [TypeError]);
    [init_times] the distinct valid times.  A smoothing method is [None] or
    one of the two names [_check_smoothing_method] accepts. *)
Definition create_forecast_grids
           (min_buffer_distances_metres max_buffer_distances_metres
              : list (option Q))
           (init_times : list Z)
           (min_lead_time_sec max_lead_time_sec lead_time_resolution_sec : Z)
           (interp_to_latlng_grid : bool)
           (prob_radius_for_grid_metres : Q)
           (smoothing_method : option smoothing)
  : result gridded_forecast_dict :=
  let* lead_times :=
    LeadTimes.lead_times_seconds min_lead_time_sec max_lead_time_sec
      lead_time_resolution_sec in
  let* _ :=
    if Qle_bool prob_radius_for_grid_metres 0 then Raise ValueError
    else Ok tt in
  let* _ :=
    match min_buffer_distances_metres with
    | [] => Raise TypeError
    | _ => Ok tt
    end in
  let* _ :=
    Buffers._check_distance_buffers min_buffer_distances_metres
      max_buffer_distances_metres in
  let num_init_times := length init_times in
  let gridded_forecast_dict :=
    {| init_times_unix_sec := init_times;
       min_lead_time := min_lead_time_sec;
       max_lead_time := max_lead_time_sec;
       grid_x_coords_metres := grid_point_x_coords_metres;
       grid_y_coords_metres := grid_point_y_coords_metres;
       xy_probabilities := replicate num_init_times None;
       latlng_probabilities :=
         if interp_to_latlng_grid then Some (replicate num_init_times None)
         else None;
       grid_latitudes_deg := None;
       grid_longitudes_deg := None |} in
  foldM (init_time_step lead_times smoothing_method interp_to_latlng_grid)
        (seq 0 num_init_times) gridded_forecast_dict.

(** What the dictionary holds after [k] initial times, with interpolation
    on: the lat-long matrix of each of them, and from the first one on the
    coordinates computed for the first one. *)
Definition latlng_invariant (lead_times : list Z)
           (smoothing_method : option smoothing) (n k : nat)
           (d : gridded_forecast_dict) : Prop :=
  let interp m :=
    _interp_probabilities_to_latlng_grid m grid_point_x_coords_metres
      grid_point_y_coords_metres in
  (exists matrices,
      latlng_probabilities d = Some matrices /\ length matrices = n /\
      forall i, i < k ->
        exists m,
          xy_field_for_init_time lead_times smoothing_method i = Ok m /\
          matrices !! i = Some (Some (interp m).1.1)) /\
  (0 < k ->
   exists m0,
     xy_field_for_init_time lead_times smoothing_method 0 = Ok m0 /\
     grid_latitudes_deg d = Some (interp m0).1.2 /\
     grid_longitudes_deg d = Some (interp m0).2).

End Pipeline.

End Forecast.

(** ** Area normalisation: [_normalize_probs_by_polygon_area]

    Probabilities, areas and the radius are real numbers here. *)

Module Normalization.
Local Open Scope R_scope.

(** [numpy.power] on a base that is not negative: zero to a positive power is
    zero, anything to the power zero is one. *)
Definition power (x y : R) : R :=
  if Req_dec_T x 0 then (if Req_dec_T y 0 then 1 else 0) else Rpower x y.

(** Lines 631 and 643-646, for one storm object and one buffer. *)
Definition normalized_probability (f_polygon area prob_radius : R) : R :=
  let prob_area_for_grid_metres2 := PI * prob_radius ^ 2 in
  1 - power (1 - f_polygon) (prob_area_for_grid_metres2 / area).

(** The whole function: every buffer [j] of every storm object, given as the
    pair of its forecast probability and the area of its x-y polygon.  The
    function has no check and no [raise]. *)
Definition _normalize_probs_by_polygon_area
           (storm_object_table : list (list (R * R)))
           (prob_radius_for_grid_metres : R) : result (list (list R)) :=
  Ok (map (map (fun '(p, a) =>
                  normalized_probability p a prob_radius_for_grid_metres))
          storm_object_table).

End Normalization.

(** ** A small scenario

    A 3-by-3 grid with 1000 m spacing and two storm objects with one buffer
    each, both over the grid point (1000, 1000).  The geometric test is the
    one for axis-parallel rectangles; storms move rigidly. *)

Module Scenario.
Import Numpy Rasterizer Forecast.
Local Open Scope Q_scope.

Definition grid_points : list Q := [0; 1000; 2000].

Definition rectangle (x0 y0 x1 y1 : Q) : polygon :=
  {| first_vertex := (x0, y0);
     other_vertices := [(x1, y0); (x1, y1); (x0, y1); (x0, y0)] |}.

Definition in_bounding_box (p : polygon) (x y : Q) : bool :=
  Qle_bool (min_x p) x && Qle_bool x (max_x p) &&
  Qle_bool (min_y p) y && Qle_bool y (max_y p).

Definition translate_polygon (dx dy : Q) (p : polygon) : polygon :=
  {| first_vertex := (fst (first_vertex p) + dx, snd (first_vertex p) + dy);
     other_vertices :=
       map (fun v => (fst v + dx, snd v + dy)) (other_vertices p) |}.

(** storms that all move with velocity [(u, v)] metres per second *)
Definition moving (u v : Q) (table : storm_object_table) (lead_time : Z)
  : list (list polygon) :=
  map (map (fun b =>
         translate_polygon (inject_Z lead_time * u) (inject_Z lead_time * v)
           (polygon_object_xy b))) table.

Definition unrasterized (p : polygon) (probability : float) : buffer :=
  {| polygon_object_xy := p;
     forecast_probability := probability;
     grid_rows_in_buffer := [];
     grid_columns_in_buffer := [] |}.

Definition two_storms : storm_object_table :=
  [ [unrasterized (rectangle 0 0 1000 1000) 0x1.999999999999ap-2%float];
    [unrasterized (rectangle 1000 1000 2000 2000) 0x1.3333333333333p-1%float] ].

Definition one_storm : storm_object_table :=
  [ [unrasterized (rectangle 1000 1000 2000 2000) 0.5%float] ].

Definition no_smoother (m : matrix float) : matrix float := m.

(** an interpolation that keeps the field and takes the y-coordinates as
    latitudes, the x-coordinates as longitudes *)
Definition plate_carree (m : matrix float) (xs ys : list Q)
  : matrix float * list Q * list Q :=
  (m, ys, xs).

(** the storm objects of two initial times *)
Definition storms_by_init_time (i : nat) : storm_object_table :=
  match i with
  | O => two_storms
  | S _ => one_storm
  end.

(** the same tables with the grid membership the rasterizer finds *)
Definition rasterized (p : polygon) (probability : float)
           (rows columns : list Z) : buffer :=
  {| polygon_object_xy := p;
     forecast_probability := probability;
     grid_rows_in_buffer := rows;
     grid_columns_in_buffer := columns |}.

Definition two_storms_on_grid : storm_object_table :=
  [ [rasterized (rectangle 0 0 1000 1000) 0x1.999999999999ap-2%float
       [0; 0; 1; 1]%Z [0; 1; 0; 1]%Z];
    [rasterized (rectangle 1000 1000 2000 2000) 0x1.3333333333333p-1%float
       [1; 1; 2; 2]%Z [1; 2; 1; 2]%Z] ].

Definition one_storm_on_grid : storm_object_table :=
  [ [rasterized (rectangle 1000 1000 2000 2000) 0.5%float
       [1; 1; 2; 2]%Z [1; 2; 1; 2]%Z] ].

(** the accumulator after lead time 0 of [two_storms_on_grid] *)
Definition two_storms_accumulated : accumulator :=
  {| this_num_forecast_matrix :=
       [[1; 1; 0]; [1; 2; 1]; [0; 1; 1]]%Z;
     this_probability_matrix_xy :=
       [[0x1.999999999999ap-2; 0x1.999999999999ap-2; 0];
        [0x1.999999999999ap-2; 1; 0x1.3333333333333p-1];
        [0; 0x1.3333333333333p-1; 0x1.3333333333333p-1]]%float |}.

End Scenario.

(** ** Facts about numpy indexing *)

Section NumpyFacts.
Import Numpy.
Context {T : Type}.
Implicit Types (m : matrix T) (idx : list (nat * nat)).

Lemma rbind_Ok {A B} (x : result A) (k : A -> result B) (b : B) :
  rbind x k = Ok b -> exists a, x = Ok a /\ k a = Ok b.
Proof. destruct x as [a|e]; simpl; [eauto | discriminate]. Qed.

Lemma norm_index_lt (n : nat) (i : Z) (k : nat) :
  norm_index n i = Ok k -> k < n.
Proof.
  unfold norm_index. intros H.
  repeat case_match; simplify_eq; lia.
Qed.

Lemma mapM_Forall2 {A B} (f : A -> result B) (l : list A) (bs : list B) :
  mapM f l = Ok bs -> Forall2 (fun a b => f a = Ok b) l bs.
Proof.
  revert bs. induction l as [|a l IH]; simpl; intros bs H.
  - injection H as <-. constructor.
  - apply rbind_Ok in H as (b & Hb & H).
    apply rbind_Ok in H as (bs' & Hbs & [= <-]).
    constructor; auto.
Qed.

Lemma fancy_index_in_range (M N : nat) rows cols idx :
  fancy_index M N rows cols = Ok idx -> Forall (in_range M N) idx.
Proof.
  unfold fancy_index. intros H.
  apply rbind_Ok in H as (pairs & _ & H).
  apply mapM_Forall2 in H.
  induction H as [|[r c] [i j] ? ? H _ IH]; constructor; auto.
  apply rbind_Ok in H as (i' & Hi & H).
  apply rbind_Ok in H as (j' & Hj & [= <- <-]).
  split; simpl; eauto using norm_index_lt.
Qed.

Lemma wf_set_cell (M N : nat) m r c v :
  wf M N m -> wf M N (set_cell m r c v).
Proof.
  intros [Hlen Hrows]. split.
  - unfold set_cell. by rewrite length_alter.
  - unfold set_cell. apply Forall_alter; [done|].
    intros row _ Hrow. by rewrite length_insert.
Qed.

Lemma cell_set_cell (M N : nat) m r c v r' c' :
  wf M N m -> r < M -> c < N ->
  cell (set_cell m r c v) r' c' =
    if decide ((r, c) = (r', c')) then Some v else cell m r' c'.
Proof.
  intros Hwf Hr Hc. pose proof Hwf as [Hlen Hrows].
  unfold cell, set_cell.
  destruct (lookup_lt_is_Some_2 m r) as [row Hrow]; [lia|].
  assert (length row = N) as Hrowlen.
  { rewrite Forall_lookup in Hrows. eauto. }
  destruct (decide (r = r')) as [<-|Hne].
  - rewrite list_lookup_alter_eq, Hrow. simpl.
    destruct (decide (c = c')) as [<-|Hnc].
    + rewrite decide_True by done.
      apply list_lookup_insert_eq. lia.
    + rewrite decide_False by congruence.
      by rewrite list_lookup_insert_ne.
  - rewrite list_lookup_alter_ne by done.
    by rewrite decide_False by congruence.
Qed.

Lemma wf_scatter (M N : nat) m idx (vals : list T) :
  wf M N m -> wf M N (scatter m idx vals).
Proof.
  unfold scatter. revert m. generalize (zip idx vals) as l.
  induction l as [|[[r c] v] l IH]; intros m Hwf; simpl; [done|].
  apply IH. by apply wf_set_cell.
Qed.

(** A scatter of values that depend on the cell alone writes that value to
    every listed cell, whatever the repetitions, and nothing elsewhere. *)
Lemma scatter_cell (M N : nat) (P : nat * nat -> T -> Prop) m idx vals :
  wf M N m -> Forall (in_range M N) idx -> Forall2 P idx vals ->
  forall r c,
    ((r, c) ∈ idx ->
     exists v, cell (scatter m idx vals) r c = Some v /\ P (r, c) v) /\
    ((r, c) ∉ idx -> cell (scatter m idx vals) r c = cell m r c).
Proof.
  intros Hwf Hin HP. revert m Hwf Hin.
  induction HP as [|[r0 c0] v idx vals Hv HP IH]; intros m Hwf Hin r c.
  - split; [by intros ?%elem_of_nil | done].
  - apply Forall_cons in Hin as [[Hr0 Hc0] Hin]. simpl in Hr0, Hc0.
    change (scatter m ((r0, c0) :: idx) (v :: vals))
      with (scatter (set_cell m r0 c0 v) idx vals).
    destruct (IH (set_cell m r0 c0 v)
                ltac:(by apply wf_set_cell) Hin r c) as [IH1 IH2].
    destruct (decide ((r, c) ∈ idx)) as [Hmem|Hnot].
    + split; [intros _; by apply IH1 | intros Hn].
      exfalso. apply Hn. by right.
    + rewrite (IH2 Hnot), (cell_set_cell M N) by done.
      split.
      * intros [Heq|?]%elem_of_cons; [|done].
        inversion Heq; subst. rewrite decide_True by done. eauto.
      * intros Hn. rewrite decide_False; [done|].
        intros Heq. apply Hn. rewrite <- Heq. by left.
Qed.

(** The effect of [a[rows, cols] = f(a[rows, cols])] cell by cell. *)
Lemma update_at_cell (f : T -> T) (M N : nat) m rows cols m' :
  wf M N m -> update_at f M N m rows cols = Ok m' ->
  exists idx,
    fancy_index M N rows cols = Ok idx /\ wf M N m' /\
    forall r c,
      cell m' r c =
        if bool_decide ((r, c) ∈ idx) then f <$> cell m r c else cell m r c.
Proof.
  intros Hwf H. unfold update_at in H.
  apply rbind_Ok in H as (idx & Hidx & H).
  apply rbind_Ok in H as (vals & Hvals & [= <-]).
  exists idx. split; [done|]. split; [by apply wf_scatter|].
  intros r c.
  pose proof (fancy_index_in_range _ _ _ _ _ Hidx) as Hin.
  apply mapM_Forall2 in Hvals.
  assert (Forall2 (fun rc w => exists v, cell m rc.1 rc.2 = Some v /\ w = f v)
                  idx (map f vals)) as HP.
  { clear -Hvals. induction Hvals as [|[r c] v ? ? H _ IH]; simpl;
      constructor; [|done].
    exists v. split; [|done]. simpl. by destruct (cell m r c); simplify_eq. }
  destruct (scatter_cell M N _ m idx (map f vals) Hwf Hin HP r c)
    as [H1 H2].
  case_bool_decide as Hmem.
  - destruct (H1 Hmem) as (w & -> & v & Hv & ->). simpl in Hv.
    by rewrite Hv.
  - by apply H2.
Qed.

End NumpyFacts.

(** ** Facts about the accumulation *)

Section AccumulatorFacts.
Import Numpy Forecast.

Lemma cell_full {T} (M N : nat) (v : T) (r c : nat) :
  r < M -> c < N -> cell (full M N v) r c = Some v.
Proof.
  intros Hr Hc. unfold cell, full.
  rewrite lookup_replicate_2 by done. simpl.
  by rewrite lookup_replicate_2.
Qed.

Lemma wf_full {T} (M N : nat) (v : T) : wf M N (full M N v).
Proof.
  split; unfold full.
  - by rewrite length_replicate.
  - apply Forall_replicate. by rewrite length_replicate.
Qed.

Lemma cell_divide (a : matrix float) (b : matrix Z) (r c : nat) :
  cell (divide a b) r c =
    match cell a r c, cell b r c with
    | Some x, Some n => Some (PrimFloat.div x (Z_to_float n))
    | _, _ => None
    end.
Proof.
  unfold cell, divide. rewrite lookup_zip_with.
  destruct (a !! r) as [ra|]; simpl; [|done].
  destruct (b !! r) as [rb|]; simpl; [|by destruct (ra !! c)].
  rewrite lookup_zip_with.
  destruct (ra !! c); simpl; [|done]. by destruct (rb !! c).
Qed.

Variables (M N r c : nat).
Local Abbreviation adds := (adds M N r c).

Lemma adds_nil (a : accumulator) : adds [] a a.
Proof.
  intros Hwf. split; [done|]. simpl. split.
  - destruct (cell _ r c); simpl; [|done]. f_equal. lia.
  - by destruct (cell _ r c).
Qed.

Lemma adds_app (L1 L2 : list float) (a a' a'' : accumulator) :
  adds L1 a a' -> adds L2 a' a'' -> adds (L1 ++ L2) a a''.
Proof.
  intros H1 H2 Hwf.
  destruct (H1 Hwf) as (Hwf' & Hc1 & Hs1).
  destruct (H2 Hwf') as (Hwf'' & Hc2 & Hs2).
  split; [done|]. rewrite Hc2, Hc1, Hs2, Hs1. clear. split.
  - destruct (cell _ r c); simpl; [|done]. f_equal.
    rewrite length_app. lia.
  - destruct (cell _ r c); simpl; [|done]. by rewrite fold_left_app.
Qed.

Lemma foldM_adds {A} (f : accumulator -> A -> result accumulator)
      (g : A -> list float) (l : list A) :
  (forall x a a', f a x = Ok a' -> adds (g x) a a') ->
  forall a a', foldM f l a = Ok a' -> adds (flat_map g l) a a'.
Proof.
  intros Hf. induction l as [|x l IH]; simpl; intros a a' H.
  - injection H as <-. apply adds_nil.
  - apply rbind_Ok in H as (a1 & H1 & H).
    eapply adds_app; eauto.
Qed.

Lemma covers_nil (these_columns : list Z) :
  covers M N [] these_columns r c = false.
Proof.
  unfold covers, fancy_index, broadcast.
  case_decide as Hlen.
  - destruct these_columns; [done | discriminate].
  - destruct these_columns as [|? [|? ?]]; done.
Qed.

Lemma add_contribution_adds (a a' : accumulator)
      (these_rows these_columns : list Z) (p : float) :
  add_contribution M N a these_rows these_columns p = Ok a' ->
  adds (if covers M N these_rows these_columns r c then [p] else []) a a'.
Proof.
  unfold add_contribution. case_decide as Hlen.
  - intros [= <-]. apply length_zero_iff_nil in Hlen as ->.
    rewrite covers_nil. apply adds_nil.
  - intros H [Hwc Hws].
    apply rbind_Ok in H as (counts & Hcounts & H).
    apply rbind_Ok in H as (sums & Hsums & [= <-]). simpl.
    destruct (update_at_cell _ _ _ _ _ _ _ Hwc Hcounts)
      as (idx & Hidx & Hwc' & Hc).
    destruct (update_at_cell _ _ _ _ _ _ _ Hws Hsums)
      as (idx' & Hidx' & Hws' & Hs).
    assert (idx' = idx) as -> by congruence.
    split; [done|]. rewrite Hc, Hs. unfold covers. rewrite Hidx.
    case_bool_decide; simpl; split;
      try (by destruct (cell _ r c)).
    destruct (cell _ r c); simpl; [|done]. f_equal. lia.
Qed.

End AccumulatorFacts.


Section PipelineFacts.
Import Numpy Rasterizer Forecast.

Variable _extrapolate_polygons : storm_object_table -> Z -> list (list polygon).
Variables grid_point_x_coords_metres grid_point_y_coords_metres : list Q.
Variables grid_spacing_x_metres grid_spacing_y_metres : Q.

Local Abbreviation M := (num_xy_rows grid_point_y_coords_metres).
Local Abbreviation N := (num_xy_columns grid_point_x_coords_metres).

Lemma add_all_contributions_adds (r c : nat) (table : storm_object_table)
      (members : list (list (list Z * list Z))) (a a' : accumulator) :
  add_all_contributions grid_point_x_coords_metres grid_point_y_coords_metres
    table members a = Ok a' ->
  adds M N r c
    (contributions_at_lead_time grid_point_x_coords_metres
       grid_point_y_coords_metres table members r c) a a'.
Proof.
  unfold add_all_contributions, contributions_at_lead_time.
  apply foldM_adds. intros j. apply foldM_adds. intros k b b' H.
  destruct (values members k j) as [[these_rows these_columns]|]; [|done].
  destruct (values table k j) as [buf|]; [|done]. simpl in H.
  by apply add_contribution_adds.
Qed.

Lemma update_for_lead_time_adds (r c : nat) (table : storm_object_table)
      (a a' : accumulator) (t : Z) :
  update_for_lead_time _extrapolate_polygons grid_point_x_coords_metres
    grid_point_y_coords_metres grid_spacing_x_metres grid_spacing_y_metres
    table a t = Ok a' ->
  adds M N r c
    match _extrap_polygons_to_grid_points table
            (_extrapolate_polygons table t)
            grid_spacing_x_metres grid_spacing_y_metres with
    | Ok members =>
        contributions_at_lead_time grid_point_x_coords_metres
          grid_point_y_coords_metres table members r c
    | Raise _ => []
    end a a'.
Proof.
  unfold update_for_lead_time. intros H.
  destruct (_extrap_polygons_to_grid_points _ _ _ _) as [members|];
    [|done].
  by apply add_all_contributions_adds.
Qed.

(** After the loop over lead times, the two matrices hold at every cell the
    number of contributions and the left-to-right sum of their
    probabilities. *)
Lemma accumulate_cell (table : storm_object_table) (lead_times : list Z)
      (acc : accumulator) (r c : nat) :
  accumulate _extrapolate_polygons grid_point_x_coords_metres
    grid_point_y_coords_metres grid_spacing_x_metres grid_spacing_y_metres
    table lead_times = Ok acc ->
  r < M -> c < N ->
  let L := contributions _extrapolate_polygons grid_point_x_coords_metres
             grid_point_y_coords_metres grid_spacing_x_metres
             grid_spacing_y_metres table lead_times r c in
  cell (this_num_forecast_matrix acc) r c = Some (Z.of_nat (length L)) /\
  cell (this_probability_matrix_xy acc) r c =
    Some (fold_left PrimFloat.add L 0%float).
Proof.
  intros H Hr Hc L. unfold accumulate in H.
  eapply (foldM_adds M N r c) in H;
    [|intros t a a' Ht; apply update_for_lead_time_adds, Ht].
  destruct H as (_ & Hcount & Hsum); [split; apply wf_full|].
  simpl in Hcount, Hsum.
  rewrite cell_full in Hcount by done. rewrite cell_full in Hsum by done.
  by split.
Qed.

End PipelineFacts.

(** ** The accumulated grid: what the specification says *)

Section AccumulatorSpec.
Import Numpy Rasterizer Forecast.

Variable _extrapolate_polygons : storm_object_table -> Z -> list (list polygon).
Variable point_in_or_on_polygon : polygon -> Q -> Q -> bool.
Variables apply_gaussian apply_cressman : matrix float -> matrix float.
Variable storm_objects_at : nat -> storm_object_table.
Variables grid_point_x_coords_metres grid_point_y_coords_metres : list Q.
Variables grid_spacing_x_metres grid_spacing_y_metres : Q.

Local Abbreviation M := (num_xy_rows grid_point_y_coords_metres).
Local Abbreviation N := (num_xy_columns grid_point_x_coords_metres).
Local Abbreviation accumulate' :=
  (accumulate _extrapolate_polygons grid_point_x_coords_metres
     grid_point_y_coords_metres grid_spacing_x_metres grid_spacing_y_metres).
Local Abbreviation contributions' :=
  (contributions _extrapolate_polygons grid_point_x_coords_metres
     grid_point_y_coords_metres grid_spacing_x_metres grid_spacing_y_metres).

(** C3.  When the loop over lead times of one initial time has finished, a
    cell of the grid whose count of contributions is 0 (no buffer of any
    storm object touched it at any lead time) holds NaN in the x-y
    probability field, not 0.0; that field is what the run stores for the
    initial time when no smoother is applied. *)
Theorem uncovered_cell_is_nan (i : nat) (lead_times : list Z)
        (table : storm_object_table) (acc : accumulator) :
  _polygons_to_grid_points point_in_or_on_polygon grid_point_x_coords_metres
    grid_point_y_coords_metres (storm_objects_at i) = Ok table ->
  accumulate' table lead_times = Ok acc ->
  exists grid,
    xy_field_for_init_time _extrapolate_polygons point_in_or_on_polygon
      apply_gaussian apply_cressman storm_objects_at
      grid_point_x_coords_metres grid_point_y_coords_metres
      grid_spacing_x_metres grid_spacing_y_metres lead_times None i = Ok grid /\
    forall r c, r < M -> c < N ->
      (contributions' table lead_times r c = [] ->
       cell (this_num_forecast_matrix acc) r c = Some 0%Z) /\
      (cell (this_num_forecast_matrix acc) r c = Some 0%Z ->
       exists v, cell grid r c = Some v /\
                 PrimFloat.is_nan v = true /\ v <> 0%float).
Proof.
  intros Htable Hacc. exists (finalize acc). split.
  - unfold xy_field_for_init_time. rewrite Htable. simpl.
    by rewrite Hacc.
  - intros r c Hr Hc.
    destruct (accumulate_cell _ _ _ _ _ _ _ _ r c Hacc Hr Hc)
      as [Hcount Hsum].
    split.
    + intros HL. by rewrite Hcount, HL.
    + intros Hzero. rewrite Hcount in Hzero.
      assert (contributions' table lead_times r c = []) as HL.
      { apply length_zero_iff_nil. injection Hzero. lia. }
      rewrite HL in Hsum. simpl in Hsum.
      unfold finalize. rewrite cell_divide, Hsum, Hcount, HL. simpl.
      eexists. split; [reflexivity|]. split; [reflexivity|].
      intros Heq. apply (f_equal PrimFloat.is_nan) in Heq.
      vm_compute in Heq. discriminate.
Qed.

(** C6.  The finalized value of a cell is the sum of the probabilities of
    all the (storm object, buffer, lead time) contributions that cover it,
    added in the order of the loops, divided by their number: the mean, with
    no clamping.  With exactly the two contributions 0.4 and 0.6 it is
    exactly 0.5. *)
Theorem finalized_cell_is_mean (lead_times : list Z)
        (table : storm_object_table) (acc : accumulator) (r c : nat) :
  accumulate' table lead_times = Ok acc ->
  r < M -> c < N ->
  let L := contributions' table lead_times r c in
  cell (finalize acc) r c =
    Some (PrimFloat.div (fold_left PrimFloat.add L 0%float)
                        (Z_to_float (Z.of_nat (length L)))) /\
  (L = [0x1.999999999999ap-2%float; 0x1.3333333333333p-1%float] \/
   L = [0x1.3333333333333p-1%float; 0x1.999999999999ap-2%float] ->
   cell (finalize acc) r c = Some 0.5%float).
Proof.
  intros Hacc Hr Hc L.
  destruct (accumulate_cell _ _ _ _ _ _ _ _ r c Hacc Hr Hc)
    as [Hcount Hsum].
  fold L in Hcount, Hsum.
  assert (cell (finalize acc) r c =
            Some (PrimFloat.div (fold_left PrimFloat.add L 0%float)
                                (Z_to_float (Z.of_nat (length L))))) as Hmean.
  { unfold finalize. by rewrite cell_divide, Hsum, Hcount. }
  split; [done|].
  rewrite Hmean. by intros [-> | ->].
Qed.

End AccumulatorSpec.

Section ScenarioFacts.
Import Numpy Rasterizer Forecast Scenario.

Lemma uncovered_cell_is_nan_witness :
  _polygons_to_grid_points in_bounding_box grid_points grid_points two_storms
    = Ok two_storms_on_grid /\
  accumulate (moving 0 0) grid_points grid_points 1000 1000
    two_storms_on_grid [0%Z] = Ok two_storms_accumulated /\
  exists grid,
    xy_field_for_init_time (moving 0 0) in_bounding_box no_smoother
      no_smoother (fun _ => two_storms) grid_points grid_points 1000 1000
      [0%Z] None 0 = Ok grid /\
    exists v, cell grid 0 2 = Some v /\ PrimFloat.is_nan v = true /\
              v <> 0%float.
Proof.
  assert (_polygons_to_grid_points in_bounding_box grid_points grid_points
            two_storms = Ok two_storms_on_grid) as H1 by reflexivity.
  assert (accumulate (moving 0 0) grid_points grid_points 1000 1000
            two_storms_on_grid [0%Z] = Ok two_storms_accumulated) as H2
    by reflexivity.
  split; [exact H1|]. split; [exact H2|].
  destruct (uncovered_cell_is_nan (moving 0 0) in_bounding_box no_smoother
              no_smoother (fun _ => two_storms) grid_points grid_points
              1000 1000 0 [0%Z] two_storms_on_grid two_storms_accumulated
              H1 H2) as (grid & Hgrid & Hcells).
  exists grid. split; [exact Hgrid|].
  apply (Hcells 0 2); [vm_compute; lia | vm_compute; lia | reflexivity].
Defined.

Lemma finalized_cell_is_mean_witness :
  accumulate (moving 0 0) grid_points grid_points 1000 1000
    two_storms_on_grid [0%Z] = Ok two_storms_accumulated /\
  1 < 3 /\ 1 < 3 /\
  cell (finalize two_storms_accumulated) 1 1 = Some 0.5%float.
Proof.
  assert (accumulate (moving 0 0) grid_points grid_points 1000 1000
            two_storms_on_grid [0%Z] = Ok two_storms_accumulated) as H
    by reflexivity.
  split; [exact H|]. split; [lia|]. split; [lia|].
  apply (finalized_cell_is_mean (moving 0 0) grid_points grid_points
           1000 1000 [0%Z] two_storms_on_grid two_storms_accumulated 1 1 H);
    [vm_compute; lia | vm_compute; lia | left; reflexivity].
Defined.

(** C5.  The grid membership of an extrapolated polygon is the membership of
    the original one plus an integer shift, and nothing checks it against the
    grid.  A storm object over rows 1 and 2 of a 3-row grid that moves one
    row north gets rows 2 and 3: the update of the count matrix raises
    [IndexError].  The same object moved three rows south gets rows -2 and
    -1, which numpy reads from the end: its probability is added into rows 1
    and 2, where the polygon no longer is. *)
Theorem translated_membership_leaves_grid :
  _extrap_polygons_to_grid_points one_storm_on_grid
    (moving 0 (1000 # 60) one_storm_on_grid 60) 1000 1000
    = Ok [[([2; 2; 3; 3]%Z, [1; 2; 1; 2]%Z)]] /\
  accumulate (moving 0 (1000 # 60)) grid_points grid_points 1000 1000
    one_storm_on_grid [0%Z; 60%Z] = Raise IndexError /\
  _extrap_polygons_to_grid_points one_storm_on_grid
    (moving 0 (- (3000 # 60)) one_storm_on_grid 60) 1000 1000
    = Ok [[([-2; -2; -1; -1]%Z, [1; 2; 1; 2]%Z)]] /\
  exists acc,
    accumulate (moving 0 (- (3000 # 60))) grid_points grid_points 1000 1000
      one_storm_on_grid [60%Z] = Ok acc /\
    this_num_forecast_matrix acc = [[0; 0; 0]; [0; 1; 1]; [0; 1; 1]]%Z.
Proof.
  split; [reflexivity|]. split; [reflexivity|]. split; [reflexivity|].
  eexists. split; reflexivity.
Qed.

End ScenarioFacts.

(** ** Facts about the validation of distance buffers *)

Section BufferFacts.
Import Rounding Buffers.

Lemma insert_sorted_perm (key : nat -> option Q) (i : nat) (l : list nat) :
  insert_sorted key i l ≡ₚ i :: l.
Proof.
  induction l as [|j l IH]; simpl; [done|].
  destruct (sorts_before (key j) (key i)); [|done].
  rewrite IH. apply Permutation_swap.
Qed.

Lemma argsort_perm (xs : list (option Q)) :
  argsort xs ≡ₚ seq 0 (length xs).
Proof.
  unfold argsort.
  enough (forall l acc,
            fold_left (fun acc i =>
                         insert_sorted (fun k => default None (xs !! k)) i acc)
                      l acc ≡ₚ l ++ acc) as H.
  { rewrite H. by rewrite app_nil_r. }
  induction l as [|i l IH]; intros acc; simpl; [done|].
  rewrite IH, insert_sorted_perm. by rewrite Permutation_middle.
Qed.

Lemma sorted_rounded_alt (mins maxs : list (option Q)) :
  sorted_rounded mins maxs =
    (fun k => (np_round (default None (mins !! k)),
               np_round (default None (maxs !! k)))) <$> argsort maxs.
Proof.
  unfold sorted_rounded, take_indices.
  induction (argsort maxs) as [|k l IH]; simpl; [done|]. by f_equal.
Qed.

Lemma zip_rounded_alt (mins maxs : list (option Q)) :
  length maxs = length mins ->
  zip (np_round <$> mins) (np_round <$> maxs) =
    (fun k => (np_round (default None (mins !! k)),
               np_round (default None (maxs !! k)))) <$> seq 0 (length maxs).
Proof.
  intros Hlen. apply list_eq. intros k.
  rewrite lookup_zip_with, !list_lookup_fmap.
  destruct (decide (k < length maxs)) as [Hk|Hk].
  - rewrite lookup_seq_lt by done. simpl.
    destruct (lookup_lt_is_Some_2 mins k) as [a ->]; [lia|].
    destruct (lookup_lt_is_Some_2 maxs k) as [b ->]; [lia|]. done.
  - rewrite lookup_seq_ge by lia.
    rewrite (lookup_ge_None_2 mins) by lia. done.
Qed.

(** Sorting only reorders the rounded pairs. *)
Lemma sorted_rounded_perm (mins maxs : list (option Q)) :
  length maxs = length mins ->
  sorted_rounded mins maxs ≡ₚ zip (np_round <$> mins) (np_round <$> maxs).
Proof.
  intros Hlen. rewrite sorted_rounded_alt, zip_rounded_alt by done.
  by rewrite argsort_perm.
Qed.

Lemma not_equal_false (a b : option Z) :
  not_equal a b = false <-> a = b /\ b <> None.
Proof.
  destruct a as [x|], b as [y|]; simpl; try (split; [done | by intros [? ?]]).
  rewrite negb_false_iff, Z.eqb_eq. split.
  - by intros ->.
  - by intros [[= ->] _].
Qed.

Lemma check_buffer_Ok (this_min this_max : option Z) :
  match this_min with
  | None => assert_is_geq Z.leb this_max 0%Z false
  | Some _ => assert_is_greater Z.ltb this_max this_min
  end = Ok tt <-> valid_buffer (this_min, this_max).
Proof.
  destruct this_min as [mn|], this_max as [mx|]; simpl; try done.
  - destruct (Z.ltb_spec mn mx); split; (done || lia).
  - destruct (Z.leb_spec 0 mx); split; (done || lia).
Qed.

(** The loop accepts exactly the chains of valid buffers that abut, the
    first of them abutting the maximum carried in. *)
Lemma check_sorted_iff (previous_max : option (option Z))
      (l : list (option Z * option Z)) :
  check_sorted previous_max l = Ok tt <->
  Forall valid_buffer l /\ abutting l /\
  match previous_max, l with
  | Some prev, b :: _ => fst b = prev /\ prev <> None
  | _, _ => True
  end.
Proof.
  revert previous_max. induction l as [|[mn mx] l IH]; intros prev; simpl.
  - split; [intros _|done]. repeat split; [constructor | constructor |].
    by destruct prev.
  - pose proof (check_buffer_Ok mn mx) as Hvalid.
    destruct (match mn with
              | None => assert_is_geq Z.leb mx 0%Z false
              | Some _ => assert_is_greater Z.ltb mx mn
              end) as [[]|e] eqn:Hbuf; simpl.
    2:{ split; [done|]. intros (Hv & _ & _).
        apply Forall_cons in Hv as [Hv _]. apply Hvalid in Hv. done. }
    assert (valid_buffer (mn, mx)) as Hv by by apply Hvalid.
    assert (mx <> None) as Hmx.
    { intros ->. by destruct mn. }
    assert ((match prev with
             | Some p => if not_equal mn p then Raise ValueError else Ok tt
             | None => Ok tt
             end = Ok tt) <->
            match prev with Some p => mn = p /\ p <> None | None => True end)
      as Hprev.
    { destruct prev as [p|]; [|done].
      rewrite <- not_equal_false. by destruct (not_equal mn p). }
    destruct (match prev with
              | Some p => if not_equal mn p then Raise ValueError else Ok tt
              | None => Ok tt
              end) as [[]|e]; simpl.
    2:{ split; [done|]. intros (_ & _ & Hp).
        destruct prev as [p|]; [|by apply Hprev].
        by apply Hprev in Hp. }
    rewrite IH. split.
    + intros (Hvl & Hab & Hhead). split; [by constructor|]. split.
      * destruct l as [|b' l]; constructor; [by apply Hhead | done].
      * destruct prev; by apply Hprev.
    + intros (Hvl & Hab & Hhead).
      apply Forall_cons in Hvl as [_ Hvl]. split; [done|].
      inversion Hab as [| |? ? ? Hfst Hab']; subst.
      * repeat split; constructor.
      * by repeat split.
Qed.

Lemma assert_mins_Ok (mins : list (option Q)) :
  assert_is_geq_numpy_array Qle_bool mins 0%Q true = Ok tt <->
  Forall non_negative_or_nan mins.
Proof.
  unfold assert_is_geq_numpy_array.
  induction mins as [|m mins IH]; simpl.
  - split; [constructor | done].
  - rewrite Forall_cons.
    assert (assert_is_geq Qle_bool m 0%Q true = Ok tt <->
            non_negative_or_nan m) as Hm.
    { destruct m as [q|]; simpl; [|done].
      rewrite <- Qle_bool_iff. by destruct (Qle_bool 0 q). }
    destruct (assert_is_geq Qle_bool m 0%Q true) as [[]|e]; simpl.
    + destruct (mapM _ mins); simpl in *; split; try done.
      * intros _. split; [by apply Hm | by apply IH].
      * intros [_ H]. by apply IH in H.
    + split; [done|]. intros [H _]. by apply Hm in H.
Qed.

Lemma assert_length_Ok {A} (xs : list A) (n : nat) :
  assert_is_numpy_array xs n = Ok tt <-> length xs = n.
Proof. unfold assert_is_numpy_array. by case_decide. Qed.

Lemma check_distance_buffers_iff (mins maxs : list (option Q)) :
  _check_distance_buffers mins maxs = Ok tt <->
  Forall non_negative_or_nan mins /\ length maxs = length mins /\
  Forall valid_buffer (sorted_rounded mins maxs) /\
  abutting (sorted_rounded mins maxs).
Proof.
  unfold _check_distance_buffers.
  pose proof (assert_mins_Ok mins) as Hmins.
  destruct (assert_is_geq_numpy_array Qle_bool mins 0%Q true) as [[]|e];
    simpl; [|split; [done | intros [H _]; by apply Hmins in H]].
  pose proof (assert_length_Ok maxs (length mins)) as Hlen.
  destruct (assert_is_numpy_array maxs (length mins)) as [[]|e]; simpl;
    [|split; [done | intros (_ & H & _); by apply Hlen in H]].
  rewrite check_sorted_iff. split.
  - intros (Hv & Hab & _). split; [by apply Hmins|]. split; [by apply Hlen|].
    done.
  - intros (_ & _ & Hv & Hab). by destruct (sorted_rounded mins maxs).
Qed.

(** In an accepted chain the maxima increase strictly: no buffer occurs
    twice. *)
Lemma check_sorted_NoDup (p : Z) (l : list (option Z * option Z)) :
  check_sorted (Some (Some p)) l = Ok tt ->
  Forall (fun b => exists x, snd b = Some x /\ (p < x)%Z) l /\ NoDup l.
Proof.
  revert p. induction l as [|[mn mx] l IH]; intros p H.
  - split; constructor.
  - apply check_sorted_iff in H as (Hv & Hab & Hmn & _).
    simpl in Hmn. subst mn.
    apply Forall_cons in Hv as [Hhd Hv]. simpl in Hhd.
    destruct mx as [x|]; [|done].
    assert (check_sorted (Some (Some x)) l = Ok tt) as Hrest.
    { apply check_sorted_iff. split; [done|].
      inversion Hab as [| |? ? ? Hfst Hab']; subst.
      - repeat split; constructor.
      - by repeat split. }
    destruct (IH x Hrest) as [Hgt Hnd]. split.
    + constructor; [by exists x|].
      eapply Forall_impl; [exact Hgt|].
      intros b (y & Hy & Hlt). exists y. split; [done | lia].
    + constructor; [|done]. intros Hin.
      rewrite Forall_forall in Hgt.
      destruct (Hgt _ Hin) as (y & Hy & Hlt). simpl in Hy.
      injection Hy as <-. lia.
Qed.

Lemma check_sorted_None_NoDup (l : list (option Z * option Z)) :
  check_sorted None l = Ok tt -> NoDup l.
Proof.
  destruct l as [|[mn mx] l]; intros H; [constructor|].
  apply check_sorted_iff in H as (Hv & Hab & _).
  apply Forall_cons in Hv as [Hhd Hv].
  assert (exists x, mx = Some x) as [x ->].
  { destruct mx as [x|]; [by exists x | by destruct mn]. }
  assert (check_sorted (Some (Some x)) l = Ok tt) as Hrest.
  { apply check_sorted_iff. split; [done|].
    inversion Hab as [| |? ? ? Hfst Hab']; subst.
    - repeat split; constructor.
    - by repeat split. }
  destruct (check_sorted_NoDup x l Hrest) as [Hgt Hnd].
  constructor; [|done]. intros Hin.
  rewrite Forall_forall in Hgt.
  destruct (Hgt _ Hin) as (y & Hy & Hlt). simpl in Hy.
  injection Hy as <-. lia.
Qed.

Lemma round_half_even_Qeq (x y : Q) :
  (x == y)%Q -> round_half_even x = round_half_even y.
Proof.
  intros Hxy. unfold round_half_even.
  rewrite (Qfloor_comp _ _ Hxy).
  replace ((x - inject_Z (Qfloor y) ?= 1 # 2)%Q)
    with ((y - inject_Z (Qfloor y) ?= 1 # 2)%Q); [done|].
  apply Qcompare_comp; [|done]. by rewrite Hxy.
Qed.

Lemma np_round_same_distance (a b : option Q) :
  same_distance a b -> np_round a = np_round b.
Proof.
  destruct a as [x|], b as [y|]; simpl; try done.
  intros H. f_equal. by apply round_half_even_Qeq.
Qed.

(** Two buffers with the same minimum and the same maximum are refused. *)
Lemma duplicate_buffers_rejected (mins maxs : list (option Q)) (i j : nat)
      (mn mx mn' mx' : option Q) :
  i <> j ->
  mins !! i = Some mn -> maxs !! i = Some mx ->
  mins !! j = Some mn' -> maxs !! j = Some mx' ->
  same_distance mn mn' -> same_distance mx mx' ->
  raises (_check_distance_buffers mins maxs).
Proof.
  intros Hij Hmi Hxi Hmj Hxj Hmn Hmx.
  destruct (_check_distance_buffers mins maxs) as [[]|e] eqn:Hcheck;
    [|by exists e].
  exfalso.
  pose proof Hcheck as (_ & Hlen & _)%check_distance_buffers_iff.
  unfold _check_distance_buffers in Hcheck.
  apply rbind_Ok in Hcheck as (_ & _ & Hcheck).
  apply rbind_Ok in Hcheck as (_ & _ & Hcheck).
  apply check_sorted_None_NoDup in Hcheck.
  rewrite (sorted_rounded_perm mins maxs Hlen) in Hcheck.
  apply Hij.
  eapply (NoDup_lookup _ i j (np_round mn, np_round mx)); [exact Hcheck| |].
  - by rewrite lookup_zip_with, !list_lookup_fmap, Hmi, Hxi.
  - rewrite lookup_zip_with, !list_lookup_fmap, Hmj, Hxj. simpl.
    by rewrite (np_round_same_distance _ _ Hmn),
               (np_round_same_distance _ _ Hmx).
Qed.

Lemma insert_sorted_last (key : nat -> option Q) (i : nat) (l : list nat) :
  Forall (fun j => sorts_before (key j) (key i) = true) l ->
  insert_sorted key i l = l ++ [i].
Proof.
  induction 1 as [|j l Hj _ IH]; simpl; [done|].
  by rewrite Hj, IH.
Qed.

(** On an array that is already ascending [argsort] is the identity. *)
Lemma argsort_ascending (xs : list (option Q)) :
  (forall i j a b, i < j -> xs !! i = Some a -> xs !! j = Some b ->
                   sorts_before a b = true) ->
  argsort xs = seq 0 (length xs).
Proof.
  intros Hasc. unfold argsort.
  set (f := fun acc i =>
              insert_sorted (fun k => default None (xs !! k)) i acc).
  enough (forall m k, k + m <= length xs ->
                      fold_left f (seq k m) (seq 0 k) = seq 0 (k + m)) as H.
  { apply (H (length xs) 0). lia. }
  induction m as [|m IH]; intros k Hk; simpl.
  - by rewrite Nat.add_0_r.
  - unfold f at 2. rewrite insert_sorted_last.
    + rewrite <- seq_S, IH by lia. f_equal. lia.
    + apply Forall_forall. intros j Hj%elem_of_seq.
      destruct (lookup_lt_is_Some_2 xs j) as [a Ha]; [lia|].
      destruct (lookup_lt_is_Some_2 xs k) as [b Hb]; [lia|].
      rewrite Ha, Hb. simpl. eapply Hasc; [|done..]. lia.
Qed.

End BufferFacts.

(** ** The validation of distance buffers: what the specification says *)

Section BufferSpec.
Import Rounding Buffers.

(** C1 (as amended).  [_check_distance_buffers] sorts the pairs by maximum
    distance and rounds them to the metre.  It returns normally exactly when
    every minimum is NaN or not negative, the two arrays have one length,
    every rounded buffer has its maximum above its minimum (not negative
    when the minimum is NaN), and every buffer's minimum is the maximum of
    the one before it.  So it raises for every pair that does not abut and
    for every two buffers with the same minimum and maximum, and it accepts
    every ascending chain whose rounded buffers are valid and abut. *)
Theorem check_distance_buffers_spec (mins maxs : list (option Q)) :
  (_check_distance_buffers mins maxs = Ok tt <->
   Forall non_negative_or_nan mins /\ length maxs = length mins /\
   Forall valid_buffer (sorted_rounded mins maxs) /\
   abutting (sorted_rounded mins maxs)) /\
  (forall i j mn mx mn' mx',
      i <> j ->
      mins !! i = Some mn -> maxs !! i = Some mx ->
      mins !! j = Some mn' -> maxs !! j = Some mx' ->
      same_distance mn mn' -> same_distance mx mx' ->
      raises (_check_distance_buffers mins maxs)) /\
  (Forall non_negative_or_nan mins -> length maxs = length mins ->
   (forall i j a b, i < j -> maxs !! i = Some a -> maxs !! j = Some b ->
                    sorts_before a b = true) ->
   Forall valid_buffer (zip (np_round <$> mins) (np_round <$> maxs)) ->
   abutting (zip (np_round <$> mins) (np_round <$> maxs)) ->
   _check_distance_buffers mins maxs = Ok tt).
Proof.
  split; [apply check_distance_buffers_iff|]. split.
  - intros i j mn mx mn' mx'. apply duplicate_buffers_rejected.
  - intros Hmins Hlen Hasc Hvalid Habut.
    apply check_distance_buffers_iff.
    assert (sorted_rounded mins maxs =
              zip (np_round <$> mins) (np_round <$> maxs)) as ->.
    { rewrite sorted_rounded_alt, zip_rounded_alt by done.
      by rewrite argsort_ascending. }
    done.
Qed.

Lemma check_distance_buffers_spec_witness :
  raises (_check_distance_buffers [Some 0%Q; Some 0%Q]
                                  [Some 5%Q; Some (10 # 2)]) /\
  _check_distance_buffers [None; Some 5%Q; Some 10%Q]
                          [Some 5%Q; Some 10%Q; Some 15%Q] = Ok tt.
Proof.
  split.
  - apply (proj1 (proj2 (check_distance_buffers_spec
                           [Some 0%Q; Some 0%Q] [Some 5%Q; Some (10 # 2)]))
             0 1 (Some 0%Q) (Some 5%Q) (Some 0%Q) (Some (10 # 2)));
      try reflexivity.
    lia.
  - apply (proj2 (proj2 (check_distance_buffers_spec
                           [None; Some 5%Q; Some 10%Q]
                           [Some 5%Q; Some 10%Q; Some 15%Q]))).
    + repeat (apply Forall_cons; split); try apply Forall_nil; simpl;
        try done; by apply Qle_bool_iff.
    + reflexivity.
    + intros [|[|[|i]]] [|[|[|j]]] a b Hij Ha Hb; simpl in *;
        try lia; try discriminate; by simplify_eq.
    + repeat (apply Forall_cons; split); try apply Forall_nil; by cbv.
    + repeat constructor.
Defined.

(** The specification says that validation succeeds for every chain in which each
    minimum is the maximum before it.  The chain (0 m, 0.25 m), (0.25 m, 5 m)
    is such a chain, with every maximum above its minimum; after rounding
    its first buffer is (0, 0), and validation raises. *)
Lemma abutting_chain_refused :
  ([Some 0%Q; Some (1 # 4)] : list (option Q)) !! 1 =
    ([Some (1 # 4); Some 5%Q] : list (option Q)) !! 0 /\
  (0 < 1 # 4)%Q /\ (1 # 4 < 5)%Q /\
  abutting (sorted_rounded [Some 0%Q; Some (1 # 4)] [Some (1 # 4); Some 5%Q]) /\
  NoDup (sorted_rounded [Some 0%Q; Some (1 # 4)] [Some (1 # 4); Some 5%Q]) /\
  _check_distance_buffers [Some 0%Q; Some (1 # 4)] [Some (1 # 4); Some 5%Q]
    = Raise ValueError.
Proof.
  split; [reflexivity|]. split; [reflexivity|]. split; [reflexivity|].
  split; [|split; [|reflexivity]].
  - vm_compute. repeat constructor.
  - vm_compute. apply NoDup_cons.
    split; [intros H%list_elem_of_singleton; discriminate|].
    apply NoDup_singleton.
Qed.

End BufferSpec.

(** ** The lead times *)

Section LeadTimeFacts.
Import Rounding LeadTimes.

Lemma inject_Z_nonzero (z : Z) : z <> 0%Z -> ~ (inject_Z z == 0)%Q.
Proof. intros Hz H. apply Hz. unfold Qeq in H. simpl in H. lia. Qed.

Lemma round_half_even_integer (q : Q) (z : Z) :
  (q == inject_Z z)%Q -> round_half_even q = z.
Proof.
  intros H. rewrite (round_half_even_Qeq _ _ H). unfold round_half_even.
  rewrite Qfloor_Z.
  assert (inject_Z z - inject_Z z == 0)%Q as E by ring.
  by rewrite (Qcompare_comp _ _ E _ _ (Qeq_refl (1 # 2))).
Qed.

Lemma truncate_integer (q : Q) (z : Z) :
  (q == inject_Z z)%Q -> truncate q = z.
Proof.
  intros H. unfold truncate. destruct (Qle_bool 0 q).
  - by rewrite (Qfloor_comp _ _ H), Qfloor_Z.
  - by rewrite (Qceiling_comp _ _ H), Qceiling_Z.
Qed.

Lemma exact_quotient (n d : Z) :
  d <> 0%Z -> (inject_Z (n * d) / inject_Z d == inject_Z n)%Q.
Proof.
  intros Hd. rewrite inject_Z_mult. by apply Qdiv_mult_l, inject_Z_nonzero.
Qed.

(** [linspace] between two integers whose distance is a multiple of the
    number of intervals steps by the exact quotient. *)
Lemma linspace_exact (start step : Z) (n : nat) :
  n <> 0 ->
  linspace start (start + Z.of_nat n * step) (Z.of_nat n + 1) =
    Ok (map (fun k : nat => (start + Z.of_nat k * step)%Z) (seq 0 (S n))).
Proof.
  intros Hn. unfold linspace.
  destruct (Z.ltb_spec (Z.of_nat n + 1) 0); [lia|].
  destruct (Z.eqb_spec (Z.of_nat n + 1) 1); [lia|].
  f_equal. replace (Z.to_nat (Z.of_nat n + 1)) with (S n) by lia.
  apply map_ext_in. intros k Hk%in_seq.
  destruct (Z.eqb_spec (Z.of_nat k) (Z.of_nat n + 1 - 1)) as [Heq|Hne].
  - replace k with n by lia. done.
  - apply truncate_integer.
    replace (start + Z.of_nat n * step - start)%Z
      with (step * Z.of_nat n)%Z by lia.
    replace (Z.of_nat n + 1 - 1)%Z with (Z.of_nat n) by lia.
    rewrite (exact_quotient step (Z.of_nat n)) by lia.
    rewrite inject_Z_plus, inject_Z_mult. reflexivity.
Qed.




End LeadTimeFacts.

(** ** The translation of grid membership *)

Section TranslationFacts.
Import Numpy Rounding Rasterizer Forecast.

Lemma mapM_returns {A B} (f : A -> result B) (l : list A) :
  Forall (fun a => returns (f a)) l -> returns (mapM f l).
Proof.
  induction 1 as [|a l [b Hb] _ [bs IH]]; simpl.
  - by eexists.
  - rewrite Hb, IH. simpl. by eexists.
Qed.

Lemma mapM_seq_lookup {B} (f : nat -> result B) (n : nat) (l : list B)
      (k : nat) :
  mapM f (seq 0 n) = Ok l -> k < n ->
  exists b, l !! k = Some b /\ f k = Ok b.
Proof.
  intros H%mapM_Forall2 Hk.
  destruct (Forall2_lookup_l _ _ _ k k H) as (b & Hb & Hf).
  - by apply lookup_seq_lt.
  - by exists b.
Qed.

Lemma values_Ok {A} (table : list (list A)) (i j : nat) (a : A) :
  values table i j = Ok a <->
  exists row, table !! i = Some row /\ row !! j = Some a.
Proof.
  unfold values, cell.
  destruct (table !! i) as [row|]; simpl.
  - destruct (row !! j) as [a'|] eqn:Hj; split.
    + intros [= <-]. by exists row.
    + intros (row' & [= <-] & Ha). congruence.
    + done.
    + intros (row' & [= <-] & Ha). congruence.
  - split; [done | by intros (? & ? & _)].
Qed.

Lemma int_round_quotient_Ok (diff spacing : Q) :
  ~ (spacing == 0)%Q ->
  int_round_quotient diff spacing = Ok (round_half_even (diff / spacing)).
Proof.
  intros H. unfold int_round_quotient.
  destruct (Qeq_bool spacing 0) eqn:E; [|done].
  by apply Qeq_bool_iff in E.
Qed.


End TranslationFacts.

Section TranslationScenario.
Import Numpy Rounding Rasterizer Forecast Scenario.


End TranslationScenario.

(** ** The rasterizer *)

Section RasterizerFacts.
Import Numpy Rasterizer.

Lemma norm_index_raise (n : nat) (i : Z) (e : exn) :
  norm_index n i = Raise e -> e = IndexError.
Proof. unfold norm_index. intros H. repeat case_match; by simplify_eq. Qed.

Lemma getitem_raise {A} (a : list A) (i : Z) (e : exn) :
  getitem a i = Raise e -> e = IndexError.
Proof.
  unfold getitem. destruct (norm_index (length a) i) as [k|e'] eqn:Hk; simpl.
  - destruct (a !! k); [done | by intros [= <-]].
  - intros [= <-]. by eapply norm_index_raise.
Qed.

(** Reading one past the end: what [searchsorted] returns when the test
    value is above the whole array. *)
Lemma getitem_length {A} (a : list A) :
  getitem a (Z.of_nat (length a)) = Raise IndexError.
Proof.
  unfold getitem, norm_index.
  destruct (Z.leb_spec 0 (Z.of_nat (length a))); [|lia].
  destruct (Z.ltb_spec (Z.of_nat (length a)) (Z.of_nat (length a))); [lia|].
  simpl.
  destruct (Z.leb_spec (- Z.of_nat (length a)) (Z.of_nat (length a)));
    destruct (Z.ltb_spec (Z.of_nat (length a)) 0); simpl; (done || lia).
Qed.

Lemma searchsorted_left_above (a : list Q) (v : Q) :
  Forall (fun x => (x < v)%Q) a -> searchsorted_left a v = length a.
Proof.
  induction 1 as [|x a Hx _ IH]; simpl; [done|].
  destruct (Qle_bool v x) eqn:E; [|by rewrite IH].
  apply Qle_bool_iff in E. exfalso. by eapply Qlt_not_le.
Qed.

Lemma find_min_value_above (a : list Q) (v : Q) :
  Forall (fun x => (x < v)%Q) a ->
  _find_min_value_greater_or_equal a v = Raise IndexError.
Proof.
  intros H. unfold _find_min_value_greater_or_equal.
  by rewrite searchsorted_left_above, getitem_length.
Qed.

Lemma find_min_value_raise (a : list Q) (v : Q) (e : exn) :
  _find_min_value_greater_or_equal a v = Raise e -> e = IndexError.
Proof.
  unfold _find_min_value_greater_or_equal.
  destruct (getitem a _) eqn:E; simpl; [done|].
  intros [= <-]. by eapply getitem_raise.
Qed.

Lemma find_max_value_raise (a : list Q) (v : Q) (e : exn) :
  _find_max_value_less_than_or_equal a v = Raise e -> e = IndexError.
Proof.
  unfold _find_max_value_less_than_or_equal.
  destruct (getitem a _) eqn:E; simpl; [done|].
  intros [= <-]. by eapply getitem_raise.
Qed.

Variable point_in_or_on_polygon : polygon -> Q -> Q -> bool.

(** A polygon that lies beyond the last row of the grid: the search for the
    first row to test runs off the array. *)
Lemma polygon_above_grid_raises (p : polygon) (xs ys : list Q) :
  Forall (fun y => (y < min_y p)%Q) ys ->
  _find_grid_points_in_polygon point_in_or_on_polygon p xs ys
    = Raise IndexError.
Proof.
  intros H. unfold _find_grid_points_in_polygon.
  by rewrite find_min_value_above.
Qed.

(** The same beyond the last column. *)
Lemma polygon_right_of_grid_raises (p : polygon) (xs ys : list Q) :
  Forall (fun x => (x < min_x p)%Q) xs ->
  _find_grid_points_in_polygon point_in_or_on_polygon p xs ys
    = Raise IndexError.
Proof.
  intros H. unfold _find_grid_points_in_polygon.
  destruct (_find_min_value_greater_or_equal ys (min_y p))
    as [[? ?]|e] eqn:E1; simpl;
    [|by rewrite (find_min_value_raise _ _ _ E1)].
  destruct (_find_max_value_less_than_or_equal ys (max_y p))
    as [[? ?]|e] eqn:E2; simpl;
    [|by rewrite (find_max_value_raise _ _ _ E2)].
  by rewrite find_min_value_above.
Qed.

End RasterizerFacts.

Section RasterizerScenario.
Import Numpy Rasterizer Scenario.

(** C4.  On the grid 0, 1000, 2000 m in both directions, a rectangle to the
    left of the grid or below it rasterizes to two empty arrays, as the
    specification says; a rectangle to the right of the grid or above it makes
    [_find_min_value_greater_or_equal] read [sorted_input_array[3]] and the
    rasterizer raises [IndexError]. *)
Theorem polygon_beyond_last_grid_point_raises :
  _find_grid_points_in_polygon in_bounding_box
    (rectangle (-5000) 0 (-4000) 1000) grid_points grid_points
    = Ok ([], []) /\
  _find_grid_points_in_polygon in_bounding_box
    (rectangle 0 (-5000) 1000 (-4000)) grid_points grid_points
    = Ok ([], []) /\
  _find_grid_points_in_polygon in_bounding_box
    (rectangle 5000 0 6000 1000) grid_points grid_points
    = Raise IndexError /\
  _find_grid_points_in_polygon in_bounding_box
    (rectangle 0 5000 1000 6000) grid_points grid_points
    = Raise IndexError.
Proof.
  split; [reflexivity|]. split; [reflexivity|]. split.
  - apply polygon_right_of_grid_raises.
    repeat (apply Forall_cons; split); try apply Forall_nil; reflexivity.
  - apply polygon_above_grid_raises.
    repeat (apply Forall_cons; split); try apply Forall_nil; reflexivity.
Qed.

End RasterizerScenario.

(** ** The loop over initial times *)

Section InitTimeFacts.
Import Numpy Rasterizer Forecast.

(** An invariant indexed by the number of iterations done. *)
Lemma foldM_seq_inv {S} (I : nat -> S -> Prop) (f : S -> nat -> result S)
      (n : nat) (s s' : S) :
  I 0 s ->
  (forall k t t', k < n -> I k t -> f t k = Ok t' -> I (Datatypes.S k) t') ->
  foldM f (seq 0 n) s = Ok s' -> I n s'.
Proof.
  intros H0 Hstep.
  enough (forall m a t t', a + m <= n -> I a t ->
                           foldM f (seq a m) t = Ok t' -> I (a + m) t') as H.
  { intros Hf. apply (H n 0 s s'); [lia | done | done]. }
  induction m as [|m IH]; intros a t t' Ha Hinv Hf; simpl in Hf.
  - injection Hf as <-. by rewrite Nat.add_0_r.
  - apply rbind_Ok in Hf as (t1 & Ht1 & Hf).
    replace (a + Datatypes.S m) with (Datatypes.S a + m) by lia.
    apply (IH (Datatypes.S a) t1 t'); [lia| |done].
    apply (Hstep a t t1); [lia | done | done].
Qed.

Variable _extrapolate_polygons : storm_object_table -> Z -> list (list polygon).
Variable point_in_or_on_polygon : polygon -> Q -> Q -> bool.
Variables apply_gaussian apply_cressman : matrix float -> matrix float.
Variable _interp_probabilities_to_latlng_grid :
  matrix float -> list Q -> list Q -> matrix float * list Q * list Q.
Variable storm_objects_at : nat -> storm_object_table.
Variables grid_point_x_coords_metres grid_point_y_coords_metres : list Q.
Variables grid_spacing_x_metres grid_spacing_y_metres : Q.

Local Abbreviation xy_field :=
  (xy_field_for_init_time _extrapolate_polygons point_in_or_on_polygon
     apply_gaussian apply_cressman storm_objects_at
     grid_point_x_coords_metres grid_point_y_coords_metres
     grid_spacing_x_metres grid_spacing_y_metres).
Local Abbreviation interp m :=
  (_interp_probabilities_to_latlng_grid m grid_point_x_coords_metres
     grid_point_y_coords_metres).
Local Abbreviation step :=
  (init_time_step _extrapolate_polygons point_in_or_on_polygon
     apply_gaussian apply_cressman _interp_probabilities_to_latlng_grid
     storm_objects_at grid_point_x_coords_metres grid_point_y_coords_metres
     grid_spacing_x_metres grid_spacing_y_metres).

Local Abbreviation latlng_invariant :=
  (latlng_invariant _extrapolate_polygons point_in_or_on_polygon
     apply_gaussian apply_cressman _interp_probabilities_to_latlng_grid
     storm_objects_at grid_point_x_coords_metres grid_point_y_coords_metres
     grid_spacing_x_metres grid_spacing_y_metres).

Lemma init_time_step_invariant (lead_times : list Z)
      (smoothing_method : option smoothing) (n k : nat)
      (d d' : gridded_forecast_dict) :
  k < n ->
  latlng_invariant lead_times smoothing_method n k d ->
  step lead_times smoothing_method true d k = Ok d' ->
  latlng_invariant lead_times smoothing_method n (S k) d'.
Proof.
  intros Hk [(matrices & Hlat & Hlen & Hprev) Hcoords] Hstep.
  unfold init_time_step in Hstep.
  apply rbind_Ok in Hstep as (m & Hm & Hstep). simpl in Hstep.
  destruct (interp m) as [[ml lats] lngs] eqn:Hinterp.
  rewrite Hlat in Hstep.
  assert (forall i, i < S k ->
            exists m', xy_field lead_times smoothing_method i = Ok m' /\
                       <[k := Some ml]> matrices !! i =
                         Some (Some (interp m').1.1)) as Hnew.
  { intros i Hi. destruct (decide (i = k)) as [-> | Hne].
    - exists m. split; [done|].
      rewrite list_lookup_insert_eq by lia. by rewrite Hinterp.
    - destruct (Hprev i) as (m' & Hm' & Hi'); [lia|].
      exists m'. split; [done|]. by rewrite list_lookup_insert_ne. }
  case_decide as Hzero; injection Hstep as <-; simpl.
  - split.
    + exists (<[k := Some ml]> matrices).
      split; [done|]. split; [by rewrite length_insert | done].
    + intros _. apply Hcoords. lia.
  - assert (k = 0) as -> by lia. split.
    + exists (<[0 := Some ml]> matrices).
      split; [done|]. split; [by rewrite length_insert | done].
    + intros _. exists m. rewrite Hinterp. by repeat split.
Qed.

(** C10.  With interpolation to a lat-long grid and at least one initial
    time, a run that returns stores, for every initial time, the lat-long
    matrix interpolated from that time's x-y field, and as the geographic
    coordinate vectors those that came with the interpolation of the first
    initial time; the vectors computed for the later times are dropped. *)
Theorem latlng_coordinates_of_first_init_time
        (min_buffer_distances_metres max_buffer_distances_metres
           : list (option Q))
        (init_times : list Z)
        (min_lead_time_sec max_lead_time_sec lead_time_resolution_sec : Z)
        (prob_radius_for_grid_metres : Q)
        (smoothing_method : option smoothing)
        (d : gridded_forecast_dict) :
  create_forecast_grids _extrapolate_polygons point_in_or_on_polygon
    apply_gaussian apply_cressman _interp_probabilities_to_latlng_grid
    storm_objects_at grid_point_x_coords_metres grid_point_y_coords_metres
    grid_spacing_x_metres grid_spacing_y_metres
    min_buffer_distances_metres max_buffer_distances_metres init_times
    min_lead_time_sec max_lead_time_sec lead_time_resolution_sec true
    prob_radius_for_grid_metres smoothing_method = Ok d ->
  init_times <> [] ->
  exists lead_times,
    LeadTimes.lead_times_seconds min_lead_time_sec max_lead_time_sec
      lead_time_resolution_sec = Ok lead_times /\
    (exists m0,
        xy_field lead_times smoothing_method 0 = Ok m0 /\
        grid_latitudes_deg d = Some (interp m0).1.2 /\
        grid_longitudes_deg d = Some (interp m0).2) /\
    exists matrices,
      latlng_probabilities d = Some matrices /\
      length matrices = length init_times /\
      forall i, i < length init_times ->
        exists m, xy_field lead_times smoothing_method i = Ok m /\
                  matrices !! i = Some (Some (interp m).1.1).
Proof.
  intros Hrun Hne. unfold create_forecast_grids in Hrun.
  apply rbind_Ok in Hrun as (lead_times & Hlead & Hrun).
  apply rbind_Ok in Hrun as (_ & _ & Hrun).
  apply rbind_Ok in Hrun as (_ & _ & Hrun).
  apply rbind_Ok in Hrun as (_ & _ & Hrun).
  exists lead_times. split; [done|].
  apply (foldM_seq_inv
           (latlng_invariant lead_times smoothing_method (length init_times)))
    in Hrun.
  - destruct Hrun as [Hmatrices Hcoords]. split; [|done].
    apply Hcoords. destruct init_times; [done | simpl; lia].
  - split; [|lia]. simpl. eexists. split; [done|].
    split; [by rewrite length_replicate | lia].
  - intros k t t' Hk. apply init_time_step_invariant. done.
Qed.

End InitTimeFacts.

(** ** The area normalisation *)

Section NormalizationFacts.
Import Normalization.
Local Open Scope R_scope.

Lemma power_one (x : R) : 0 <= x -> power x 1 = x.
Proof.
  intros Hx. unfold power. destruct (Req_dec_T x 0) as [-> | Hne].
  - destruct (Req_dec_T 1 0); [lra | done].
  - apply Rpower_1. lra.
Qed.

Lemma power_bounds (x y : R) :
  0 <= x <= 1 -> 0 < y -> 0 <= power x y <= 1.
Proof.
  intros [Hx0 Hx1] Hy. unfold power.
  destruct (Req_dec_T x 0) as [-> | Hne].
  - destruct (Req_dec_T y 0); lra.
  - assert (0 < x) as Hpos by lra. unfold Rpower. split.
    + left. apply exp_pos.
    + rewrite <- exp_0. 
      destruct (Rle_lt_or_eq_dec _ _ Hx1) as [Hlt | ->].
      * left. apply exp_increasing.
        assert (ln x < 0) by (rewrite <- ln_1; by apply ln_increasing).
        rewrite <- (Rmult_0_r y). by apply Rmult_lt_compat_l.
      * rewrite ln_1, Rmult_0_r. lra.
Qed.

Lemma normalized_probability_bounds (p a r : R) :
  0 <= p <= 1 -> 0 < a -> 0 < r ->
  0 <= normalized_probability p a r <= 1.
Proof.
  intros Hp Ha Hr. unfold normalized_probability.
  assert (0 < PI * r ^ 2 / a) as Hexp.
  { apply Rdiv_lt_0_compat; [|done].
    apply Rmult_lt_0_compat; [apply PI_RGT_0 | by apply pow_lt]. }
  pose proof (power_bounds (1 - p) (PI * r ^ 2 / a) ltac:(lra) Hexp). lra.
Qed.

Lemma normalized_probability_same_area (p r : R) :
  0 <= p <= 1 -> 0 < r ->
  normalized_probability p (PI * r ^ 2) r = p.
Proof.
  intros Hp Hr. unfold normalized_probability.
  assert (PI * r ^ 2 <> 0) as Hne.
  { apply Rgt_not_eq, Rmult_lt_0_compat; [apply PI_RGT_0 | by apply pow_lt]. }
  replace (PI * r ^ 2 / (PI * r ^ 2)) with 1
    by (field; pose proof PI_RGT_0; lra).
  rewrite power_one by lra. lra.
Qed.





End NormalizationFacts.

Section InitTimeScenario.
Import Numpy Rasterizer Forecast Scenario.

Lemma latlng_coordinates_of_first_init_time_witness :
  exists d,
    create_forecast_grids (moving 0 0) in_bounding_box no_smoother
      no_smoother plate_carree storms_by_init_time grid_points grid_points
      1000 1000 [Some 0%Q] [Some 5000%Q] [0%Z; 300%Z] 0 120 60 true 10000
      None = Ok d /\
    grid_latitudes_deg d = Some grid_points /\
    grid_longitudes_deg d = Some grid_points.
Proof.
  destruct (create_forecast_grids (moving 0 0) in_bounding_box no_smoother
              no_smoother plate_carree storms_by_init_time grid_points
              grid_points 1000 1000 [Some 0%Q] [Some 5000%Q] [0%Z; 300%Z]
              0 120 60 true 10000 None) as [d|e] eqn:Hrun;
    [|vm_compute in Hrun; discriminate Hrun].
  exists d. split; [reflexivity|].
  destruct (latlng_coordinates_of_first_init_time _ _ _ _ _ _ _ _ _ _ _ _ _
              _ _ _ _ _ _ Hrun ltac:(discriminate))
    as (lead_times & _ & (m0 & _ & Hlat & Hlng) & _).
  split; [exact Hlat | exact Hlng].
Defined.

End InitTimeScenario.

(** ** More about the two searches of the rasterizer *)

Section SearchFacts.
Import Numpy Rasterizer.

Lemma getitem_nat {A} (a : list A) (k : nat) :
  getitem a (Z.of_nat k) =
    match a !! k with
    | Some x => Ok x
    | None => Raise IndexError
    end.
Proof.
  unfold getitem, norm_index.
  destruct (Z.leb_spec 0 (Z.of_nat k)); [|lia].
  destruct (Z.ltb_spec (Z.of_nat k) (Z.of_nat (length a))); simpl.
  - by rewrite Nat2Z.id.
  - destruct (Z.ltb_spec (Z.of_nat k) 0); [lia|].
    rewrite andb_false_r. simpl.
    by rewrite lookup_ge_None_2 by lia.
Qed.

(** [a[-1]] is the last element. *)
Lemma getitem_minus_one {A} (a : list A) :
  getitem a (-1) =
    match last a with
    | Some x => Ok x
    | None => Raise IndexError
    end.
Proof.
  rewrite last_lookup. unfold getitem, norm_index.
  destruct (Z.leb_spec 0 (-1)); [lia|]. rewrite andb_false_l.
  destruct (Z.ltb_spec (-1) 0); [|lia]. rewrite andb_true_r.
  destruct (Z.leb_spec (- Z.of_nat (length a)) (-1)); simpl.
  - replace (Z.to_nat (-1 + Z.of_nat (length a))) with (pred (length a))
      by lia. done.
  - assert (length a = 0) as Hlen by lia.
    apply length_zero_iff_nil in Hlen as ->. done.
Qed.

Lemma sorted_lookup_le (a : list Q) (i j : nat) (x y : Q) :
  StronglySorted Qle a -> i <= j ->
  a !! i = Some x -> a !! j = Some y -> (x <= y)%Q.
Proof.
  intros Hs. revert i j. induction Hs as [|z a Hs IH Hz]; intros i j Hij Hi Hj.
  - done.
  - destruct i as [|i], j as [|j]; simpl in *; simplify_eq.
    + apply Qle_refl.
    + rewrite Forall_forall in Hz. apply Hz.
      by eapply list_elem_of_lookup_2.
    + lia.
    + eapply (IH i j); [lia | done | done].
Qed.

Lemma searchsorted_left_le (a : list Q) (v : Q) :
  searchsorted_left a v <= length a.
Proof.
  induction a as [|x a IH]; simpl; [done|].
  destruct (Qle_bool v x); lia.
Qed.

Lemma searchsorted_left_before (a : list Q) (v : Q) (i : nat) (x : Q) :
  i < searchsorted_left a v -> a !! i = Some x -> (x < v)%Q.
Proof.
  revert i. induction a as [|z a IH]; intros i Hi Hx; simpl in *; [lia|].
  destruct (Qle_bool v z) eqn:E; [lia|].
  destruct i as [|i]; simpl in Hx.
  - injection Hx as <-. apply Qnot_le_lt. intros Hle.
    apply Qle_bool_iff in Hle. congruence.
  - apply (IH i); [lia | done].
Qed.

Lemma searchsorted_left_at (a : list Q) (v x : Q) :
  a !! searchsorted_left a v = Some x -> (v <= x)%Q.
Proof.
  induction a as [|z a IH]; simpl; [done|].
  destruct (Qle_bool v z) eqn:E; simpl.
  - intros [= <-]. by apply Qle_bool_iff.
  - exact IH.
Qed.

Lemma searchsorted_right_le (a : list Q) (v : Q) :
  searchsorted_right a v <= length a.
Proof.
  induction a as [|x a IH]; simpl; [done|].
  destruct (Qle_bool x v); lia.
Qed.

Lemma searchsorted_right_before (a : list Q) (v : Q) (i : nat) (x : Q) :
  i < searchsorted_right a v -> a !! i = Some x -> (x <= v)%Q.
Proof.
  revert i. induction a as [|z a IH]; intros i Hi Hx; simpl in *; [lia|].
  destruct (Qle_bool z v) eqn:E; [|lia].
  destruct i as [|i]; simpl in Hx.
  - injection Hx as <-. by apply Qle_bool_iff.
  - apply (IH i); [lia | done].
Qed.

Lemma searchsorted_right_at (a : list Q) (v x : Q) :
  a !! searchsorted_right a v = Some x -> (v < x)%Q.
Proof.
  induction a as [|z a IH]; simpl; [done|].
  destruct (Qle_bool z v) eqn:E; simpl.
  - exact IH.
  - intros [= <-]. apply Qnot_le_lt. intros Hle.
    apply Qle_bool_iff in Hle. congruence.
Qed.

Lemma find_min_value_sorted (a : list Q) (v : Q) :
  StronglySorted Qle a ->
  match _find_min_value_greater_or_equal a v with
  | Ok (x, i) =>
      exists k, i = Z.of_nat k /\ a !! k = Some x /\ (v <= x)%Q /\
                forall j y, a !! j = Some y -> (v <= y)%Q ->
                            k <= j /\ (x <= y)%Q
  | Raise e => e = IndexError /\ Forall (fun y => (y < v)%Q) a
  end.
Proof.
  intros Hs. unfold _find_min_value_greater_or_equal.
  rewrite getitem_nat.
  destruct (a !! searchsorted_left a v) as [x|] eqn:Hx; simpl.
  - exists (searchsorted_left a v). split; [done|]. split; [done|].
    split; [by eapply searchsorted_left_at|].
    intros j y Hy Hvy.
    assert (searchsorted_left a v <= j) as Hle.
    { destruct (decide (searchsorted_left a v <= j)); [done|].
      exfalso. apply (Qlt_not_le y v); [|done].
      eapply searchsorted_left_before; [|done]. lia. }
    split; [done|]. by eapply sorted_lookup_le.
  - split; [done|]. apply Forall_forall. intros y Hy.
    apply list_elem_of_lookup_1 in Hy as [j Hj].
    eapply searchsorted_left_before; [|done].
    apply lookup_ge_None_1 in Hx. apply lookup_lt_Some in Hj. lia.
Qed.

(** X1.  [_find_min_value_greater_or_equal] on an ascending array: it returns
    the first index whose element is at least the test value, with that
    element, which is the least such element; it raises [IndexError] exactly
    when every element is below the test value. *)
Theorem find_min_value_is_least (a : list Q) (v : Q) :
  StronglySorted Qle a ->
  match _find_min_value_greater_or_equal a v with
  | Ok (x, i) =>
      exists k, i = Z.of_nat k /\ a !! k = Some x /\ (v <= x)%Q /\
                forall j y, a !! j = Some y -> (v <= y)%Q ->
                            k <= j /\ (x <= y)%Q
  | Raise e => e = IndexError /\ Forall (fun y => (y < v)%Q) a
  end.
Proof. apply find_min_value_sorted. Qed.

Lemma find_min_value_is_least_witness :
  exists k, 1%Z = Z.of_nat k /\
            ([0; 1000; 2000]%Q : list Q) !! k = Some 1000%Q /\
            (500 <= 1000)%Q.
Proof.
  assert (StronglySorted Qle [0; 1000; 2000]%Q) as Hs.
  { repeat constructor; by apply Qle_bool_iff. }
  pose proof (find_min_value_is_least [0; 1000; 2000]%Q 500%Q Hs) as H.
  simpl in H. destruct H as (k & Hk & Hx & Hv & _).
  exists k. by repeat split.
Defined.

Lemma find_max_value_sorted (a : list Q) (v : Q) :
  StronglySorted Qle a ->
  match _find_max_value_less_than_or_equal a v with
  | Ok (x, i) =>
      (exists k, i = Z.of_nat k /\ a !! k = Some x /\ (x <= v)%Q /\
                 forall j y, a !! j = Some y -> (y <= v)%Q ->
                             j <= k /\ (y <= x)%Q) \/
      (i = (-1)%Z /\ Forall (fun y => (v < y)%Q) a /\ last a = Some x)
  | Raise e => e = IndexError /\ a = []
  end.
Proof.
  intros Hs. unfold _find_max_value_less_than_or_equal.
  destruct (searchsorted_right a v) as [|k] eqn:Hk.
  - (* nothing is at most [v] *)
    assert (Forall (fun y => (v < y)%Q) a) as Habove.
    { apply Forall_forall. intros y Hy.
      apply list_elem_of_lookup_1 in Hy as [j Hj].
      destruct (a !! 0) as [z|] eqn:Hz.
      - eapply Qlt_le_trans.
        + apply (searchsorted_right_at a v z). by rewrite Hk.
        + eapply (sorted_lookup_le a 0 j); [done | lia | done | done].
      - apply lookup_ge_None_1 in Hz. apply lookup_lt_Some in Hj. lia. }
    replace (-1 + Z.of_nat 0)%Z with (-1)%Z by lia.
    rewrite getitem_minus_one.
    destruct (last a) as [x|] eqn:Hlast; simpl.
    + right. by repeat split.
    + split; [done|]. by apply last_None.
  - replace (-1 + Z.of_nat (S k))%Z with (Z.of_nat k) by lia.
    rewrite getitem_nat.
    pose proof (searchsorted_right_le a v) as Hlen.
    destruct (lookup_lt_is_Some_2 a k) as [x Hx]; [lia|].
    rewrite Hx. simpl. left. exists k. split; [done|]. split; [done|].
    split; [eapply (searchsorted_right_before a v k); [lia | done]|].
    intros j y Hy Hyv.
    assert (j <= k) as Hle.
    { destruct (decide (j <= k)); [done|]. exfalso.
      destruct (lookup_lt_is_Some_2 a (S k)) as [z Hz].
      { apply lookup_lt_Some in Hy. lia. }
      apply (Qlt_not_le v z).
      - apply (searchsorted_right_at a v z). by rewrite Hk.
      - eapply Qle_trans; [|exact Hyv].
        eapply (sorted_lookup_le a (S k) j); [done | lia | done | done]. }
    split; [done|]. by eapply sorted_lookup_le.
Qed.

(** X2.  [_find_max_value_less_than_or_equal] on an ascending array: when some
    element is at most the test value it returns the last such index with its
    element, the greatest such element. When every element is above the test
    value it does not fail: the index is -1 and the value returned is the last
    element of the array. It raises only on an empty array. *)
Theorem find_max_value_is_greatest (a : list Q) (v : Q) :
  StronglySorted Qle a ->
  match _find_max_value_less_than_or_equal a v with
  | Ok (x, i) =>
      (exists k, i = Z.of_nat k /\ a !! k = Some x /\ (x <= v)%Q /\
                 forall j y, a !! j = Some y -> (y <= v)%Q ->
                             j <= k /\ (y <= x)%Q) \/
      (i = (-1)%Z /\ Forall (fun y => (v < y)%Q) a /\ last a = Some x)
  | Raise e => e = IndexError /\ a = []
  end.
Proof. apply find_max_value_sorted. Qed.

Lemma find_max_value_is_greatest_witness :
  _find_max_value_less_than_or_equal [0; 1000; 2000]%Q (-5)%Q
    = Ok (2000%Q, (-1)%Z) /\
  Forall (fun y => (-5 < y)%Q) [0; 1000; 2000]%Q.
Proof.
  assert (StronglySorted Qle [0; 1000; 2000]%Q) as Hs.
  { repeat constructor; by apply Qle_bool_iff. }
  pose proof (find_max_value_is_greatest [0; 1000; 2000]%Q (-5)%Q Hs) as H.
  simpl in H. destruct H as [(k & Hk & _)|(_ & Habove & _)]; [lia|].
  split; [reflexivity | exact Habove].
Defined.

End SearchFacts.

(** ** More about the rasterizer *)

Section RasterizerSpec.
Import Numpy Rasterizer.

Variable point_in_or_on_polygon : polygon -> Q -> Q -> bool.
Variable p : polygon.
Variables xs ys : list Q.

Lemma elem_of_range (lo hi z : Z) :
  z ∈ range lo hi <-> (lo <= z < hi)%Z.
Proof.
  unfold range. change (map ?f ?l) with (f <$> l).
  rewrite list_elem_of_fmap. split.
  - intros (k & -> & Hk%elem_of_seq). lia.
  - intros Hz. exists (Z.to_nat (z - lo)). split; [lia|].
    apply elem_of_seq. lia.
Qed.

Lemma NoDup_range (lo hi : Z) : NoDup (range lo hi).
Proof.
  unfold range. change (map ?f ?l) with (f <$> l).
  apply NoDup_fmap_2_strong; [|apply NoDup_seq].
  intros j k _ _ H. lia.
Qed.

(** The cell tested at row [rc.1] and column [rc.2] passes. *)
Local Abbreviation passes rc :=
  (exists x y, getitem xs rc.2 = Ok x /\ getitem ys rc.1 = Ok y /\
               point_in_or_on_polygon p x y = true).

Lemma test_row_Ok (r : Z) (cols : list Z) (row : list (bool * (Z * Z))) :
  mapM (fun this_column =>
          let* x := getitem xs this_column in
          let* y := getitem ys r in
          Ok (point_in_or_on_polygon p x y, (r, this_column))) cols
    = Ok row ->
  (forall rc, rc ∈ snd <$> filter (fun t => fst t = true) row <->
              rc.1 = r /\ rc.2 ∈ cols /\ passes rc) /\
  (NoDup cols -> NoDup (snd <$> filter (fun t => fst t = true) row)).
Proof.
  intros H%mapM_Forall2.
  induction H as [|c t cols row Ht _ [IH1 IH2]].
  - split; [|intros _; constructor].
    intros rc. split; [by intros ?%elem_of_nil|].
    by intros (_ & ?%elem_of_nil & _).
  - apply rbind_Ok in Ht as (x & Hx & Ht).
    apply rbind_Ok in Ht as (y & Hy & [= <-]).
    rewrite filter_cons. simpl.
    destruct (point_in_or_on_polygon p x y) eqn:Hflag.
    + rewrite decide_True by done. rewrite fmap_cons. simpl. split.
      * intros rc. rewrite elem_of_cons, IH1, elem_of_cons. split.
        -- intros [->|(? & ? & ?)]; [|by auto]. simpl.
           split; [done|]. split; [by left|]. by exists x, y.
        -- intros (Hr & [Hc|Hc] & Hpass); [|by auto].
           left. destruct rc; simpl in *. by subst.
      * intros [Hc Hnd]%NoDup_cons. apply NoDup_cons. split; [|by auto].
        rewrite IH1. simpl. by intros (_ & ? & _).
    + rewrite decide_False by done. split.
      * intros rc. rewrite IH1, elem_of_cons. split.
        -- intros (? & ? & ?). by auto.
        -- intros (Hr & [Hc|Hc] & Hpass); [|by auto].
           exfalso. destruct Hpass as (x' & y' & Hx' & Hy' & Hf).
           destruct rc; simpl in *. subst. congruence.
      * intros [_ Hnd]%NoDup_cons. by auto.
Qed.

Lemma test_candidates_Ok (rows cols : list Z) (cells : list (Z * Z)) :
  test_candidates point_in_or_on_polygon p xs ys rows cols = Ok cells ->
  (forall rc, rc ∈ cells <-> rc.1 ∈ rows /\ rc.2 ∈ cols /\ passes rc) /\
  (NoDup rows -> NoDup cols -> NoDup cells).
Proof.
  unfold test_candidates. intros H.
  apply rbind_Ok in H as (found & Hfound & [= <-]).
  apply mapM_Forall2 in Hfound.
  induction Hfound as [|r row rows found Hrow _ [IH1 IH2]].
  - split; [|intros _ _; constructor].
    intros rc. split; [by intros ?%elem_of_nil|].
    by intros (?%elem_of_nil & _).
  - apply test_row_Ok in Hrow as [Hrow1 Hrow2].
    simpl. rewrite filter_app, fmap_app. split.
    + intros rc. rewrite elem_of_app, Hrow1, IH1, elem_of_cons.
      split; [intros [(-> & ? & ?)|(? & ? & ?)]; by auto|].
      intros ([->|Hr] & Hc & Hpass); by auto.
    + intros [Hr Hnd]%NoDup_cons Hcols. apply NoDup_app.
      split; [by auto|]. split; [|by auto].
      intros rc (Hrc & _)%Hrow1 (Hin & _)%IH1. congruence.
Qed.

Lemma find_grid_points_returns :
  StronglySorted Qle xs -> StronglySorted Qle ys ->
  returns (_find_grid_points_in_polygon point_in_or_on_polygon p xs ys) <->
  Exists (fun y => (min_y p <= y)%Q) ys /\
  Exists (fun x => (min_x p <= x)%Q) xs.
Proof.
  intros Hxs Hys. unfold _find_grid_points_in_polygon.
  pose proof (find_min_value_sorted ys (min_y p) Hys) as Hrow.
  pose proof (find_min_value_sorted xs (min_x p) Hxs) as Hcol.
  pose proof (find_max_value_sorted ys (max_y p) Hys) as Hrow'.
  pose proof (find_max_value_sorted xs (max_x p) Hxs) as Hcol'.
  destruct (_find_min_value_greater_or_equal ys (min_y p))
    as [[y0 min_row]|e]; simpl.
  2:{ destruct Hrow as [_ Hall]. split; [by intros [? ?]|].
      intros [(y & Hy & Hle)%Exists_exists _]. exfalso.
      rewrite Forall_forall in Hall.
      by apply (Qlt_not_le _ _ (Hall y Hy)). }
  destruct Hrow as (kr & -> & Hkr & Hy0 & _).
  destruct (_find_max_value_less_than_or_equal ys (max_y p))
    as [[y1 max_row]|e]; simpl.
  2:{ destruct Hrow' as [_ ->]. done. }
  destruct (_find_min_value_greater_or_equal xs (min_x p))
    as [[x0 min_col]|e]; simpl.
  2:{ destruct Hcol as [_ Hall]. split; [by intros [? ?]|].
      intros [_ (x & Hx & Hle)%Exists_exists]. exfalso.
      rewrite Forall_forall in Hall.
      by apply (Qlt_not_le _ _ (Hall x Hx)). }
  destruct Hcol as (kc & -> & Hkc & Hx0 & _).
  destruct (_find_max_value_less_than_or_equal xs (max_x p))
    as [[x1 max_col]|e]; simpl.
  2:{ destruct Hcol' as [_ ->]. done. }
  split.
  - intros _. split; apply Exists_exists.
    + exists y0. split; [|done]. by apply (list_elem_of_lookup_2 _ kr).
    + exists x0. split; [|done]. by apply (list_elem_of_lookup_2 _ kc).
  - intros _.
    assert (max_row < Z.of_nat (length ys))%Z as Hmr.
    { destruct Hrow' as [(k & -> & Hk & _)|(-> & _)]; [|lia].
      apply lookup_lt_Some in Hk. lia. }
    assert (max_col < Z.of_nat (length xs))%Z as Hmc.
    { destruct Hcol' as [(k & -> & Hk & _)|(-> & _)]; [|lia].
      apply lookup_lt_Some in Hk. lia. }
    unfold test_candidates.
    match goal with
    | |- returns (rbind (rbind (mapM ?f ?l) _) _) =>
        destruct (mapM_returns f l) as [found ->]
    end; [|simpl; by eexists].
    apply Forall_forall. intros r [Hr1 Hr2]%elem_of_range.
    apply mapM_returns, Forall_forall. intros c [Hc1 Hc2]%elem_of_range.
    replace (getitem xs c) with (getitem xs (Z.of_nat (Z.to_nat c)))
      by (f_equal; lia).
    replace (getitem ys r) with (getitem ys (Z.of_nat (Z.to_nat r)))
      by (f_equal; lia).
    rewrite !getitem_nat.
    destruct (lookup_lt_is_Some_2 xs (Z.to_nat c)) as [x ->]; [lia|].
    simpl.
    destruct (lookup_lt_is_Some_2 ys (Z.to_nat r)) as [y ->]; [lia|].
    simpl. by eexists.
Qed.

(** X3.  The rasterizer returns exactly when neither search for a first index
    runs off its array: some grid row is at or above the lowest vertex and
    some grid column at or right of the leftmost one. *)
Theorem rasterizer_returns_iff :
  StronglySorted Qle xs -> StronglySorted Qle ys ->
  returns (_find_grid_points_in_polygon point_in_or_on_polygon p xs ys) <->
  Exists (fun y => (min_y p <= y)%Q) ys /\
  Exists (fun x => (min_x p <= x)%Q) xs.
Proof. apply find_grid_points_returns. Qed.

(** What the rasterizer collects on ascending grids: each grid point of the
    bounding box of the polygon that passes the test, once. *)
Lemma rasterizer_cells (rows cols : list Z) :
  StronglySorted Qle xs -> StronglySorted Qle ys ->
  _find_grid_points_in_polygon point_in_or_on_polygon p xs ys
    = Ok (rows, cols) ->
  exists cells,
    rows = cells.*1 /\ cols = cells.*2 /\ NoDup cells /\
    forall rc,
      rc ∈ cells <->
      exists i j x y,
        rc = (Z.of_nat i, Z.of_nat j) /\
        xs !! j = Some x /\ ys !! i = Some y /\
        (min_x p <= x)%Q /\ (x <= max_x p)%Q /\
        (min_y p <= y)%Q /\ (y <= max_y p)%Q /\
        point_in_or_on_polygon p x y = true.
Proof.
  intros Hxs Hys. unfold _find_grid_points_in_polygon.
  pose proof (find_min_value_sorted ys (min_y p) Hys) as Hrow.
  pose proof (find_min_value_sorted xs (min_x p) Hxs) as Hcol.
  pose proof (find_max_value_sorted ys (max_y p) Hys) as Hrow'.
  pose proof (find_max_value_sorted xs (max_x p) Hxs) as Hcol'.
  destruct (_find_min_value_greater_or_equal ys (min_y p))
    as [[y0 min_row]|e]; simpl; [|done].
  destruct Hrow as (kr & -> & Hkr & Hy0 & Hrmin).
  destruct (_find_max_value_less_than_or_equal ys (max_y p))
    as [[y1 max_row]|e]; simpl; [|done].
  destruct (_find_min_value_greater_or_equal xs (min_x p))
    as [[x0 min_col]|e]; simpl; [|done].
  destruct Hcol as (kc & -> & Hkc & Hx0 & Hcmin).
  destruct (_find_max_value_less_than_or_equal xs (max_x p))
    as [[x1 max_col]|e]; simpl; [|done].
  intros H. apply rbind_Ok in H as (cells & Hcells & [= <- <-]).
  apply test_candidates_Ok in Hcells as [Hmem Hnd].
  exists cells. split; [done|]. split; [done|].
  split; [apply Hnd; apply NoDup_range|].
  intros [r c]. rewrite Hmem. simpl. rewrite !elem_of_range. split.
  - intros ([Hr1 Hr2] & [Hc1 Hc2] & x & y & Hx & Hy & Hpass).
    exists (Z.to_nat r), (Z.to_nat c), x, y.
    replace (getitem xs c) with (getitem xs (Z.of_nat (Z.to_nat c))) in Hx
      by (f_equal; lia).
    replace (getitem ys r) with (getitem ys (Z.of_nat (Z.to_nat r))) in Hy
      by (f_equal; lia).
    rewrite getitem_nat in Hx, Hy.
    destruct (xs !! Z.to_nat c) as [x'|] eqn:Hx'; [|done].
    destruct (ys !! Z.to_nat r) as [y'|] eqn:Hy'; [|done].
    simplify_eq.
    split; [f_equal; lia|]. split; [done|]. split; [done|].
    split; [|split; [|split; [|split; [|done]]]].
    + eapply Qle_trans; [exact Hx0|].
      eapply (sorted_lookup_le xs kc (Z.to_nat c)); [done | lia | done..].
    + destruct Hcol' as [(k & -> & Hk & Hle & _)|(-> & _)]; [|lia].
      eapply Qle_trans; [|exact Hle].
      eapply (sorted_lookup_le xs (Z.to_nat c) k); [done | lia | done..].
    + eapply Qle_trans; [exact Hy0|].
      eapply (sorted_lookup_le ys kr (Z.to_nat r)); [done | lia | done..].
    + destruct Hrow' as [(k & -> & Hk & Hle & _)|(-> & _)]; [|lia].
      eapply Qle_trans; [|exact Hle].
      eapply (sorted_lookup_le ys (Z.to_nat r) k); [done | lia | done..].
  - intros (i & j & x & y & [= -> ->] & Hx & Hy & Hx1 & Hx2 & Hy1 & Hy2
            & Hpass).
    destruct (Hrmin i y Hy Hy1) as [Hi _].
    destruct (Hcmin j x Hx Hx1) as [Hj _].
    assert (Z.of_nat i <= max_row)%Z as Hi'.
    { destruct Hrow' as [(k & -> & _ & _ & Hmax)|(_ & Habove & _)].
      - destruct (Hmax i y Hy Hy2). lia.
      - exfalso. rewrite Forall_forall in Habove.
        apply (Qlt_not_le _ _ (Habove y (list_elem_of_lookup_2 _ _ _ Hy))).
        done. }
    assert (Z.of_nat j <= max_col)%Z as Hj'.
    { destruct Hcol' as [(k & -> & _ & _ & Hmax)|(_ & Habove & _)].
      - destruct (Hmax j x Hx Hx2). lia.
      - exfalso. rewrite Forall_forall in Habove.
        apply (Qlt_not_le _ _ (Habove x (list_elem_of_lookup_2 _ _ _ Hx))).
        done. }
    split; [lia|]. split; [lia|].
    exists x, y. rewrite !getitem_nat, Hx, Hy. done.
Qed.

(** X4.  The membership lists of a polygon have one length, name no cell
    twice, and hold only indices of the grid: rows in [0, M), columns in [0,
    N). *)
Theorem rasterizer_indices_in_grid (rows cols : list Z) :
  StronglySorted Qle xs -> StronglySorted Qle ys ->
  _find_grid_points_in_polygon point_in_or_on_polygon p xs ys
    = Ok (rows, cols) ->
  length rows = length cols /\ NoDup (zip rows cols) /\
  Forall (fun r => (0 <= r < Z.of_nat (length ys))%Z) rows /\
  Forall (fun c => (0 <= c < Z.of_nat (length xs))%Z) cols.
Proof.
  intros Hxs Hys H.
  destruct (rasterizer_cells rows cols Hxs Hys H)
    as (cells & -> & -> & Hnd & Hmem).
  split; [by rewrite !length_fmap|].
  split; [by rewrite zip_fst_snd|].
  split; apply Forall_forall; intros z (rc & -> & Hrc)%list_elem_of_fmap;
    apply Hmem in Hrc as (i & j & x & y & -> & Hx & Hy & _); simpl.
  - apply lookup_lt_Some in Hy. lia.
  - apply lookup_lt_Some in Hx. lia.
Qed.

(** X5.  On ascending grids the rasterizer returns exactly the grid points
    inside the bounding box of the polygon that are in or on the polygon. *)
Theorem rasterizer_exact (rows cols : list Z) :
  StronglySorted Qle xs -> StronglySorted Qle ys ->
  _find_grid_points_in_polygon point_in_or_on_polygon p xs ys
    = Ok (rows, cols) ->
  forall i j : nat,
    (Z.of_nat i, Z.of_nat j) ∈ zip rows cols <->
    exists x y,
      xs !! j = Some x /\ ys !! i = Some y /\
      (min_x p <= x)%Q /\ (x <= max_x p)%Q /\
      (min_y p <= y)%Q /\ (y <= max_y p)%Q /\
      point_in_or_on_polygon p x y = true.
Proof.
  intros Hxs Hys H i j.
  destruct (rasterizer_cells rows cols Hxs Hys H)
    as (cells & -> & -> & Hnd & Hmem).
  rewrite zip_fst_snd, Hmem. split.
  - intros (i' & j' & x & y & [= Hi Hj] & Hrest).
    apply Nat2Z.inj in Hi, Hj. subst. by exists x, y.
  - intros (x & y & Hrest). by exists i, j, x, y.
Qed.

End RasterizerSpec.

Section RasterizerExamples.
Import Numpy Rasterizer Scenario.
Local Open Scope Q_scope.

Lemma grid_points_ascending : StronglySorted Qle grid_points.
Proof. repeat constructor; by apply Qle_bool_iff. Qed.

Lemma rasterizer_returns_iff_witness :
  returns (_find_grid_points_in_polygon in_bounding_box
             (rectangle 500 500 1500 1500) grid_points grid_points) /\
  ~ returns (_find_grid_points_in_polygon in_bounding_box
               (rectangle 2500 0 3000 1000) grid_points grid_points).
Proof.
  split.
  - apply (rasterizer_returns_iff in_bounding_box
             (rectangle 500 500 1500 1500) grid_points grid_points
             grid_points_ascending grid_points_ascending).
    split; apply Exists_exists; exists 1000;
      (split; [apply list_elem_of_In; simpl; tauto | by apply Qle_bool_iff]).
  - intros H.
    apply (rasterizer_returns_iff in_bounding_box
             (rectangle 2500 0 3000 1000) grid_points grid_points
             grid_points_ascending grid_points_ascending) in H as [_ H].
    apply Exists_exists in H as (x & Hx & Hle).
    apply Qle_bool_iff in Hle.
    apply list_elem_of_In in Hx. simpl in Hx.
    destruct Hx as [<-|[<-|[<-|[]]]]; vm_compute in Hle; discriminate Hle.
Defined.

Lemma rasterizer_indices_in_grid_witness :
  length [0; 0; 1; 1]%Z = length [0; 1; 0; 1]%Z /\
  NoDup (zip [0; 0; 1; 1]%Z [0; 1; 0; 1]%Z) /\
  Forall (fun r => (0 <= r < Z.of_nat (length grid_points))%Z)
         [0; 0; 1; 1]%Z /\
  Forall (fun c => (0 <= c < Z.of_nat (length grid_points))%Z)
         [0; 1; 0; 1]%Z.
Proof.
  apply (rasterizer_indices_in_grid in_bounding_box
           (rectangle 0 0 1000 1000) grid_points grid_points
           [0; 0; 1; 1]%Z [0; 1; 0; 1]%Z
           grid_points_ascending grid_points_ascending).
  reflexivity.
Defined.

Lemma rasterizer_exact_witness :
  (Z.of_nat 1, Z.of_nat 0) ∈ zip [0; 0; 1; 1]%Z [0; 1; 0; 1]%Z <->
  exists x y,
    grid_points !! 0%nat = Some x /\ grid_points !! 1%nat = Some y /\
    min_x (rectangle 0 0 1000 1000) <= x /\
    x <= max_x (rectangle 0 0 1000 1000) /\
    min_y (rectangle 0 0 1000 1000) <= y /\
    y <= max_y (rectangle 0 0 1000 1000) /\
    in_bounding_box (rectangle 0 0 1000 1000) x y = true.
Proof.
  apply (rasterizer_exact in_bounding_box
           (rectangle 0 0 1000 1000) grid_points grid_points
           [0; 0; 1; 1]%Z [0; 1; 0; 1]%Z
           grid_points_ascending grid_points_ascending).
  reflexivity.
Defined.

End RasterizerExamples.

(** ** More about the lead times *)

Section LeadTimeSpec.
Import Rounding LeadTimes.

Lemma round_half_even_near_floor (q : Q) :
  (Qfloor q <= round_half_even q <= Qfloor q + 1)%Z.
Proof.
  unfold round_half_even.
  destruct (q - inject_Z (Qfloor q) ?= 1 # 2)%Q; [|lia..].
  destruct (Z.even (Qfloor q)); lia.
Qed.

Lemma Qfloor_nonneg (q : Q) : (0 <= q)%Q -> (0 <= Qfloor q)%Z.
Proof. intros H. apply (Qfloor_resp_le 0 q H). Qed.

Lemma Qfloor_below_one (q : Q) : (0 <= q)%Q -> (q < 1)%Q -> Qfloor q = 0%Z.
Proof.
  intros H0 H1. pose proof (Qfloor_nonneg q H0).
  assert (Qfloor q < 1)%Z; [|lia].
  rewrite Zlt_Qlt. eapply Qle_lt_trans; [apply Qfloor_le | exact H1].
Qed.

(** Up to one half, the half included, the rounded value is 0. *)
Lemma round_half_even_small (q : Q) :
  (0 <= q)%Q -> (q <= 1 # 2)%Q -> round_half_even q = 0%Z.
Proof.
  intros H0 H1. unfold round_half_even.
  rewrite Qfloor_below_one; [|done|].
  - assert (q - inject_Z 0 == q)%Q as E by ring.
    rewrite (Qcompare_comp _ _ E _ _ (Qeq_refl (1 # 2))).
    destruct (Qcompare_spec q (1 # 2)) as [?|?|Hgt]; [done..|].
    exfalso. by apply (Qlt_not_le _ _ Hgt).
  - eapply Qle_lt_trans; [exact H1 | reflexivity].
Qed.

Lemma round_half_even_large (q : Q) :
  (1 # 2 < q)%Q -> (1 <= round_half_even q)%Z.
Proof.
  intros H.
  assert (0 <= Qfloor q)%Z as Hf.
  { apply Qfloor_nonneg. apply Qlt_le_weak.
    eapply Qlt_trans; [|exact H]. reflexivity. }
  pose proof (round_half_even_near_floor q) as Hr.
  destruct (decide (Qfloor q = 0%Z)) as [E|]; [|lia].
  unfold round_half_even. rewrite E.
  assert (q - inject_Z 0 == q)%Q as E' by ring.
  rewrite (Qcompare_comp _ _ E' _ _ (Qeq_refl (1 # 2))).
  apply Qgt_alt in H. by rewrite H.
Qed.

Lemma round_half_even_nonneg (q : Q) :
  (0 <= q)%Q -> (0 <= round_half_even q)%Z.
Proof.
  intros H. pose proof (Qfloor_nonneg q H).
  pose proof (round_half_even_near_floor q). lia.
Qed.

Lemma inject_Z_pos (z : Z) : (0 < z)%Z -> (0 < inject_Z z)%Q.
Proof. intros H. by rewrite Zlt_Qlt in H. Qed.

Lemma window_quotient_nonneg (d res : Z) :
  (0 <= d)%Z -> (0 < res)%Z -> (0 <= inject_Z d / inject_Z res)%Q.
Proof.
  intros Hd Hres. apply Qle_shift_div_l; [by apply inject_Z_pos|].
  rewrite Qmult_0_l. by rewrite Zle_Qle in Hd.
Qed.

(** The quotient of the window by the resolution against one half. *)
Lemma window_quotient_half (d res : Z) :
  (0 < res)%Z ->
  (inject_Z d / inject_Z res <= 1 # 2)%Q <-> (2 * d <= res)%Z.
Proof.
  intros Hres. split.
  - intros H. destruct (decide (2 * d <= res)%Z) as [|Hn]; [done|].
    exfalso. apply (Qlt_not_le (1 # 2) (inject_Z d / inject_Z res)); [|done].
    apply Qlt_shift_div_l; [by apply inject_Z_pos|].
    unfold Qlt. simpl. lia.
  - intros H. apply Qle_shift_div_r; [by apply inject_Z_pos|].
    unfold Qle. simpl. lia.
Qed.

Lemma lead_times_valid_args (min max res : Z) :
  returns (lead_times_seconds min max res) <->
  (0 <= min)%Z /\ (min < max)%Z /\ (0 < res)%Z.
Proof.
  unfold lead_times_seconds, assert_is_geq, assert_is_greater.
  destruct (Z.leb_spec 0 min); simpl; [|split; [by intros [? ?] | lia]].
  destruct (Z.ltb_spec min max); simpl; [|split; [by intros [? ?] | lia]].
  destruct (Z.ltb_spec 0 res); simpl; [|split; [by intros [? ?] | lia]].
  split; [done|]. intros _. unfold linspace.
  pose proof (round_half_even_nonneg _
                (window_quotient_nonneg (max - min) res ltac:(lia) ltac:(lia))).
  destruct (Z.ltb_spec (1 + round_half_even
              (inject_Z (max - min) / inject_Z res)) 0); [lia|].
  destruct (_ =? 1)%Z; by eexists.
Qed.

(** X6.  The arguments are refused exactly when the minimum lead time is
    negative, the maximum is not above the minimum, or the resolution is not
    positive. *)
Theorem lead_times_returns_iff (min max res : Z) :
  returns (lead_times_seconds min max res) <->
  (0 <= min)%Z /\ (min < max)%Z /\ (0 < res)%Z.
Proof. apply lead_times_valid_args. Qed.

(** X7.  With a resolution of at least twice the window the only lead time is
    the minimum one: the maximum lead time is never used. With a smaller
    resolution the maximum lead time is the last one. *)
Theorem max_lead_time_used_iff (min max res : Z) (l : list Z) :
  lead_times_seconds min max res = Ok l ->
  (last l = Some max <-> (res < 2 * (max - min))%Z) /\
  ((2 * (max - min) <= res)%Z -> l = [min]).
Proof.
  intros H.
  assert (returns (lead_times_seconds min max res)) as Hret by by exists l.
  apply lead_times_valid_args in Hret as (Hmin & Hmax & Hres).
  unfold lead_times_seconds, assert_is_geq, assert_is_greater in H.
  destruct (Z.leb_spec 0 min); [|lia].
  destruct (Z.ltb_spec min max); [|lia].
  destruct (Z.ltb_spec 0 res); [|lia]. simpl in H.
  set (q := (inject_Z (max - min) / inject_Z res)%Q) in *.
  pose proof (window_quotient_half (max - min) res Hres) as Hhalf.
  fold q in Hhalf.
  destruct (decide (2 * (max - min) <= res)%Z) as [Hsmall|Hlarge].
  - rewrite round_half_even_small in H;
      [|by apply window_quotient_nonneg; lia | by apply Hhalf].
    injection H as <-. split; [|done]. simpl. split; [|lia].
    intros [= ->]. lia.
  - assert (1 <= round_half_even q)%Z as Hn.
    { apply round_half_even_large. apply Qnot_le_lt. intros Hq.
      by apply Hhalf in Hq. }
    split; [|lia]. split; [lia|]. intros _.
    unfold linspace in H.
    destruct (Z.ltb_spec (1 + round_half_even q) 0); [lia|].
    destruct (Z.eqb_spec (1 + round_half_even q) 1); [lia|].
    injection H as <-.
    replace (Z.to_nat (1 + round_half_even q))
      with (S (Z.to_nat (round_half_even q))) by lia.
    rewrite seq_S, map_app. cbn [map]. rewrite last_snoc. simpl.
    destruct (Z.eqb_spec (Z.of_nat (Z.to_nat (round_half_even q)))
                (1 + round_half_even q - 1)); [done | lia].
Qed.

Lemma max_lead_time_used_iff_witness :
  lead_times_seconds 0 10 60 = Ok [0%Z] /\
  lead_times_seconds 0 100 60 = Ok [0; 50; 100]%Z /\
  last [0; 50; 100]%Z = Some 100%Z.
Proof.
  assert (lead_times_seconds 0 10 60 = Ok [0%Z]) as H1 by reflexivity.
  assert (lead_times_seconds 0 100 60 = Ok [0; 50; 100]%Z) as H2
    by reflexivity.
  split; [exact H1|]. split; [exact H2|].
  apply (proj1 (max_lead_time_used_iff 0 100 60 _ H2)). lia.
Defined.

Lemma StronglySorted_map_seq (f : nat -> Z) (m : nat) :
  (forall i j, i <= j -> j < m -> (f i <= f j)%Z) ->
  StronglySorted Z.le (map f (seq 0 m)).
Proof.
  intros Hf.
  enough (forall k a, a + k <= m ->
                      StronglySorted Z.le (map f (seq a k))) as H.
  { apply (H m 0). lia. }
  induction k as [|k IH]; intros a Ha; simpl; constructor.
  - apply IH. lia.
  - apply Forall_forall. intros z Hz.
    apply list_elem_of_In, in_map_iff in Hz as (j & <- & Hj%in_seq).
    apply Hf; lia.
Qed.

(** An interior sample of [linspace]: it lies in the window, below its end,
    and the samples grow with their index. *)
Lemma interior_sample (min d n i j : Z) :
  (0 <= min)%Z -> (0 < d)%Z -> (0 <= i <= j)%Z -> (j < n)%Z ->
  let step := (inject_Z d / inject_Z n)%Q in
  let v k := truncate (inject_Z min + inject_Z k * step)%Q in
  (min <= v i)%Z /\ (v i <= v j)%Z /\ (v j < min + d)%Z.
Proof.
  intros Hmin Hd Hij Hjn step v.
  assert (0 < inject_Z n)%Q as Hn by (apply inject_Z_pos; lia).
  assert (0 <= step)%Q as Hstep.
  { apply window_quotient_nonneg; lia. }
  assert (forall k, (0 <= k < n)%Z ->
            (inject_Z min <= inject_Z min + inject_Z k * step)%Q /\
            (inject_Z min + inject_Z k * step < inject_Z (min + d))%Q)
    as Hbounds.
  { intros k [Hk0 Hkn].
    assert (0 <= inject_Z k)%Q as Hk0' by (by rewrite Zle_Qle in Hk0).
    assert (inject_Z k < inject_Z n)%Q as Hkn' by (by rewrite Zlt_Qlt in Hkn).
    assert (0 < inject_Z d)%Q as Hd' by (by apply inject_Z_pos).
    split.
    - pose proof (Qmult_le_0_compat _ _ Hk0' Hstep). Lqa.lra.
    - rewrite inject_Z_plus.
      assert (inject_Z k * step < inject_Z d)%Q; [|Lqa.lra].
      unfold step.
      assert (inject_Z k * (inject_Z d / inject_Z n) ==
              inject_Z k * inject_Z d / inject_Z n)%Q as ->
        by (field; Lqa.lra).
      apply Qlt_shift_div_r; [done|]. Lqa.nra. }
  assert (forall k, (0 <= k < n)%Z ->
            v k = Qfloor (inject_Z min + inject_Z k * step)) as Hv.
  { intros k Hk. unfold v, truncate.
    destruct (Hbounds k Hk) as [Hlo _].
    assert (Qle_bool 0 (inject_Z min + inject_Z k * step) = true) as ->;
      [|done].
    apply Qle_bool_iff. eapply Qle_trans; [|exact Hlo].
    by rewrite Zle_Qle in Hmin. }
  rewrite !Hv by lia.
  destruct (Hbounds i ltac:(lia)) as [Hlo _].
  destruct (Hbounds j ltac:(lia)) as [_ Hhi].
  split; [|split].
  - pose proof (Qfloor_resp_le _ _ Hlo) as H. by rewrite Qfloor_Z in H.
  - apply Qfloor_resp_le.
    assert (inject_Z i <= inject_Z j)%Q as Hle.
    { rewrite <- Zle_Qle. lia. }
    pose proof (Qmult_le_compat_r _ _ _ Hle Hstep). Lqa.lra.
  - rewrite Zlt_Qlt. eapply Qle_lt_trans; [apply Qfloor_le | exact Hhi].
Qed.



End LeadTimeSpec.

(** ** More about the accumulation *)

Section AccumulatorSpec2.
Import Numpy Rasterizer Forecast.

Lemma norm_index_returns_iff (n : nat) (i : Z) :
  returns (norm_index n i) <-> (- Z.of_nat n <= i < Z.of_nat n)%Z.
Proof.
  unfold norm_index.
  destruct (Z.leb_spec 0 i); destruct (Z.ltb_spec i (Z.of_nat n)); simpl;
    try (split; [intros _; lia | intros _; by eexists]).
  - destruct (Z.leb_spec (- Z.of_nat n) i); destruct (Z.ltb_spec i 0); simpl;
      try (split; [intros [? ?]; done | lia]).
    lia.
  - destruct (Z.leb_spec (- Z.of_nat n) i); destruct (Z.ltb_spec i 0); simpl;
      try (split; [intros [? ?]; done | lia]).
    split; [intros _; lia | intros _; by eexists].
  - destruct (Z.leb_spec (- Z.of_nat n) i); destruct (Z.ltb_spec i 0); simpl;
      try (split; [intros [? ?]; done | lia]).
    lia.
Qed.

Lemma fancy_index_returns_iff (M N : nat) (rows cols : list Z) :
  length rows = length cols ->
  returns (fancy_index M N rows cols) <->
  Forall (fun r => (- Z.of_nat M <= r < Z.of_nat M)%Z) rows /\
  Forall (fun c => (- Z.of_nat N <= c < Z.of_nat N)%Z) cols.
Proof.
  intros Hlen. unfold fancy_index, broadcast.
  rewrite decide_True by done. simpl.
  revert cols Hlen. induction rows as [|r rows IH]; intros [|c cols] Hlen;
    try discriminate.
  - split; [by repeat constructor | intros _; by eexists].
  - injection Hlen as Hlen. specialize (IH cols Hlen).
    simpl. rewrite !Forall_cons.
    pose proof (norm_index_returns_iff M r) as Hr.
    pose proof (norm_index_returns_iff N c) as Hc.
    destruct (norm_index M r) as [i|e]; simpl.
    2:{ split; [by intros [? ?]|]. intros [[Hr' _] _].
        apply Hr in Hr' as [? ?]. done. }
    destruct (norm_index N c) as [j|e]; simpl.
    2:{ split; [by intros [? ?]|]. intros [_ [Hc' _]].
        apply Hc in Hc' as [? ?]. done. }
    destruct (mapM _ (zip rows cols)) as [idx|e]; simpl.
    + split; [|intros _; by eexists]. intros _.
      destruct IH as [IH _]. destruct IH as [? ?]; [by eexists|].
      split; (split; [|done]); [apply Hr | apply Hc]; by eexists.
    + split; [by intros [? ?]|]. intros [[_ Hrows] [_ Hcols]].
      destruct IH as [_ IH]. destruct IH as [? ?]; done.
Qed.

Lemma gather_returns {T} (M N : nat) (m : list (list T))
      (idx : list (nat * nat)) :
  wf M N m -> Forall (in_range M N) idx -> returns (gather m idx).
Proof.
  intros [Hlen Hrows] Hidx. unfold gather. apply mapM_returns.
  eapply Forall_impl; [exact Hidx|]. intros [r c] [Hr Hc]. simpl in *.
  unfold cell.
  destruct (lookup_lt_is_Some_2 m r) as [row Hrow]; [lia|].
  rewrite Hrow. simpl.
  destruct (lookup_lt_is_Some_2 row c) as [v Hv].
  { rewrite Forall_lookup in Hrows. rewrite (Hrows _ _ Hrow). done. }
  rewrite Hv. by eexists.
Qed.

Lemma update_at_returns_iff {T} (f : T -> T) (M N : nat) (m : list (list T))
      (rows cols : list Z) :
  wf M N m ->
  returns (update_at f M N m rows cols) <->
  returns (fancy_index M N rows cols).
Proof.
  intros Hwf. unfold update_at.
  destruct (fancy_index M N rows cols) as [idx|e] eqn:Hidx; simpl.
  - split; [intros _; by eexists|]. intros _.
    destruct (gather_returns M N m idx Hwf) as [vals ->];
      [by eapply fancy_index_in_range|].
    simpl. by eexists.
  - split; by intros [? ?].
Qed.

Lemma add_contribution_returns (M N : nat) (acc : accumulator)
        (these_rows these_columns : list Z) (probability : float) :
  wf_acc M N acc ->
  length these_rows = length these_columns ->
  returns (add_contribution M N acc these_rows these_columns probability) <->
  Forall (fun r => (- Z.of_nat M <= r < Z.of_nat M)%Z) these_rows /\
  Forall (fun c => (- Z.of_nat N <= c < Z.of_nat N)%Z) these_columns.
Proof.
  intros [Hwc Hws] Hlen. unfold add_contribution.
  case_decide as Hempty.
  - apply length_zero_iff_nil in Hempty as ->.
    destruct these_columns; [|discriminate].
    split; [by repeat constructor | intros _; by eexists].
  - rewrite <- (fancy_index_returns_iff M N) by done.
    rewrite <- (update_at_returns_iff (fun n => (n + 1)%Z) M N _ _ _ Hwc).
    destruct (update_at _ M N (this_num_forecast_matrix acc) _ _)
      as [counts|e] eqn:Hcounts; simpl; [|split; by intros [? ?]].
    split; [intros _; by eexists|]. intros _.
    assert (returns (update_at (fun x => PrimFloat.add x probability) M N
                       (this_probability_matrix_xy acc) these_rows
                       these_columns)) as [sums ->].
    { apply update_at_returns_iff; [done|].
      apply (update_at_returns_iff (fun n => (n + 1)%Z) M N _ _ _ Hwc).
      by eexists. }
    simpl. by eexists.
Qed.

(** X9.  With as many row indices as column indices, one contribution fails
    exactly when one of its indices is outside [-M, M) for a row or [-N, N)
    for a column. *)
Theorem add_contribution_returns_iff (M N : nat) (acc : accumulator)
        (these_rows these_columns : list Z) (probability : float) :
  wf_acc M N acc ->
  length these_rows = length these_columns ->
  returns (add_contribution M N acc these_rows these_columns probability) <->
  Forall (fun r => (- Z.of_nat M <= r < Z.of_nat M)%Z) these_rows /\
  Forall (fun c => (- Z.of_nat N <= c < Z.of_nat N)%Z) these_columns.
Proof. apply add_contribution_returns. Qed.

Lemma add_contribution_returns_iff_witness :
  returns (add_contribution 3 3
             {| this_num_forecast_matrix := full 3 3 0%Z;
                this_probability_matrix_xy := full 3 3 0%float |}
             [-1; 2]%Z [0; -3]%Z 0.5%float).
Proof.
  apply add_contribution_returns_iff.
  - split; apply wf_full.
  - reflexivity.
  - split; repeat (apply Forall_cons; split); try apply Forall_nil; lia.
Defined.

(** X10.  One contribution adds its probability once, and one count, to every
    cell that its lists name, however often and under whichever sign they name
    it, and changes no other cell. *)
Theorem add_contribution_once_per_cell (M N : nat) (acc acc' : accumulator)
        (these_rows these_columns : list Z) (probability : float)
        (r c : nat) :
  wf_acc M N acc ->
  add_contribution M N acc these_rows these_columns probability = Ok acc' ->
  wf_acc M N acc' /\
  cell (this_num_forecast_matrix acc') r c =
    (if covers M N these_rows these_columns r c
     then (fun n => (n + 1)%Z) <$> cell (this_num_forecast_matrix acc) r c
     else cell (this_num_forecast_matrix acc) r c) /\
  cell (this_probability_matrix_xy acc') r c =
    (if covers M N these_rows these_columns r c
     then (fun x => PrimFloat.add x probability) <$>
            cell (this_probability_matrix_xy acc) r c
     else cell (this_probability_matrix_xy acc) r c).
Proof.
  intros Hwf H.
  destruct (add_contribution_adds M N r c _ _ _ _ _ H Hwf)
    as (Hwf' & Hcount & Hsum).
  split; [done|]. rewrite Hcount, Hsum. clear Hcount Hsum.
  destruct (covers M N these_rows these_columns r c); simpl; split.
  - done.
  - done.
  - destruct (cell (this_num_forecast_matrix acc) r c); simpl; [|done].
    f_equal. lia.
  - by destruct (cell (this_probability_matrix_xy acc) r c).
Qed.

Lemma add_contribution_once_per_cell_witness :
  exists acc',
    add_contribution 2 2
      {| this_num_forecast_matrix := full 2 2 0%Z;
         this_probability_matrix_xy := full 2 2 0%float |}
      [1; -1; 1]%Z [0; 0; -2]%Z 0.5%float = Ok acc' /\
    cell (this_num_forecast_matrix acc') 1 0 = Some 1%Z /\
    cell (this_num_forecast_matrix acc') 0 0 = Some 0%Z.
Proof.
  set (acc := {| this_num_forecast_matrix := full 2 2 0%Z;
                 this_probability_matrix_xy := full 2 2 0%float |}).
  assert (wf_acc 2 2 acc) as Hwf by (split; apply wf_full).
  destruct (add_contribution 2 2 acc [1; -1; 1]%Z [0; 0; -2]%Z 0.5%float)
    as [acc'|e] eqn:H; [|vm_compute in H; discriminate H].
  exists acc'. split; [reflexivity|].
  destruct (add_contribution_once_per_cell 2 2 acc acc' _ _ _ 1 0 Hwf H)
    as (_ & Hcovered & _).
  destruct (add_contribution_once_per_cell 2 2 acc acc' _ _ _ 0 0 Hwf H)
    as (_ & Hother & _).
  split; [rewrite Hcovered | rewrite Hother]; reflexivity.
Defined.

End AccumulatorSpec2.

(** ** More about the run over the initial times *)

Section PipelineSpec.
Import Numpy Rasterizer Forecast.

Variable _extrapolate_polygons : storm_object_table -> Z -> list (list polygon).
Variable point_in_or_on_polygon : polygon -> Q -> Q -> bool.
Variables apply_gaussian apply_cressman : matrix float -> matrix float.
Variable _interp_probabilities_to_latlng_grid :
  matrix float -> list Q -> list Q -> matrix float * list Q * list Q.
Variable storm_objects_at : nat -> storm_object_table.
Variables grid_point_x_coords_metres grid_point_y_coords_metres : list Q.
Variables grid_spacing_x_metres grid_spacing_y_metres : Q.

Local Abbreviation M := (num_xy_rows grid_point_y_coords_metres).
Local Abbreviation N := (num_xy_columns grid_point_x_coords_metres).
Local Abbreviation xy_field :=
  (xy_field_for_init_time _extrapolate_polygons point_in_or_on_polygon
     apply_gaussian apply_cressman storm_objects_at
     grid_point_x_coords_metres grid_point_y_coords_metres
     grid_spacing_x_metres grid_spacing_y_metres).
Local Abbreviation interp m :=
  (_interp_probabilities_to_latlng_grid m grid_point_x_coords_metres
     grid_point_y_coords_metres).
Local Abbreviation step :=
  (init_time_step _extrapolate_polygons point_in_or_on_polygon
     apply_gaussian apply_cressman _interp_probabilities_to_latlng_grid
     storm_objects_at grid_point_x_coords_metres grid_point_y_coords_metres
     grid_spacing_x_metres grid_spacing_y_metres).

Lemma wf_divide (m n : nat) (a : matrix float) (b : matrix Z) :
  wf m n a -> wf m n b -> wf m n (divide a b).
Proof.
  intros [Ha Hra] [Hb Hrb]. unfold divide. split.
  - rewrite length_zip_with. lia.
  - apply Forall_lookup. intros i row Hrow.
    apply lookup_zip_with_Some in Hrow as (ra & rb & -> & Hia & Hib).
    rewrite Forall_lookup in Hra. rewrite Forall_lookup in Hrb.
    rewrite length_zip_with, (Hra _ _ Hia), (Hrb _ _ Hib). lia.
Qed.

Lemma accumulate_wf (table : storm_object_table) (lead_times : list Z)
      (acc : accumulator) :
  accumulate _extrapolate_polygons grid_point_x_coords_metres
    grid_point_y_coords_metres grid_spacing_x_metres grid_spacing_y_metres
    table lead_times = Ok acc ->
  wf_acc M N acc.
Proof.
  intros H. unfold accumulate in H.
  eapply (foldM_adds M N 0 0) in H;
    [|intros t a a' Ht; apply update_for_lead_time_adds, Ht].
  destruct H as (Hwf & _); [split; apply wf_full | done].
Qed.

(** X12.  Without a smoother, the x-y probability field of an initial time has
    one row per grid row and one value per grid column: the shape of the
    grid. *)
Theorem xy_field_has_grid_shape (lead_times : list Z) (i : nat)
        (grid : matrix float) :
  xy_field_for_init_time _extrapolate_polygons point_in_or_on_polygon
    apply_gaussian apply_cressman storm_objects_at
    grid_point_x_coords_metres grid_point_y_coords_metres
    grid_spacing_x_metres grid_spacing_y_metres lead_times None i
    = Ok grid ->
  length grid = length grid_point_y_coords_metres /\
  Forall (fun row => length row = length grid_point_x_coords_metres) grid.
Proof.
  unfold xy_field_for_init_time. intros H.
  apply rbind_Ok in H as (table & _ & H).
  apply rbind_Ok in H as (acc & Hacc & [= <-]). simpl.
  apply accumulate_wf in Hacc as [Hc Hs].
  by apply (wf_divide M N).
Qed.

(** What one iteration of the loop over initial times does to the
    dictionary, when it returns. *)
Lemma init_time_step_Ok (lead_times : list Z)
      (smoothing_method : option smoothing) (interp_to_latlng_grid : bool)
      (d d' : gridded_forecast_dict) (k : nat) :
  step lead_times smoothing_method interp_to_latlng_grid d k = Ok d' ->
  exists m,
    xy_field lead_times smoothing_method k = Ok m /\
    init_times_unix_sec d' = init_times_unix_sec d /\
    min_lead_time d' = min_lead_time d /\
    max_lead_time d' = max_lead_time d /\
    grid_x_coords_metres d' = grid_x_coords_metres d /\
    grid_y_coords_metres d' = grid_y_coords_metres d /\
    xy_probabilities d' = <[k := Some m]> (xy_probabilities d) /\
    if interp_to_latlng_grid then
      exists matrices,
        latlng_probabilities d = Some matrices /\
        latlng_probabilities d' =
          Some (<[k := Some (interp m).1.1]> matrices) /\
        if decide (k <> 0) then
          grid_latitudes_deg d' = grid_latitudes_deg d /\
          grid_longitudes_deg d' = grid_longitudes_deg d
        else
          grid_latitudes_deg d' = Some (interp m).1.2 /\
          grid_longitudes_deg d' = Some (interp m).2
    else
      latlng_probabilities d' = latlng_probabilities d /\
      grid_latitudes_deg d' = grid_latitudes_deg d /\
      grid_longitudes_deg d' = grid_longitudes_deg d.
Proof.
  unfold init_time_step. intros H.
  apply rbind_Ok in H as (m & Hm & H). exists m. split; [done|].
  destruct interp_to_latlng_grid; simpl in H.
  - destruct (interp m) as [[ml lats] lngs] eqn:Hinterp.
    destruct (latlng_probabilities d) as [matrices|] eqn:Hlat; [|done].
    case_decide; injection H as <-; simpl; repeat (split; [done|]);
      exists matrices; by repeat split.
  - injection H as <-. simpl. by repeat split.
Qed.

(** X13.  A run that returns has passed every check on its arguments. *)
Theorem returned_dictionary_means_valid_arguments
        (min_buffer_distances_metres max_buffer_distances_metres
           : list (option Q))
        (init_times : list Z)
        (min_lead_time_sec max_lead_time_sec lead_time_resolution_sec : Z)
        (interp_to_latlng_grid : bool)
        (prob_radius_for_grid_metres : Q)
        (smoothing_method : option smoothing) :
  returns
    (create_forecast_grids _extrapolate_polygons point_in_or_on_polygon
       apply_gaussian apply_cressman _interp_probabilities_to_latlng_grid
       storm_objects_at grid_point_x_coords_metres grid_point_y_coords_metres
       grid_spacing_x_metres grid_spacing_y_metres
       min_buffer_distances_metres max_buffer_distances_metres init_times
       min_lead_time_sec max_lead_time_sec lead_time_resolution_sec
       interp_to_latlng_grid prob_radius_for_grid_metres smoothing_method) ->
  (0 <= min_lead_time_sec)%Z /\ (min_lead_time_sec < max_lead_time_sec)%Z /\
  (0 < lead_time_resolution_sec)%Z /\
  (0 < prob_radius_for_grid_metres)%Q /\
  min_buffer_distances_metres <> [] /\
  Buffers._check_distance_buffers min_buffer_distances_metres
    max_buffer_distances_metres = Ok tt.
Proof.
  intros [d H]. unfold create_forecast_grids in H.
  apply rbind_Ok in H as (lead_times & Hlead & H).
  apply rbind_Ok in H as ([] & Hradius & H).
  apply rbind_Ok in H as ([] & Hbuffers & H).
  apply rbind_Ok in H as ([] & Hcheck & _).
  assert (returns (LeadTimes.lead_times_seconds min_lead_time_sec
                     max_lead_time_sec lead_time_resolution_sec))
    as (? & ? & ?)%lead_times_valid_args by by eexists.
  repeat (split; [done|]). split; [|split; [|done]].
  - destruct (Qle_bool prob_radius_for_grid_metres 0) eqn:E; [done|].
    apply Qnot_le_lt. intros Hle. apply Qle_bool_iff in Hle. congruence.
  - by destruct min_buffer_distances_metres.
Qed.

(** What [_polygons_to_grid_points] does to each buffer of each storm object:
    the two membership columns are overwritten with what the rasterizer finds
    for the polygon; the polygon and the probability stay. *)
Lemma polygons_to_grid_points_Ok (table table' : storm_object_table) :
  _polygons_to_grid_points point_in_or_on_polygon
    grid_point_x_coords_metres grid_point_y_coords_metres table = Ok table' ->
  Forall2 (Forall2 (fun b b' =>
    polygon_object_xy b' = polygon_object_xy b /\
    forecast_probability b' = forecast_probability b /\
    _find_grid_points_in_polygon point_in_or_on_polygon (polygon_object_xy b)
      grid_point_x_coords_metres grid_point_y_coords_metres
      = Ok (grid_rows_in_buffer b', grid_columns_in_buffer b')))
    table table'.
Proof.
  intros H%mapM_Forall2.
  eapply Forall2_impl; [exact H|]. clear H.
  intros row row' H%mapM_Forall2.
  eapply Forall2_impl; [exact H|]. clear H.
  intros b b' H. apply rbind_Ok in H as ([rows cols] & Hfind & [= <-]).
  by simpl.
Qed.

(** X14.  On ascending grids [_polygons_to_grid_points] returns exactly when
    every polygon of the table has a grid row at or above its lowest vertex
    and a grid column at or right of its leftmost one: one polygon wholly
    beyond the last row or the last column makes the whole call raise. *)
Theorem polygons_to_grid_points_returns_iff (table : storm_object_table) :
  StronglySorted Qle grid_point_x_coords_metres ->
  StronglySorted Qle grid_point_y_coords_metres ->
  returns (_polygons_to_grid_points point_in_or_on_polygon
             grid_point_x_coords_metres grid_point_y_coords_metres table) <->
  Forall (Forall (fun b =>
    Exists (fun y => (min_y (polygon_object_xy b) <= y)%Q)
           grid_point_y_coords_metres /\
    Exists (fun x => (min_x (polygon_object_xy b) <= x)%Q)
           grid_point_x_coords_metres)) table.
Proof.
  intros Hxs Hys. split.
  - intros [table' H%polygons_to_grid_points_Ok].
    induction H as [|row row' table table' Hrow _ IH]; constructor; [|done].
    clear IH. induction Hrow as [|b b' row row' (_ & _ & Hb) _ IH];
      constructor; [|done].
    apply (find_grid_points_returns point_in_or_on_polygon); [done..|].
    by eexists.
  - intros H. apply mapM_returns.
    eapply Forall_impl; [exact H|]. clear H. intros row H.
    apply mapM_returns. eapply Forall_impl; [exact H|]. clear H.
    intros b H.
    apply (find_grid_points_returns point_in_or_on_polygon) in H
      as [[rows cols] ->]; [|done..].
    simpl. by eexists.
Qed.

(** X15.  On ascending grids every membership that [_polygons_to_grid_points]
    stores lies on the grid: as many rows as columns, no cell twice, rows in
    [0, M) and columns in [0, N). So adding these memberships to the two
    matrices of an initial time cannot fail. *)
Theorem stored_memberships_fit_the_grid
        (table table' : storm_object_table) (acc : accumulator)
        (row : list buffer) (b : buffer) :
  StronglySorted Qle grid_point_x_coords_metres ->
  StronglySorted Qle grid_point_y_coords_metres ->
  _polygons_to_grid_points point_in_or_on_polygon
    grid_point_x_coords_metres grid_point_y_coords_metres table = Ok table' ->
  row ∈ table' -> b ∈ row ->
  wf_acc M N acc ->
  length (grid_rows_in_buffer b) = length (grid_columns_in_buffer b) /\
  NoDup (zip (grid_rows_in_buffer b) (grid_columns_in_buffer b)) /\
  Forall (fun r => (0 <= r < Z.of_nat M)%Z) (grid_rows_in_buffer b) /\
  Forall (fun c => (0 <= c < Z.of_nat N)%Z) (grid_columns_in_buffer b) /\
  returns (add_contribution M N acc (grid_rows_in_buffer b)
             (grid_columns_in_buffer b) (forecast_probability b)).
Proof.
  intros Hxs Hys Htable Hrow Hb Hwf.
  apply polygons_to_grid_points_Ok in Htable.
  apply list_elem_of_lookup_1 in Hrow as [i Hi].
  destruct (Forall2_lookup_r _ _ _ _ _ Htable Hi) as (row0 & _ & Hrow0).
  apply list_elem_of_lookup_1 in Hb as [j Hj].
  destruct (Forall2_lookup_r _ _ _ _ _ Hrow0 Hj) as (b0 & _ & _ & _ & Hfind).
  destruct (rasterizer_cells _ _ _ _ _ _ Hxs Hys Hfind)
    as (cells & Hrows & Hcols & Hnd & Hmem).
  assert (Forall (fun r => (0 <= r < Z.of_nat M)%Z) (grid_rows_in_buffer b) /\
          Forall (fun c => (0 <= c < Z.of_nat N)%Z)
                 (grid_columns_in_buffer b)) as [Hr Hc].
  { rewrite Hrows, Hcols.
    split; apply Forall_forall; intros z (rc & -> & Hrc)%list_elem_of_fmap;
      apply Hmem in Hrc as (r & c & x & y & -> & Hx & Hy & _); simpl.
    - apply lookup_lt_Some in Hy. unfold num_xy_rows. lia.
    - apply lookup_lt_Some in Hx. unfold num_xy_columns. lia. }
  assert (length (grid_rows_in_buffer b) = length (grid_columns_in_buffer b))
    as Hlen by by rewrite Hrows, Hcols, !length_fmap.
  split; [done|]. split; [by rewrite Hrows, Hcols, zip_fst_snd|].
  split; [done|]. split; [done|].
  apply (add_contribution_returns M N acc _ _ _ Hwf Hlen). split.
  - eapply Forall_impl; [exact Hr|]. simpl. lia.
  - eapply Forall_impl; [exact Hc|]. simpl. lia.
Qed.

(** The x-y field of every initial time was computed when the loop over the
    initial times has come to its end. *)
Lemma run_computes_every_field
      (lead_times : list Z) (smoothing_method : option smoothing)
      (interp_to_latlng_grid : bool) (n : nat)
      (d0 d : gridded_forecast_dict) :
  foldM (step lead_times smoothing_method interp_to_latlng_grid)
        (seq 0 n) d0 = Ok d ->
  forall i, i < n -> returns (xy_field lead_times smoothing_method i).
Proof.
  apply (foldM_seq_inv
           (fun k _ => forall i, i < k ->
                         returns (xy_field lead_times smoothing_method i))).
  - intros i Hi. lia.
  - intros k t t' _ IH Hstep i Hi.
    destruct (decide (i = k)) as [->|Hne]; [|apply IH; lia].
    apply init_time_step_Ok in Hstep as (m & Hm & _). by exists m.
Qed.

(** X16.  A run that returns has filled in the dictionary: the initial times,
    the two lead times and the grid coordinates are the arguments, and for
    every initial time the x-y matrix stored is the field computed for it. So
    no entry is left empty, and a failure at any one initial time fails the
    whole run. *)
Theorem xy_fields_of_all_init_times
        (min_buffer_distances_metres max_buffer_distances_metres
           : list (option Q))
        (init_times : list Z)
        (min_lead_time_sec max_lead_time_sec lead_time_resolution_sec : Z)
        (interp_to_latlng_grid : bool)
        (prob_radius_for_grid_metres : Q)
        (smoothing_method : option smoothing)
        (d : gridded_forecast_dict) :
  create_forecast_grids _extrapolate_polygons point_in_or_on_polygon
    apply_gaussian apply_cressman _interp_probabilities_to_latlng_grid
    storm_objects_at grid_point_x_coords_metres grid_point_y_coords_metres
    grid_spacing_x_metres grid_spacing_y_metres
    min_buffer_distances_metres max_buffer_distances_metres init_times
    min_lead_time_sec max_lead_time_sec lead_time_resolution_sec
    interp_to_latlng_grid prob_radius_for_grid_metres smoothing_method
    = Ok d ->
  init_times_unix_sec d = init_times /\
  min_lead_time d = min_lead_time_sec /\
  max_lead_time d = max_lead_time_sec /\
  grid_x_coords_metres d = grid_point_x_coords_metres /\
  grid_y_coords_metres d = grid_point_y_coords_metres /\
  length (xy_probabilities d) = length init_times /\
  exists lead_times,
    LeadTimes.lead_times_seconds min_lead_time_sec max_lead_time_sec
      lead_time_resolution_sec = Ok lead_times /\
    forall i, i < length init_times ->
      exists m,
        xy_field_for_init_time _extrapolate_polygons point_in_or_on_polygon
          apply_gaussian apply_cressman storm_objects_at
          grid_point_x_coords_metres grid_point_y_coords_metres
          grid_spacing_x_metres grid_spacing_y_metres lead_times
          smoothing_method i = Ok m /\
        xy_probabilities d !! i = Some (Some m).
Proof.
  intros Hrun. unfold create_forecast_grids in Hrun.
  apply rbind_Ok in Hrun as (lead_times & Hlead & Hrun).
  apply rbind_Ok in Hrun as (_ & _ & Hrun).
  apply rbind_Ok in Hrun as (_ & _ & Hrun).
  apply rbind_Ok in Hrun as (_ & _ & Hrun).
  apply (foldM_seq_inv
           (fun k t =>
              init_times_unix_sec t = init_times /\
              min_lead_time t = min_lead_time_sec /\
              max_lead_time t = max_lead_time_sec /\
              grid_x_coords_metres t = grid_point_x_coords_metres /\
              grid_y_coords_metres t = grid_point_y_coords_metres /\
              length (xy_probabilities t) = length init_times /\
              forall i, i < k ->
                exists m, xy_field lead_times smoothing_method i = Ok m /\
                          xy_probabilities t !! i = Some (Some m)))
    in Hrun.
  - destruct Hrun as (? & ? & ? & ? & ? & ? & Hall).
    repeat (split; [done|]). by exists lead_times.
  - simpl. repeat (split; [done|]).
    split; [by rewrite length_replicate | lia].
  - intros k t t' Hk (H1 & H2 & H3 & H4 & H5 & Hlen & Hall) Hstep.
    apply init_time_step_Ok in Hstep
      as (m & Hm & -> & -> & -> & -> & -> & Hxy & _).
    repeat (split; [done|]). rewrite Hxy.
    split; [by rewrite length_insert|].
    intros i Hi. destruct (decide (i = k)) as [->|Hne].
    + exists m. split; [done|]. apply list_lookup_insert_eq. lia.
    + destruct (Hall i ltac:(lia)) as (m' & Hm' & Hi').
      exists m'. split; [done|]. by rewrite list_lookup_insert_ne.
Qed.

(** X17.  Which of the three geographic keys a returned dictionary has: the
    lat-long matrices exactly when interpolation was asked for, the latitudes
    and the longitudes exactly when it was asked for and there is at least one
    initial time. *)
Theorem latlng_keys_present_iff
        (min_buffer_distances_metres max_buffer_distances_metres
           : list (option Q))
        (init_times : list Z)
        (min_lead_time_sec max_lead_time_sec lead_time_resolution_sec : Z)
        (interp_to_latlng_grid : bool)
        (prob_radius_for_grid_metres : Q)
        (smoothing_method : option smoothing)
        (d : gridded_forecast_dict) :
  create_forecast_grids _extrapolate_polygons point_in_or_on_polygon
    apply_gaussian apply_cressman _interp_probabilities_to_latlng_grid
    storm_objects_at grid_point_x_coords_metres grid_point_y_coords_metres
    grid_spacing_x_metres grid_spacing_y_metres
    min_buffer_distances_metres max_buffer_distances_metres init_times
    min_lead_time_sec max_lead_time_sec lead_time_resolution_sec
    interp_to_latlng_grid prob_radius_for_grid_metres smoothing_method
    = Ok d ->
  (is_Some (latlng_probabilities d) <-> interp_to_latlng_grid = true) /\
  (is_Some (grid_latitudes_deg d) <->
   interp_to_latlng_grid = true /\ init_times <> []) /\
  (is_Some (grid_longitudes_deg d) <->
   interp_to_latlng_grid = true /\ init_times <> []).
Proof.
  intros Hrun. unfold create_forecast_grids in Hrun.
  apply rbind_Ok in Hrun as (lead_times & Hlead & Hrun).
  apply rbind_Ok in Hrun as (_ & _ & Hrun).
  apply rbind_Ok in Hrun as (_ & _ & Hrun).
  apply rbind_Ok in Hrun as (_ & _ & Hrun).
  apply (foldM_seq_inv
           (fun k t =>
              (is_Some (latlng_probabilities t) <->
               interp_to_latlng_grid = true) /\
              (is_Some (grid_latitudes_deg t) <->
               interp_to_latlng_grid = true /\ 0 < k) /\
              (is_Some (grid_longitudes_deg t) <->
               interp_to_latlng_grid = true /\ 0 < k)))
    in Hrun.
  - destruct Hrun as (H1 & H2 & H3). split; [done|].
    assert (0 < length init_times <-> init_times <> []) as Hne.
    { destruct init_times; simpl; split; (done || lia). }
    rewrite <- Hne. done.
  - simpl. split.
    + destruct interp_to_latlng_grid; split; (done || by intros [? ?]).
    + split; (split; [by intros [? ?] | intros [_ ?]; lia]).
  - intros k t t' Hk (H1 & H2 & H3) Hstep.
    apply init_time_step_Ok in Hstep as (m & _ & _ & _ & _ & _ & _ & _ & Hgeo).
    destruct interp_to_latlng_grid.
    + destruct Hgeo as (matrices & _ & -> & Hcoords).
      split; [done|]. case_decide.
      * destruct Hcoords as [-> ->].
        split; (etrans; [done|]; split; intros [? ?]; split; (done || lia)).
      * destruct Hcoords as [-> ->].
        split; (split; [intros _; split; (done || lia) | done]).
    + destruct Hgeo as (-> & -> & ->). split; [done|]. split.
      * split; [intros [? _]%H2; done | by intros [? _]].
      * split; [intros [? _]%H3; done | by intros [? _]].
Qed.

(** X18.  One storm polygon wholly to the right of the last grid column, or
    wholly above the last grid row, at any one initial time makes the whole
    run raise: no dictionary is returned, also not for the other initial
    times. *)
Theorem storm_beyond_grid_aborts_run
        (min_buffer_distances_metres max_buffer_distances_metres
           : list (option Q))
        (init_times : list Z)
        (min_lead_time_sec max_lead_time_sec lead_time_resolution_sec : Z)
        (interp_to_latlng_grid : bool)
        (prob_radius_for_grid_metres : Q)
        (smoothing_method : option smoothing)
        (i : nat) (row : list buffer) (b : buffer) :
  i < length init_times ->
  row ∈ storm_objects_at i -> b ∈ row ->
  Forall (fun x => (x < min_x (polygon_object_xy b))%Q)
         grid_point_x_coords_metres \/
  Forall (fun y => (y < min_y (polygon_object_xy b))%Q)
         grid_point_y_coords_metres ->
  raises
    (create_forecast_grids _extrapolate_polygons point_in_or_on_polygon
       apply_gaussian apply_cressman _interp_probabilities_to_latlng_grid
       storm_objects_at grid_point_x_coords_metres grid_point_y_coords_metres
       grid_spacing_x_metres grid_spacing_y_metres
       min_buffer_distances_metres max_buffer_distances_metres init_times
       min_lead_time_sec max_lead_time_sec lead_time_resolution_sec
       interp_to_latlng_grid prob_radius_for_grid_metres smoothing_method).
Proof.
  intros Hi Hrow Hb Hbeyond.
  match goal with
  | |- raises ?r => destruct r as [d|e] eqn:Hrun; [exfalso | by exists e]
  end.
  unfold create_forecast_grids in Hrun.
  apply rbind_Ok in Hrun as (lead_times & Hlead & Hrun).
  apply rbind_Ok in Hrun as (_ & _ & Hrun).
  apply rbind_Ok in Hrun as (_ & _ & Hrun).
  apply rbind_Ok in Hrun as (_ & _ & Hrun).
  destruct (run_computes_every_field _ _ _ _ _ _ Hrun i Hi) as [m Hm].
  unfold xy_field_for_init_time in Hm.
  apply rbind_Ok in Hm as (table & Htable & _).
  apply polygons_to_grid_points_Ok in Htable.
  apply list_elem_of_lookup_1 in Hrow as [k Hk].
  destruct (Forall2_lookup_l _ _ _ _ _ Htable Hk) as (row' & _ & Hrow').
  apply list_elem_of_lookup_1 in Hb as [j Hj].
  destruct (Forall2_lookup_l _ _ _ _ _ Hrow' Hj) as (b' & _ & _ & _ & Hfind).
  destruct Hbeyond as [Hx|Hy].
  - by rewrite (polygon_right_of_grid_raises point_in_or_on_polygon) in Hfind.
  - by rewrite (polygon_above_grid_raises point_in_or_on_polygon) in Hfind.
Qed.

End PipelineSpec.

Section PipelineExamples.
Import Numpy Rasterizer Forecast Scenario.

Lemma xy_field_has_grid_shape_witness :
  exists grid,
    xy_field_for_init_time (moving 0 0) in_bounding_box no_smoother
      no_smoother storms_by_init_time grid_points grid_points 1000 1000
      [0; 60; 120]%Z None 0 = Ok grid /\
    length grid = length grid_points /\
    Forall (fun row => length row = length grid_points) grid.
Proof.
  destruct (xy_field_for_init_time (moving 0 0) in_bounding_box no_smoother
              no_smoother storms_by_init_time grid_points grid_points
              1000 1000 [0; 60; 120]%Z None 0) as [grid|e] eqn:H;
    [|vm_compute in H; discriminate H].
  exists grid. split; [reflexivity|].
  eapply xy_field_has_grid_shape. exact H.
Defined.

Lemma returned_dictionary_means_valid_arguments_witness :
  (0 <= 0)%Z /\ (0 < 120)%Z /\ (0 < 60)%Z /\ (0 < 10000)%Q /\
  [Some 0%Q] <> [] /\
  Buffers._check_distance_buffers [Some 0%Q] [Some 5000%Q] = Ok tt.
Proof.
  destruct (create_forecast_grids (moving 0 0) in_bounding_box no_smoother
              no_smoother plate_carree storms_by_init_time grid_points
              grid_points 1000 1000 [Some 0%Q] [Some 5000%Q] [0%Z; 300%Z]
              0 120 60 true 10000 None) as [d|e] eqn:Hrun;
    [|vm_compute in Hrun; discriminate Hrun].
  eapply returned_dictionary_means_valid_arguments.
  exists d. exact Hrun.
Defined.

Lemma polygons_to_grid_points_returns_iff_witness :
  returns (_polygons_to_grid_points in_bounding_box grid_points grid_points
             one_storm).
Proof.
  apply (polygons_to_grid_points_returns_iff in_bounding_box grid_points
           grid_points one_storm grid_points_ascending
           grid_points_ascending).
  apply Forall_cons. split; [|by apply Forall_nil].
  apply Forall_cons. split; [|by apply Forall_nil].
  split; apply Exists_exists; exists 1000%Q;
    (split; [apply list_elem_of_In; simpl; tauto | by apply Qle_bool_iff]).
Defined.

Lemma stored_memberships_fit_the_grid_witness :
  length [1; 1; 2; 2]%Z = length [1; 2; 1; 2]%Z /\
  NoDup (zip [1; 1; 2; 2]%Z [1; 2; 1; 2]%Z) /\
  Forall (fun r => (0 <= r < Z.of_nat (num_xy_rows grid_points))%Z)
         [1; 1; 2; 2]%Z /\
  Forall (fun c => (0 <= c < Z.of_nat (num_xy_columns grid_points))%Z)
         [1; 2; 1; 2]%Z /\
  returns (add_contribution (num_xy_rows grid_points)
             (num_xy_columns grid_points) two_storms_accumulated
             [1; 1; 2; 2]%Z [1; 2; 1; 2]%Z 0.5%float).
Proof.
  apply (stored_memberships_fit_the_grid in_bounding_box grid_points
           grid_points one_storm one_storm_on_grid two_storms_accumulated
           [rasterized (rectangle 1000 1000 2000 2000) 0.5%float
              [1; 1; 2; 2]%Z [1; 2; 1; 2]%Z]
           (rasterized (rectangle 1000 1000 2000 2000) 0.5%float
              [1; 1; 2; 2]%Z [1; 2; 1; 2]%Z)
           grid_points_ascending grid_points_ascending).
  - reflexivity.
  - apply list_elem_of_here.
  - apply list_elem_of_here.
  - split; (split; [reflexivity | repeat constructor]).
Defined.

Lemma xy_fields_of_all_init_times_witness :
  exists d,
    create_forecast_grids (moving 0 0) in_bounding_box no_smoother
      no_smoother plate_carree storms_by_init_time grid_points grid_points
      1000 1000 [Some 0%Q] [Some 5000%Q] [0%Z; 300%Z] 0 120 60 false 10000
      None = Ok d /\
    init_times_unix_sec d = [0%Z; 300%Z] /\
    length (xy_probabilities d) = 2.
Proof.
  destruct (create_forecast_grids (moving 0 0) in_bounding_box no_smoother
              no_smoother plate_carree storms_by_init_time grid_points
              grid_points 1000 1000 [Some 0%Q] [Some 5000%Q] [0%Z; 300%Z]
              0 120 60 false 10000 None) as [d|e] eqn:Hrun;
    [|vm_compute in Hrun; discriminate Hrun].
  exists d. split; [reflexivity|].
  destruct (xy_fields_of_all_init_times _ _ _ _ _ _ _ _ _ _ _ _ _ _ _ _ _
              _ _ _ Hrun) as (Htimes & _ & _ & _ & _ & Hlen & _).
  split; [exact Htimes | exact Hlen].
Defined.

Lemma latlng_keys_present_iff_witness :
  exists d,
    create_forecast_grids (moving 0 0) in_bounding_box no_smoother
      no_smoother plate_carree storms_by_init_time grid_points grid_points
      1000 1000 [Some 0%Q] [Some 5000%Q] [] 0 120 60 true 10000 None
      = Ok d /\
    is_Some (latlng_probabilities d) /\
    ~ is_Some (grid_latitudes_deg d) /\
    ~ is_Some (grid_longitudes_deg d).
Proof.
  destruct (create_forecast_grids (moving 0 0) in_bounding_box no_smoother
              no_smoother plate_carree storms_by_init_time grid_points
              grid_points 1000 1000 [Some 0%Q] [Some 5000%Q] []
              0 120 60 true 10000 None) as [d|e] eqn:Hrun;
    [|vm_compute in Hrun; discriminate Hrun].
  exists d. split; [reflexivity|].
  destruct (latlng_keys_present_iff _ _ _ _ _ _ _ _ _ _ _ _ _ _ _ _ _
              _ _ _ Hrun) as (Hmatrices & Hlat & Hlng).
  split; [by apply Hmatrices|].
  split; [intros [_ Hne]%Hlat | intros [_ Hne]%Hlng]; by apply Hne.
Defined.

Lemma storm_beyond_grid_aborts_run_witness :
  raises (create_forecast_grids (moving 0 0) in_bounding_box no_smoother
            no_smoother plate_carree
            (fun i => match i with
                      | O => one_storm
                      | S _ => [[unrasterized (rectangle 5000 0 6000 1000)
                                   0.5%float]]
                      end)
            grid_points grid_points 1000 1000 [Some 0%Q] [Some 5000%Q]
            [0%Z; 300%Z] 0 120 60 false 10000 None).
Proof.
  apply (storm_beyond_grid_aborts_run (moving 0 0) in_bounding_box
           no_smoother no_smoother plate_carree _ grid_points grid_points
           1000 1000 [Some 0%Q] [Some 5000%Q] [0%Z; 300%Z] 0 120 60 false
           10000 None 1
           [unrasterized (rectangle 5000 0 6000 1000) 0.5%float]
           (unrasterized (rectangle 5000 0 6000 1000) 0.5%float)).
  - simpl. lia.
  - apply list_elem_of_here.
  - apply list_elem_of_here.
  - left. repeat (apply Forall_cons; split); try apply Forall_nil;
      reflexivity.
Defined.

End PipelineExamples.

(** ** More about the area normalisation *)

Section NormalizationSpec.
Import Normalization.
Local Open Scope R_scope.

Lemma power_nonneg (x y : R) : 0 <= power x y.
Proof.
  unfold power. destruct (Req_dec_T x 0).
  - destruct (Req_dec_T y 0); lra.
  - left. apply exp_pos.
Qed.

(** [power] grows with a base that is not negative, for a positive
    exponent. *)
Lemma power_mono_base (x x' y : R) :
  0 <= x <= x' -> 0 < y -> power x y <= power x' y.
Proof.
  intros [Hx Hxx'] Hy. unfold power at 1.
  destruct (Req_dec_T x 0) as [-> | Hne].
  - destruct (Req_dec_T y 0); [lra | apply power_nonneg].
  - unfold power. destruct (Req_dec_T x' 0); [lra|].
    apply Rle_Rpower_l; lra.
Qed.

(** [power] of a base in [0, 1] falls when the positive exponent grows. *)
Lemma power_anti_exponent (x y y' : R) :
  0 <= x <= 1 -> 0 < y <= y' -> power x y' <= power x y.
Proof.
  intros [Hx0 Hx1] [Hy Hyy']. unfold power.
  destruct (Req_dec_T x 0) as [-> | Hne].
  - destruct (Req_dec_T y' 0), (Req_dec_T y 0); lra.
  - assert (ln x <= 0) as Hln.
    { destruct (Rle_lt_or_eq_dec _ _ Hx1) as [Hlt | ->].
      - left. rewrite <- ln_1. apply ln_increasing; lra.
      - rewrite ln_1. lra. }
    unfold Rpower.
    assert (y' * ln x <= y * ln x) as Hle.
    { apply Rmult_le_compat_neg_l with (r := ln x) in Hyy'; [|done].
      by rewrite !(Rmult_comm _ (ln x)). }
    destruct Hle as [Hlt | ->]; [left; by apply exp_increasing | lra].
Qed.

Lemma grid_area_positive (r : R) : 0 < r -> 0 < PI * r ^ 2.
Proof.
  intros Hr. apply Rmult_lt_0_compat; [apply PI_RGT_0 | by apply pow_lt].
Qed.







End NormalizationSpec.

(** ** More about the distance buffers *)

Section BufferSpec2.
Import Rounding Buffers.

(** Rounding to the nearest integer keeps the order. *)
Lemma round_half_even_mono (x y : Q) :
  (x <= y)%Q -> (round_half_even x <= round_half_even y)%Z.
Proof.
  intros Hxy.
  pose proof (Qfloor_resp_le _ _ Hxy) as Hfloor.
  pose proof (round_half_even_near_floor x) as Hx.
  pose proof (round_half_even_near_floor y) as Hy.
  destruct (decide (Qfloor x = Qfloor y)) as [E|]; [|lia].
  clear Hx Hy Hfloor. unfold round_half_even. rewrite <- E.
  destruct (Qcompare_spec (x - inject_Z (Qfloor x)) (1 # 2)) as [Hx|Hx|Hx];
    destruct (Qcompare_spec (y - inject_Z (Qfloor x)) (1 # 2)) as [Hy|Hy|Hy];
    try (destruct (Z.even (Qfloor x)); lia); try lia;
    exfalso; Lqa.lra.
Qed.

(** [sorts_before] is a total preorder. *)
Lemma sorts_before_total (a b : option Q) :
  sorts_before a b = false -> sorts_before b a = true.
Proof.
  destruct a as [x|], b as [y|]; simpl; try done.
  intros H. apply Qle_bool_iff.
  apply Qlt_le_weak, Qnot_le_lt. intros Hle.
  apply Qle_bool_iff in Hle. congruence.
Qed.

Lemma sorts_before_trans (a b c : option Q) :
  sorts_before a b = true -> sorts_before b c = true ->
  sorts_before a c = true.
Proof.
  destruct a as [x|], b as [y|], c as [z|]; simpl; try done.
  rewrite !Qle_bool_iff. apply Qle_trans.
Qed.

Lemma insert_sorted_sorted (key : nat -> option Q) (i : nat) (l : list nat) :
  StronglySorted (fun j k => sorts_before (key j) (key k) = true) l ->
  StronglySorted (fun j k => sorts_before (key j) (key k) = true)
                 (insert_sorted key i l).
Proof.
  induction 1 as [|j l Hs IH Hj]; simpl.
  - repeat constructor.
  - destruct (sorts_before (key j) (key i)) eqn:E.
    + constructor; [done|].
      rewrite insert_sorted_perm. by constructor.
    + apply sorts_before_total in E.
      constructor; [by constructor|]. constructor; [done|].
      eapply Forall_impl; [exact Hj|]. simpl.
      intros k. by apply sorts_before_trans.
Qed.

Lemma argsort_sorted (xs : list (option Q)) :
  StronglySorted
    (fun j k => sorts_before (default None (xs !! j))
                             (default None (xs !! k)) = true)
    (argsort xs).
Proof.
  unfold argsort.
  enough (forall l acc,
            StronglySorted
              (fun j k => sorts_before (default None (xs !! j))
                                       (default None (xs !! k)) = true) acc ->
            StronglySorted
              (fun j k => sorts_before (default None (xs !! j))
                                       (default None (xs !! k)) = true)
              (fold_left
                 (fun acc i =>
                    insert_sorted (fun k => default None (xs !! k)) i acc)
                 l acc)) as H.
  { apply H. constructor. }
  induction l as [|i l IH]; intros acc Hacc; simpl; [done|].
  apply IH. by apply (insert_sorted_sorted (fun k => default None (xs !! k))).
Qed.

(** The maxima of the rounded buffers: strictly below, and not above. *)
Local Abbreviation max_below b b' :=
  (exists x y : Z, b.2 = Some x /\ b'.2 = Some y /\ (x < y)%Z).
Local Abbreviation max_not_above b b' :=
  (match b.2, b'.2 with
   | Some x, Some y => (x <= y)%Z
   | None, Some _ => False
   | _, None => True
   end).

Lemma sorted_rounded_sorted (mins maxs : list (option Q)) :
  StronglySorted (fun b b' : option Z * option Z => max_not_above b b')
                 (sorted_rounded mins maxs).
Proof.
  rewrite sorted_rounded_alt.
  pose proof (argsort_sorted maxs) as H.
  induction H as [|j l Hs IH Hj]; simpl; constructor; [done|].
  apply Forall_fmap. eapply Forall_impl; [exact Hj|]. simpl.
  intros k Hjk.
  destruct (default None (maxs !! j)) as [x|],
           (default None (maxs !! k)) as [y|]; simpl in *; try done.
  apply round_half_even_mono. by apply Qle_bool_iff.
Qed.

(** In an accepted chain the maxima increase strictly, and every buffer
    after the first has a minimum that is a number. *)
Lemma chain_maxima_increase (p : Z) (l : list (option Z * option Z)) :
  check_sorted (Some (Some p)) l = Ok tt ->
  Forall (fun b => exists x, b.2 = Some x /\ (p < x)%Z) l /\
  StronglySorted (fun b b' : option Z * option Z => max_below b b') l /\
  Forall (fun b => is_Some b.1) l.
Proof.
  revert p. induction l as [|[mn mx] l IH]; intros p H.
  - repeat split; constructor.
  - apply check_sorted_iff in H as (Hv & Hab & Hmn & _).
    simpl in Hmn. subst mn.
    apply Forall_cons in Hv as [Hhd Hv]. simpl in Hhd.
    destruct mx as [x|]; [|done].
    assert (check_sorted (Some (Some x)) l = Ok tt) as Hrest.
    { apply check_sorted_iff. split; [done|].
      inversion Hab as [| |? ? ? Hfst Hab']; subst.
      - repeat split; constructor.
      - by repeat split. }
    destruct (IH x Hrest) as (Hgt & Hs & Hsome). split; [|split].
    + constructor; [by exists x|].
      eapply Forall_impl; [exact Hgt|].
      intros b (y & Hy & Hlt). exists y. split; [done | lia].
    + constructor; [done|].
      eapply Forall_impl; [exact Hgt|].
      intros b (y & Hy & Hlt). by exists x, y.
    + constructor; [by eexists | done].
Qed.

Lemma accepted_chain (l : list (option Z * option Z)) :
  check_sorted None l = Ok tt ->
  StronglySorted (fun b b' : option Z * option Z => max_below b b') l /\
  Forall (fun b => is_Some b.2) l /\
  Forall (fun b => is_Some b.1) (tail l).
Proof.
  destruct l as [|[mn mx] l]; intros H; [repeat split; constructor|].
  apply check_sorted_iff in H as (Hv & Hab & _).
  apply Forall_cons in Hv as [Hhd Hv].
  assert (exists x, mx = Some x) as [x ->].
  { destruct mx as [x|]; [by exists x | by destruct mn]. }
  assert (check_sorted (Some (Some x)) l = Ok tt) as Hrest.
  { apply check_sorted_iff. split; [done|].
    inversion Hab as [| |? ? ? Hfst Hab']; subst.
    - repeat split; constructor.
    - by repeat split. }
  destruct (chain_maxima_increase x l Hrest) as (Hgt & Hs & Hsome).
  split; [|split; [|done]].
  - constructor; [done|].
    eapply Forall_impl; [exact Hgt|].
    intros b (y & Hy & Hlt). by exists x, y.
  - constructor; [by eexists|].
    eapply Forall_impl; [exact Hgt|].
    intros b (y & Hy & _). rewrite Hy. by eexists.
Qed.

(** Two arrangements of the same elements, one in an order and the other in
    an order that never contradicts it, are the same list. *)
Lemma sorted_perm_unique {A} (R R' : A -> A -> Prop) (l l' : list A) :
  (forall a b, R a b -> R' b a -> False) ->
  StronglySorted R l -> StronglySorted R' l' -> l ≡ₚ l' -> l = l'.
Proof.
  intros Hanti Hs. revert l'.
  induction Hs as [|a l Hs IH Ha]; intros l' Hs' Hperm.
  - by apply Permutation_nil in Hperm.
  - destruct Hs' as [|a' l' Hs' Ha'].
    { symmetry in Hperm. by apply Permutation_nil in Hperm. }
    assert (a = a') as <-.
    { assert (a' ∈ a :: l) as [->|Hin]%elem_of_cons
        by (rewrite Hperm; left); [done|].
      assert (a ∈ a' :: l') as [->|Hin']%elem_of_cons
        by (rewrite <- Hperm; left); [done|].
      exfalso. rewrite Forall_forall in Ha. rewrite Forall_forall in Ha'.
      apply (Hanti a a'); [by apply Ha | by apply Ha']. }
    f_equal. apply IH; [done|]. by apply Permutation_cons_inv in Hperm.
Qed.

Lemma accepted_check_sorted (mins maxs : list (option Q)) :
  _check_distance_buffers mins maxs = Ok tt ->
  check_sorted None (sorted_rounded mins maxs) = Ok tt.
Proof.
  intros (_ & _ & Hv & Hab)%check_distance_buffers_iff.
  apply check_sorted_iff. by repeat split.
Qed.

Lemma max_below_NoDup (l : list (option Z * option Z)) :
  StronglySorted (fun b b' : option Z * option Z => max_below b b') l ->
  NoDup l.*2.
Proof.
  induction 1 as [|b l Hs IH Hb]; simpl; constructor; [|done].
  intros (b' & Heq & Hin)%list_elem_of_fmap.
  rewrite Forall_forall in Hb.
  destruct (Hb b' Hin) as (x & y & Hx & Hy & Hlt).
  rewrite Hx, Hy in Heq. injection Heq as ->. lia.
Qed.

Lemma filter_None_is_Some {A} (l : list (option A)) :
  Forall is_Some l -> filter (fun m => m = None) l = [].
Proof.
  induction 1 as [|m l [x ->] _ IH]; [done|].
  by rewrite filter_cons_False.
Qed.

Lemma filter_None_np_round (mins : list (option Q)) :
  length (filter (fun m => m = None) (np_round <$> mins)) =
  length (filter (fun m => m = None) mins).
Proof.
  induction mins as [|[q|] mins IH]; [done|..]; rewrite fmap_cons.
  - by rewrite !filter_cons_False.
  - rewrite !filter_cons_True by done. simpl. by rewrite IH.
Qed.

(** X22.  An accepted set of buffers has no NaN among its maxima, no two
    maxima that round to the same metre, and at most one NaN minimum: the only
    buffer without an inner edge is the innermost one. *)
Theorem accepted_buffers_are_distinct (mins maxs : list (option Q)) :
  _check_distance_buffers mins maxs = Ok tt ->
  Forall is_Some maxs /\
  NoDup (np_round <$> maxs) /\
  length (filter (fun m => m = None) mins) <= 1.
Proof.
  intros H.
  pose proof H as (_ & Hlen & _)%check_distance_buffers_iff.
  apply accepted_check_sorted, accepted_chain in H as (Hs & Hmax & Htail).
  pose proof (sorted_rounded_perm mins maxs Hlen) as Hperm.
  assert ((sorted_rounded mins maxs).*2 ≡ₚ np_round <$> maxs) as Hsnd.
  { rewrite Hperm, snd_zip; [done|]. rewrite !length_fmap. lia. }
  assert ((sorted_rounded mins maxs).*1 ≡ₚ np_round <$> mins) as Hfst.
  { rewrite Hperm, fst_zip; [done|]. rewrite !length_fmap. lia. }
  split; [|split].
  - assert (Forall is_Some (np_round <$> maxs)) as Hall.
    { rewrite <- Hsnd. by apply Forall_fmap. }
    rewrite Forall_fmap in Hall. eapply Forall_impl; [exact Hall|].
    intros [x|] [y Hy]; [by eexists | done].
  - rewrite <- Hsnd. by apply max_below_NoDup.
  - rewrite <- filter_None_np_round, <- Hfst.
    destruct (sorted_rounded mins maxs) as [|b l]; [simpl; lia|].
    simpl in Htail. rewrite fmap_cons.
    assert (filter (fun m => m = None) l.*1 = []) as Hnil.
    { apply filter_None_is_Some. by apply Forall_fmap. }
    destruct (decide (b.1 = None)).
    + rewrite filter_cons_True, Hnil by done. simpl. lia.
    + rewrite filter_cons_False, Hnil by done. simpl. lia.
Qed.

Lemma accepted_buffers_are_distinct_witness :
  Forall is_Some [Some 5000%Q; Some 0%Q; Some 10000%Q] /\
  NoDup (np_round <$> [Some 5000%Q; Some 0%Q; Some 10000%Q]) /\
  length (filter (fun m => m = None) [Some 0%Q; None; Some 5000%Q]) <= 1.
Proof.
  apply (accepted_buffers_are_distinct [Some 0%Q; None; Some 5000%Q]
           [Some 5000%Q; Some 0%Q; Some 10000%Q]).
  reflexivity.
Defined.

Lemma accepted_after_reordering (mins maxs mins' maxs' : list (option Q)) :
  length maxs = length mins -> length maxs' = length mins' ->
  zip mins maxs ≡ₚ zip mins' maxs' ->
  _check_distance_buffers mins maxs = Ok tt ->
  _check_distance_buffers mins' maxs' = Ok tt.
Proof.
  intros Hlen Hlen' Hperm H.
  pose proof H as (Hmins & _ & Hv & Hab)%check_distance_buffers_iff.
  apply accepted_check_sorted, accepted_chain in H as (Hs & _ & _).
  assert (sorted_rounded mins maxs = sorted_rounded mins' maxs') as Heq.
  { apply (sorted_perm_unique
             (fun b b' : option Z * option Z => max_below b b')
             (fun b b' : option Z * option Z => max_not_above b b')).
    - intros a b (x & y & Hx & Hy & Hlt). rewrite Hx, Hy. lia.
    - done.
    - apply sorted_rounded_sorted.
    - rewrite (sorted_rounded_perm mins maxs Hlen).
      rewrite (sorted_rounded_perm mins' maxs' Hlen').
      rewrite <- !prod_map_zip. by rewrite Hperm. }
  apply check_distance_buffers_iff.
  rewrite <- Heq. split; [|done].
  assert (mins ≡ₚ mins') as <-; [|done].
  rewrite <- (fst_zip mins maxs), <- (fst_zip mins' maxs') by lia.
  by rewrite Hperm.
Qed.

(** X23.  The order in which the buffers are given does not matter: the same
    pairs of minimum and maximum in another order are accepted exactly when
    the first arrangement is. *)
Theorem buffer_order_is_irrelevant (mins maxs mins' maxs' : list (option Q)) :
  length maxs = length mins -> length maxs' = length mins' ->
  zip mins maxs ≡ₚ zip mins' maxs' ->
  _check_distance_buffers mins maxs = Ok tt <->
  _check_distance_buffers mins' maxs' = Ok tt.
Proof.
  intros Hlen Hlen' Hperm. split.
  - by apply accepted_after_reordering.
  - by apply accepted_after_reordering.
Qed.

Lemma buffer_order_is_irrelevant_witness :
  _check_distance_buffers [Some 0%Q; None] [Some 5000%Q; Some 0%Q] = Ok tt <->
  _check_distance_buffers [None; Some 0%Q] [Some 0%Q; Some 5000%Q] = Ok tt.
Proof.
  apply buffer_order_is_irrelevant.
  - reflexivity.
  - reflexivity.
  - apply perm_swap.
Defined.

End BufferSpec2.

(** ** More about the translation of grid membership *)

Section TranslationSpec.
Import Numpy Rounding Rasterizer Forecast.

Lemma int_round_quotient_returns (diff spacing : Q) (z : Z) :
  int_round_quotient diff spacing = Ok z ->
  ~ (spacing == 0)%Q /\ z = round_half_even (diff / spacing).
Proof.
  unfold int_round_quotient.
  destruct (Qeq_bool spacing 0) eqn:E.
  - by destruct (Qeq_bool diff 0).
  - intros [= <-]. split; [|done].
    intros H. apply Qeq_bool_iff in H. congruence.
Qed.

(** What a call that returns has computed for storm object [i] and
    buffer [j]. *)
Lemma extrap_cell (orig_storm_object_table : storm_object_table)
      (extrap_storm_object_table : list (list polygon))
      (grid_spacing_x_metres grid_spacing_y_metres : Q)
      (members : list (list (list Z * list Z))) (i j : nat) :
  _extrap_polygons_to_grid_points orig_storm_object_table
    extrap_storm_object_table grid_spacing_x_metres grid_spacing_y_metres
    = Ok members ->
  i < num_storm_objects orig_storm_object_table ->
  j < num_buffers orig_storm_object_table ->
  exists orig extrap this_row_diff this_column_diff,
    values orig_storm_object_table i j = Ok orig /\
    values extrap_storm_object_table i j = Ok extrap /\
    int_round_quotient
      (snd (first_vertex extrap) -
       snd (first_vertex (polygon_object_xy orig)))
      grid_spacing_y_metres = Ok this_row_diff /\
    int_round_quotient
      (fst (first_vertex extrap) -
       fst (first_vertex (polygon_object_xy orig)))
      grid_spacing_x_metres = Ok this_column_diff /\
    values members i j =
      Ok (map (fun r => (r + this_row_diff)%Z) (grid_rows_in_buffer orig),
          map (fun c => (c + this_column_diff)%Z)
              (grid_columns_in_buffer orig)).
Proof.
  unfold _extrap_polygons_to_grid_points. intros H Hi Hj.
  destruct (mapM_seq_lookup _ _ _ i H Hi) as (row & Hrow & Hbody).
  destruct (mapM_seq_lookup _ _ _ j Hbody Hj) as (cell & Hcell & Hij).
  apply rbind_Ok in Hij as (orig & Horig & Hij).
  apply rbind_Ok in Hij as (extrap & Hextrap & Hij).
  apply rbind_Ok in Hij as (dr & Hdr & Hij).
  apply rbind_Ok in Hij as (dc & Hdc & [= <-]).
  exists orig, extrap, dr, dc. repeat (split; [done|]).
  apply values_Ok. by exists row.
Qed.

(** X24.  A grid spacing of zero in either direction is refused as soon as
    there is one storm object with one buffer: the quotient of the
    displacement by the spacing is then an infinity or a NaN, which [int] does
    not take. *)
Theorem zero_grid_spacing_is_refused
        (orig_storm_object_table : storm_object_table)
        (extrap_storm_object_table : list (list polygon))
        (grid_spacing_x_metres grid_spacing_y_metres : Q) :
  0 < num_storm_objects orig_storm_object_table ->
  0 < num_buffers orig_storm_object_table ->
  (grid_spacing_x_metres == 0)%Q \/ (grid_spacing_y_metres == 0)%Q ->
  raises (_extrap_polygons_to_grid_points orig_storm_object_table
            extrap_storm_object_table grid_spacing_x_metres
            grid_spacing_y_metres).
Proof.
  intros HK HB Hzero.
  destruct (_extrap_polygons_to_grid_points _ _ _ _) as [members|e] eqn:H;
    [exfalso | by exists e].
  destruct (extrap_cell _ _ _ _ _ 0 0 H HK HB)
    as (orig & extrap & dr & dc & _ & _ & Hdr & Hdc & _).
  apply int_round_quotient_returns in Hdr as [Hy _].
  apply int_round_quotient_returns in Hdc as [Hx _].
  by destruct Hzero.
Qed.

Lemma round_half_even_within_half (q : Q) :
  (- (1 # 2) <= q)%Q -> (q <= 1 # 2)%Q -> round_half_even q = 0%Z.
Proof.
  intros Hlo Hhi.
  destruct (Qlt_le_dec q 0) as [Hneg|Hpos];
    [|by apply round_half_even_small].
  assert (Qfloor q = (-1)%Z) as Hfloor.
  { pose proof (Qfloor_le q) as H1. pose proof (Qlt_floor q) as H2.
    assert (- 1 <= q)%Q as Hge by Lqa.lra.
    pose proof (Qfloor_resp_le _ _ Hge) as H3.
    change (Qfloor (-1)) with (-1)%Z in H3.
    assert (Qfloor q < 0)%Z; [|lia].
    rewrite Zlt_Qlt. eapply Qle_lt_trans; [exact H1 | exact Hneg]. }
  unfold round_half_even. rewrite Hfloor.
  destruct (Qcompare_spec (q - inject_Z (-1)) (1 # 2)) as [H|H|H]; try done.
  exfalso. change (inject_Z (-1)) with (-1)%Q in H. Lqa.lra.
Qed.

Lemma quotient_within_half (diff spacing : Q) :
  (0 < spacing)%Q ->
  (- (spacing / 2) <= diff)%Q -> (diff <= spacing / 2)%Q ->
  (- (1 # 2) <= diff / spacing)%Q /\ (diff / spacing <= 1 # 2)%Q.
Proof.
  intros Hs Hlo Hhi.
  unfold Qdiv in Hlo, Hhi. change (/ 2)%Q with (1 # 2)%Q in Hlo, Hhi.
  split.
  - apply Qle_shift_div_l; [done|]. Lqa.lra.
  - apply Qle_shift_div_r; [done|]. Lqa.lra.
Qed.

(** X25.  A polygon whose first vertex has moved by at most half a grid
    spacing in each direction keeps its grid membership; exactly half a
    spacing still rounds to no shift. *)
Theorem half_cell_displacement_keeps_membership
        (orig_storm_object_table : storm_object_table)
        (extrap_storm_object_table : list (list polygon))
        (grid_spacing_x_metres grid_spacing_y_metres : Q)
        (members : list (list (list Z * list Z))) (i j : nat)
        (orig : buffer) (extrap : polygon) :
  _extrap_polygons_to_grid_points orig_storm_object_table
    extrap_storm_object_table grid_spacing_x_metres grid_spacing_y_metres
    = Ok members ->
  values orig_storm_object_table i j = Ok orig ->
  values extrap_storm_object_table i j = Ok extrap ->
  j < num_buffers orig_storm_object_table ->
  (0 < grid_spacing_x_metres)%Q -> (0 < grid_spacing_y_metres)%Q ->
  let dx := (fst (first_vertex extrap) -
             fst (first_vertex (polygon_object_xy orig)))%Q in
  let dy := (snd (first_vertex extrap) -
             snd (first_vertex (polygon_object_xy orig)))%Q in
  (- (grid_spacing_x_metres / 2) <= dx)%Q ->
  (dx <= grid_spacing_x_metres / 2)%Q ->
  (- (grid_spacing_y_metres / 2) <= dy)%Q ->
  (dy <= grid_spacing_y_metres / 2)%Q ->
  values members i j =
    Ok (grid_rows_in_buffer orig, grid_columns_in_buffer orig).
Proof.
  intros H Horig Hextrap Hj Hsx Hsy dx dy Hx1 Hx2 Hy1 Hy2.
  assert (i < num_storm_objects orig_storm_object_table) as Hi.
  { apply values_Ok in Horig as (row & Hrow & _).
    by apply lookup_lt_Some in Hrow. }
  destruct (extrap_cell _ _ _ _ _ i j H Hi Hj)
    as (orig' & extrap' & dr & dc & Horig' & Hextrap' & Hdr & Hdc & ->).
  rewrite Horig in Horig'. injection Horig' as <-.
  rewrite Hextrap in Hextrap'. injection Hextrap' as <-.
  apply int_round_quotient_returns in Hdr as [_ ->].
  apply int_round_quotient_returns in Hdc as [_ ->].
  destruct (quotient_within_half dx grid_spacing_x_metres Hsx Hx1 Hx2).
  destruct (quotient_within_half dy grid_spacing_y_metres Hsy Hy1 Hy2).
  fold dx dy. rewrite !round_half_even_within_half by done.
  do 2 f_equal; (etrans; [|apply map_id]); apply map_ext; intros; lia.
Qed.

End TranslationSpec.

Section TranslationExamples.
Import Numpy Rasterizer Forecast Scenario.

Lemma zero_grid_spacing_is_refused_witness :
  raises (_extrap_polygons_to_grid_points one_storm_on_grid
            (moving 0 0 one_storm_on_grid 60) 1000 0).
Proof.
  apply zero_grid_spacing_is_refused.
  - simpl. lia.
  - simpl. lia.
  - right. reflexivity.
Defined.

Lemma half_cell_displacement_keeps_membership_witness :
  exists members,
    _extrap_polygons_to_grid_points one_storm_on_grid
      (moving (500 # 60) (- (500 # 60)) one_storm_on_grid 60) 1000 1000
      = Ok members /\
    values members 0 0 = Ok ([1; 1; 2; 2]%Z, [1; 2; 1; 2]%Z).
Proof.
  destruct (_extrap_polygons_to_grid_points one_storm_on_grid
              (moving (500 # 60) (- (500 # 60)) one_storm_on_grid 60)
              1000 1000) as [members|e] eqn:H;
    [|vm_compute in H; discriminate H].
  exists members. split; [reflexivity|].
  apply (half_cell_displacement_keeps_membership one_storm_on_grid
           (moving (500 # 60) (- (500 # 60)) one_storm_on_grid 60)
           1000 1000 members 0 0
           (rasterized (rectangle 1000 1000 2000 2000) 0.5%float
              [1; 1; 2; 2]%Z [1; 2; 1; 2]%Z)
           (translate_polygon (inject_Z 60 * (500 # 60))
              (inject_Z 60 * - (500 # 60)) (rectangle 1000 1000 2000 2000))
           H);
    try reflexivity; try (simpl; lia); vm_compute; discriminate.
Defined.

End TranslationExamples.

(** ** When the accumulation over the lead times fails *)

Section AccumulateSpec.
Import Numpy Rounding Rasterizer Forecast.

Variable _extrapolate_polygons : storm_object_table -> Z -> list (list polygon).
Variables grid_point_x_coords_metres grid_point_y_coords_metres : list Q.
Variables grid_spacing_x_metres grid_spacing_y_metres : Q.

Local Abbreviation M := (num_xy_rows grid_point_y_coords_metres).
Local Abbreviation N := (num_xy_columns grid_point_x_coords_metres).

Local Abbreviation shifted_in_range :=
  (Forecast.shifted_in_range M N grid_spacing_x_metres grid_spacing_y_metres).

(** A loop in the error monad whose steps keep an invariant [I], and fail or
    not by a property [P] of the element alone. *)
Lemma foldM_returns_iff {S X} (I : S -> Prop) (P : X -> Prop)
      (f : S -> X -> result S) (l : list X) :
  (forall s x, x ∈ l -> I s ->
     (returns (f s x) <-> P x) /\ (forall s', f s x = Ok s' -> I s')) ->
  forall s, I s ->
    (returns (foldM f l s) <-> Forall P l) /\
    (forall s', foldM f l s = Ok s' -> I s').
Proof.
  induction l as [|x l IH]; intros Hstep s Hs; simpl.
  - split; [|by intros s' [= <-]].
    split; [constructor | by eexists].
  - destruct (Hstep s x) as [Hret Hinv]; [by left | done |].
    destruct (f s x) as [s1|e] eqn:Hf; simpl.
    + destruct (IH (fun s x Hx => Hstep s x (list_elem_of_further _ _ _ Hx))
                   s1 (Hinv s1 eq_refl)) as [IHret IHinv].
      split; [|done]. rewrite IHret, Forall_cons.
      split; [intros ?; split; [apply Hret; by eexists | done] | by intros []].
    + split; [|done]. split; [by intros [? ?]|].
      intros [HP _]%Forall_cons. apply Hret in HP as [? ?]. done.
Qed.

Lemma add_contribution_wf (acc acc' : accumulator)
      (these_rows these_columns : list Z) (p : float) :
  add_contribution M N acc these_rows these_columns p = Ok acc' ->
  wf_acc M N acc -> wf_acc M N acc'.
Proof.
  intros H Hwf. by destruct (add_contribution_adds M N 0 0 _ _ _ _ _ H Hwf).
Qed.

Lemma values_in_table {A} (table : list (list A)) (i j : nat) (a : A) :
  rectangular table -> values table i j = Ok a ->
  i < num_storm_objects table /\ j < num_buffers table /\
  exists row, row ∈ table /\ a ∈ row.
Proof.
  intros Hrect (row & Hrow & Hj)%values_Ok.
  unfold rectangular in Hrect. rewrite Forall_lookup in Hrect.
  split; [by eapply lookup_lt_Some|]. split.
  - rewrite <- (Hrect _ _ Hrow). by eapply lookup_lt_Some.
  - exists row. split; by eapply list_elem_of_lookup_2.
Qed.

Lemma extrap_returns (table : storm_object_table)
      (extrap : list (list polygon)) :
  ~ (grid_spacing_x_metres == 0)%Q -> ~ (grid_spacing_y_metres == 0)%Q ->
  rectangular table -> same_shape table extrap ->
  returns (_extrap_polygons_to_grid_points table extrap
             grid_spacing_x_metres grid_spacing_y_metres).
Proof.
  intros Hsx Hsy Hrect Hshape. unfold _extrap_polygons_to_grid_points.
  apply mapM_returns, Forall_forall. intros i Hi%elem_of_seq.
  apply mapM_returns, Forall_forall. intros j Hj%elem_of_seq.
  destruct (lookup_lt_is_Some_2 table i) as [row Hrow];
    [unfold num_storm_objects in Hi; lia|].
  destruct (Forall2_lookup_l _ _ _ _ _ Hshape Hrow) as (row' & Hrow' & Hlen).
  assert (length row = num_buffers table) as HB.
  { unfold rectangular in Hrect. rewrite Forall_lookup in Hrect. eauto. }
  destruct (lookup_lt_is_Some_2 row j) as [orig Horig]; [lia|].
  destruct (lookup_lt_is_Some_2 row' j) as [p Hp]; [lia|].
  assert (values table i j = Ok orig) as -> by (apply values_Ok; eauto).
  assert (values extrap i j = Ok p) as -> by (apply values_Ok; eauto).
  simpl. rewrite !int_round_quotient_Ok by done. simpl. by eexists.
Qed.

(** One pass of the two inner loops, for one lead time. *)
Lemma add_all_contributions_returns (table : storm_object_table)
      (extrap : list (list polygon))
      (members : list (list (list Z * list Z))) (acc : accumulator) :
  rectangular table ->
  Forall (Forall (fun b => length (grid_rows_in_buffer b) =
                           length (grid_columns_in_buffer b))) table ->
  _extrap_polygons_to_grid_points table extrap grid_spacing_x_metres
    grid_spacing_y_metres = Ok members ->
  wf_acc M N acc ->
  (returns (add_all_contributions grid_point_x_coords_metres
              grid_point_y_coords_metres table members acc) <->
   forall i j orig p,
     values table i j = Ok orig -> values extrap i j = Ok p ->
     shifted_in_range orig p) /\
  (forall acc',
     add_all_contributions grid_point_x_coords_metres
       grid_point_y_coords_metres table members acc = Ok acc' ->
     wf_acc M N acc').
Proof.
  intros Hrect Hlens Hmembers Hwf. unfold add_all_contributions.
  match goal with
  | |- (returns (foldM ?f _ _) <-> _) /\ _ =>
      destruct (foldM_returns_iff (wf_acc M N)
                  (fun j => forall i orig p,
                     values table i j = Ok orig ->
                     values extrap i j = Ok p -> shifted_in_range orig p)
                  f (seq 0 (num_buffers table))) with (s := acc)
        as [Hret Hinv]
  end; [|done|].
  - intros acc1 j Hj%elem_of_seq Hwf1.
    match goal with
    | |- (returns (foldM ?f _ _) <-> _) /\ _ =>
        destruct (foldM_returns_iff (wf_acc M N)
                    (fun i => forall orig p,
                       values table i j = Ok orig ->
                       values extrap i j = Ok p -> shifted_in_range orig p)
                    f (seq 0 (num_storm_objects table))) with (s := acc1)
          as [Hret Hinv]
    end; [|done|].
    + intros acc2 i Hi%elem_of_seq Hwf2.
      destruct (extrap_cell _ _ _ _ _ i j Hmembers)
        as (orig & p & dr & dc & Horig & Hp & Hdr & Hdc & Hcell);
        [lia..|].
      apply int_round_quotient_returns in Hdr as [_ ->].
      apply int_round_quotient_returns in Hdc as [_ ->].
      rewrite Hcell, Horig. simpl.
      assert (length (grid_rows_in_buffer orig) =
              length (grid_columns_in_buffer orig)) as Hlen.
      { destruct (values_in_table _ _ _ _ Hrect Horig)
          as (_ & _ & row & Hrow & Hin).
        rewrite Forall_forall in Hlens. specialize (Hlens _ Hrow).
        rewrite Forall_forall in Hlens. by apply Hlens. }
      split; [|intros acc3 H3; by eapply add_contribution_wf].
      rewrite add_contribution_returns; [|done|by rewrite !length_map].
      change (map ?f ?l) with (f <$> l). rewrite !Forall_fmap. split.
      * intros H orig' p' [= <-] Hp'. rewrite Hp in Hp'.
        injection Hp' as <-. exact H.
      * intros H. exact (H orig p eq_refl Hp).
    + split; [|done]. rewrite Hret, Forall_forall. split.
      * intros H i orig p Horig Hp.
        destruct (values_in_table _ _ _ _ Hrect Horig) as (Hi & _).
        apply (H i); [apply elem_of_seq; lia | done..].
      * intros H i _. by apply H.
  - split; [|done]. rewrite Hret, Forall_forall. split.
    + intros H i j orig p Horig Hp.
      destruct (values_in_table _ _ _ _ Hrect Horig) as (_ & Hj & _).
      apply (H j) with (i := i); [apply elem_of_seq; lia | done..].
    + intros H j _ i. by apply H.
Qed.


End AccumulateSpec.

Section AccumulateExamples.
Import Numpy Rasterizer Forecast Scenario.


End AccumulateExamples.
